(** * Sylvan's lock-less unique table (src/src/llmsset.c)

    A shallow embedding of the hash set that backs Sylvan's node table.
    The C code is translated function by function:

    - [uint64_t] values are integers of [Z]; every operation that can leave
      the range [0, 2^64) is followed by an explicit reduction ([wrap64]),
      and [~x] on a 64-bit word is [not64 x];
    - the arrays obtained from [mmap] ([table], [data], [bitmap1] ...
      [bitmap4]) are finite maps from word offsets to words; an offset that
      was never written reads as [0], which is what an anonymous mapping
      delivers;
    - the thread-local [my_region] is a finite map from worker ids to
      words, a worker without an entry holding the value [(uint64_t)-1];
      it is the [__thread] variable that tls.h declares on ELF targets,
      where LOCALIZE_THREAD_LOCAL declares nothing and a function that
      assigns to [my_region] assigns to the thread-local itself;
    - the client callbacks are function-valued fields, [None] for [NULL];
    - an offset into an array ([my_region*8], [2*cidx]) is an integer that
      is not reduced: for the buckets of a table that fits into the address
      space, the offsets that the code computes stay far below 2^64;
    - loops that C writes as [for (;;)] take a [nat] of fuel and return
      [None] when it runs out; the totality lemmas below give the amount of
      fuel that is always enough.

    The embedding describes executions in which calls into the table do not
    overlap: a [cas] therefore fails only when the word really differs from
    the expected value.  That is the situation of all statements below,
    which speak of completed calls on a quiescent table. *)

From Stdlib Require Import ZArith Lia List Bool.
From stdpp Require Import gmap relations.
From Equations Require Import Equations.

Local Open Scope Z_scope.

(** ** 64-bit words *)

Definition wrap64 (x : Z) : Z := x mod 2 ^ 64.

(** [~x] for a [uint64_t] x. *)
Definition not64 (x : Z) : Z := Z.lxor x 0xffffffffffffffff.

(** [__builtin_clzl(x)] for a non-zero 64-bit x. *)
Definition clzl (x : Z) : Z := 63 - Z.log2 x.

(** [(uint64_t)-1]: "no region" in [my_region], "no bucket" as a result of
    [claim_data_bucket]. *)
Definition MINUS_ONE : Z := 0xffffffffffffffff.

(** ** Memory *)

Definition rd (m : gmap Z Z) (i : Z) : Z := default 0 (m !! i).
Definition wr (m : gmap Z Z) (i v : Z) : gmap Z Z := <[i := v]> m.

(** [cas(ptr, old, new)] when no other worker interferes. *)
Definition cas (m : gmap Z Z) (i old new : Z) : gmap Z Z * bool :=
  if rd m i =? old then (wr m i new, true) else (m, false).

(** ** Constants of llmsset.c *)

Definition MASK_INDEX : Z := 0x00000fffffffffff.
Definition MASK_HASH  : Z := 0xfffff00000000000.

(** [LINE_SIZE] comes from sylvan_config.h; the value is the one of the
    "Example values" comment of llmsset.c. *)
Definition LINE_SIZE : Z := 64.
Definition HASH_PER_CL : Z := LINE_SIZE / 8.
Definition CL_MASK : Z := not64 (LINE_SIZE / 8 - 1).
Definition CL_MASK_R : Z := LINE_SIZE / 8 - 1.

(** ** hash16 *)

Definition rotl64 (x r : Z) : Z :=
  Z.lor (wrap64 (Z.shiftl x r)) (Z.shiftr x (64 - r)).

Definition rehash16_mul (a b seed : Z) : Z :=
  let prime := 1099511628211 in
  let hash := seed in
  let hash := Z.lxor hash a in
  let hash := rotl64 hash 47 in
  let hash := wrap64 (hash * prime) in
  let hash := Z.lxor hash b in
  let hash := rotl64 hash 31 in
  let hash := wrap64 (hash * prime) in
  Z.lxor hash (Z.shiftr hash 32).

(** The seed with which [llmsset_lookup2] and [llmsset_rehash_bucket]
    start. *)
Definition HASH_SEED : Z := 14695981039346656037.

(** ** The table *)

Record llmsset := mk_llmsset {
  table : gmap Z Z;        (* table with hashes *)
  data : gmap Z Z;         (* table with values, two words per bucket *)
  bitmap1 : gmap Z Z;      (* ownership bitmap (per 512 buckets) *)
  bitmap2 : gmap Z Z;      (* bitmap for "contains data" *)
  bitmap3 : gmap Z Z;      (* bitmap for "notify on death" *)
  bitmap4 : gmap Z Z;      (* allocated by llmsset_create, not used *)
  max_size : Z;
  table_size : Z;
  mask : Z;                (* only with LLMSSET_MASK *)
  threshold : Z;
  hash_cb : option (Z -> Z -> Z -> Z);
  equals_cb : option (Z -> Z -> Z -> Z -> bool);
  dead_cb : option (Z -> bool);   (* applied to dead_ctx already *)
  my_region : gmap Z Z     (* DECLARE_THREAD_LOCAL(my_region, uint64_t) *)
}.

Definition set_table (dbs : llmsset) (t : gmap Z Z) : llmsset :=
  mk_llmsset t (data dbs) (bitmap1 dbs) (bitmap2 dbs) (bitmap3 dbs)
    (bitmap4 dbs) (max_size dbs) (table_size dbs) (mask dbs) (threshold dbs)
    (hash_cb dbs) (equals_cb dbs) (dead_cb dbs) (my_region dbs).

Definition set_data (dbs : llmsset) (d : gmap Z Z) : llmsset :=
  mk_llmsset (table dbs) d (bitmap1 dbs) (bitmap2 dbs) (bitmap3 dbs)
    (bitmap4 dbs) (max_size dbs) (table_size dbs) (mask dbs) (threshold dbs)
    (hash_cb dbs) (equals_cb dbs) (dead_cb dbs) (my_region dbs).

Definition set_bitmap1 (dbs : llmsset) (m : gmap Z Z) : llmsset :=
  mk_llmsset (table dbs) (data dbs) m (bitmap2 dbs) (bitmap3 dbs)
    (bitmap4 dbs) (max_size dbs) (table_size dbs) (mask dbs) (threshold dbs)
    (hash_cb dbs) (equals_cb dbs) (dead_cb dbs) (my_region dbs).

Definition set_bitmap2 (dbs : llmsset) (m : gmap Z Z) : llmsset :=
  mk_llmsset (table dbs) (data dbs) (bitmap1 dbs) m (bitmap3 dbs)
    (bitmap4 dbs) (max_size dbs) (table_size dbs) (mask dbs) (threshold dbs)
    (hash_cb dbs) (equals_cb dbs) (dead_cb dbs) (my_region dbs).

Definition set_bitmap3 (dbs : llmsset) (m : gmap Z Z) : llmsset :=
  mk_llmsset (table dbs) (data dbs) (bitmap1 dbs) (bitmap2 dbs) m
    (bitmap4 dbs) (max_size dbs) (table_size dbs) (mask dbs) (threshold dbs)
    (hash_cb dbs) (equals_cb dbs) (dead_cb dbs) (my_region dbs).

Definition set_my_region (dbs : llmsset) (m : gmap Z Z) : llmsset :=
  mk_llmsset (table dbs) (data dbs) (bitmap1 dbs) (bitmap2 dbs) (bitmap3 dbs)
    (bitmap4 dbs) (max_size dbs) (table_size dbs) (mask dbs) (threshold dbs)
    (hash_cb dbs) (equals_cb dbs) (dead_cb dbs) m.

(** The Lace worker that executes a call: [lace_get_worker()->worker] and
    [lace_workers()]. *)
Record lace_worker := mk_worker { worker : Z; lace_workers : Z }.

(** The value of [my_region] in the thread of a worker. *)
Definition get_my_region (dbs : llmsset) (me : lace_worker) : Z :=
  default MINUS_ONE (my_region dbs !! worker me).

(** What an assignment to [my_region], or SET_THREAD_LOCAL(my_region, r),
    leaves in the thread-local of the worker. *)
Definition put_my_region (dbs : llmsset) (me : lace_worker) (r : Z) : llmsset :=
  set_my_region dbs (<[worker me := r]> (my_region dbs)).

(** TOGETHER(llmsset_reset_region): every worker stores [(uint64_t)-1]. *)
Definition llmsset_reset_region (dbs : llmsset) : llmsset :=
  set_my_region dbs ∅.

(** ** Bitmaps

    [0x8000000000000000LL >> (index&63)] and the word [index/64]. *)

Definition bit_mask (index : Z) : Z :=
  Z.shiftr 0x8000000000000000 (Z.land index 63).

(** The bit of a position, as the specification counts it.  Bit order within each 64-bit word is MSB-first: position [i] is bit
    [i mod 64] of word [i / 64], counted from the most significant bit. *)
Definition bit_set (bm : gmap Z Z) (i : Z) : bool :=
  Z.testbit (rd bm (i / 64)) (63 - i mod 64).

Definition release_data_bucket (dbs : llmsset) (index : Z) : llmsset :=
  let ptr := index / 64 in
  let mask := bit_mask index in
  set_bitmap2 dbs (wr (bitmap2 dbs) ptr (Z.land (rd (bitmap2 dbs) ptr) (not64 mask))).

Definition set_custom_bucket (dbs : llmsset) (index : Z) (on : bool) : llmsset :=
  let ptr := index / 64 in
  let mask := bit_mask index in
  if on then set_bitmap2 dbs (wr (bitmap2 dbs) ptr (Z.lor (rd (bitmap2 dbs) ptr) mask))
  else set_bitmap2 dbs (wr (bitmap2 dbs) ptr (Z.land (rd (bitmap2 dbs) ptr) (not64 mask))).

Definition get_custom_bucket (dbs : llmsset) (index : Z) : bool :=
  let ptr := index / 64 in
  let mask := bit_mask index in
  negb (Z.land (rd (bitmap2 dbs) ptr) mask =? 0).

Definition llmsset_is_marked (dbs : llmsset) (index : Z) : bool :=
  let ptr := index / 64 in
  let mask := bit_mask index in
  negb (Z.land (rd (bitmap2 dbs) ptr) mask =? 0).

(** The loop of [llmsset_mark] repeats only when its [cas] loses against
    another worker. *)
Definition llmsset_mark (dbs : llmsset) (index : Z) : llmsset * bool :=
  let ptr := index / 64 in
  let mask := bit_mask index in
  let v := rd (bitmap2 dbs) ptr in
  if negb (Z.land v mask =? 0) then (dbs, false)
  else (set_bitmap2 dbs (fst (cas (bitmap2 dbs) ptr v (Z.lor v mask))), true).

Definition llmsset_notify_ondead (dbs : llmsset) (index : Z) : llmsset :=
  let ptr := index / 64 in
  let mask := bit_mask index in
  let v := rd (bitmap3 dbs) ptr in
  if negb (Z.land v mask =? 0) then dbs
  else set_bitmap3 dbs (fst (cas (bitmap3 dbs) ptr v (Z.lor v mask))).

Definition llmsset_set_ondead (dbs : llmsset) (cb : option (Z -> bool)) : llmsset :=
  mk_llmsset (table dbs) (data dbs) (bitmap1 dbs) (bitmap2 dbs) (bitmap3 dbs)
    (bitmap4 dbs) (max_size dbs) (table_size dbs) (mask dbs) (threshold dbs)
    (hash_cb dbs) (equals_cb dbs) cb (my_region dbs).

Definition llmsset_set_custom (dbs : llmsset)
    (hcb : option (Z -> Z -> Z -> Z)) (ecb : option (Z -> Z -> Z -> Z -> bool))
    : llmsset :=
  mk_llmsset (table dbs) (data dbs) (bitmap1 dbs) (bitmap2 dbs) (bitmap3 dbs)
    (bitmap4 dbs) (max_size dbs) (table_size dbs) (mask dbs) (threshold dbs)
    hcb ecb (dead_cb dbs) (my_region dbs).

(** ** The allocator of data buckets *)

(** The scan [for (;i<8;)] over the eight words of a region: the first word
    that is not full, as the pair of [i] and of [j = __builtin_clzl(~v)]. *)
Fixpoint find_free (bm2 : gmap Z Z) (ptr i : Z) (n : nat) : option (Z * Z) :=
  match n with
  | O => None
  | S n' =>
      let v := rd bm2 ptr in
      if negb (v =? 0xffffffffffffffff) then Some (i, clzl (not64 v))
      else find_free bm2 (ptr + 1) (i + 1) n'
  end.

(** [my_region += 1; if (my_region >= (dbs->table_size/(64*8))) my_region = 0;] *)
Definition next_region (regions my_reg : Z) : Z :=
  let my_reg := wrap64 (my_reg + 1) in
  if regions <=? my_reg then 0 else my_reg.

(** The inner [for (;;)] of [claim_data_bucket]: [regions] is
    [table_size/(64*8)], [count] counts down from it.  The result is the
    value of [my_region] when the loop is left, together with the new
    [bitmap1] after [break], or with [None] after [return (uint64_t)-1]. *)
Fixpoint claim_region (bm1 : gmap Z Z) (regions : Z) (count : nat) (my_reg : Z)
    : option (gmap Z Z) * Z :=
  match count with
  | O => (None, my_reg)
  | S count' =>
      let my_reg := next_region regions my_reg in
      let ptr := my_reg / 64 in
      let mask := bit_mask my_reg in
      let v := rd bm1 ptr in
      if negb (Z.land v mask =? 0) then claim_region bm1 regions count' my_reg
      else (Some (fst (cas bm1 ptr v (Z.lor v mask))), my_reg)
  end.

(** The outer [for (;;)]; [my_reg] is the value of the thread-local, which
    the table records whenever the function is left or goes round: also
    [return (uint64_t)-1] leaves in [my_region] what the search has made of
    it. *)
Fixpoint claim_data_bucket_loop (fuel : nat) (me : lace_worker) (dbs : llmsset)
    (my_reg : Z) : option (llmsset * Z) :=
  match fuel with
  | O => None
  | S fuel' =>
      let regions := table_size dbs / (64 * 8) in
      let search (my_reg : Z) :=
        match claim_region (bitmap1 dbs) regions (Z.to_nat regions) my_reg with
        | (None, r) => Some (put_my_region dbs me r, MINUS_ONE)
        | (Some bm1, r) =>
            claim_data_bucket_loop fuel' me (put_my_region (set_bitmap1 dbs bm1) me r) r
        end in
      if negb (my_reg =? MINUS_ONE) then
        let ptr := my_reg * 8 in
        match find_free (bitmap2 dbs) ptr 0 8 with
        | Some (i, j) =>
            let w := ptr + i in
            let v := rd (bitmap2 dbs) w in
            Some (set_bitmap2 dbs (wr (bitmap2 dbs) w (Z.lor v (Z.shiftr 0x8000000000000000 j))),
                  wrap64 ((8 * my_reg + i) * 64 + j))
        | None => search my_reg
        end
      else
        search (wrap64 (my_reg +
                  wrap64 (worker me * (table_size dbs / (64 * 8))) / lace_workers me))
  end.

Definition claim_data_bucket (fuel : nat) (me : lace_worker) (dbs : llmsset)
    : option (llmsset * Z) :=
  claim_data_bucket_loop fuel me dbs (get_my_region dbs me).

(** The two halves of a range of more than 1024 slots are shorter than the
    range: the recursion of the parallel sweeps ends. *)
Ltac split_decreases :=
  repeat match goal with x := _ |- _ => subst x end;
  repeat match goal with f : forall _ : _, _ |- _ => clear f end;
  Z.div_mod_to_equations; lia.

(** ** Lookup *)

Section Build.

(** The compile-time switch of llmsset.h. *)
Variable LLMSSET_MASK : bool.

Definition start_index (dbs : llmsset) (hash_rehash : Z) : Z :=
  if LLMSSET_MASK then Z.land hash_rehash (mask dbs)
  else hash_rehash mod table_size dbs.

(** [idx = (idx & CL_MASK) | ((idx+1) & CL_MASK_R)] *)
Definition next_in_line (idx : Z) : Z :=
  Z.lor (Z.land idx CL_MASK) (Z.land (wrap64 (idx + 1)) CL_MASK_R).

(** [if (custom) hash_rehash = dbs->hash_cb(a, b, hash_rehash);
     else hash_rehash = rehash16_mul(a, b, hash_rehash);]
    Calling a callback that was never registered has no result. *)
Definition next_hash (dbs : llmsset) (custom : bool) (a b hash_rehash : Z)
    : option Z :=
  if custom then
    match hash_cb dbs with
    | Some f => Some (wrap64 (f a b hash_rehash))
    | None => None
    end
  else Some (rehash16_mul a b hash_rehash).

Definition payload_equal (dbs : llmsset) (custom : bool) (a b d0 d1 : Z)
    : option bool :=
  if custom then
    match equals_cb dbs with
    | Some e => Some (e a b d0 d1)
    | None => None
    end
  else Some ((d0 =? a) && (d1 =? b)).

Definition has_hash_cb (dbs : llmsset) : bool :=
  match hash_cb dbs with Some _ => true | None => false end.

(** The variables of a probe. *)
Record probe := mk_probe {
  p_hash_rehash : Z;   (* hash_rehash *)
  p_idx : Z;           (* idx *)
  p_last : Z;          (* last *)
  p_i : Z              (* i *)
}.

(** "find next idx on probe sequence": the end of the loop body, which
    [llmsset_lookup2] and [llmsset_rehash_bucket] have in common.
    [Some None] is the exit "failed to find empty spot in probe sequence",
    [None] a call of a callback that is [NULL]. *)
Definition probe_next (dbs : llmsset) (custom : bool) (a b : Z) (p : probe)
    : option (option probe) :=
  let idx' := next_in_line (p_idx p) in
  if idx' =? p_last p then
    if p_i p + 1 =? threshold dbs then Some None
    else
      (* go to next cache line in probe sequence *)
      match next_hash dbs custom a b (p_hash_rehash p) with
      | None => None
      | Some h =>
          let idx' := start_index dbs h in
          Some (Some (mk_probe h idx' idx' (p_i p + 1)))
      end
  else Some (Some (mk_probe (p_hash_rehash p) idx' (p_last p) (p_i p))).

(** The probe with which both functions start. *)
Definition probe_first (dbs : llmsset) (custom : bool) (a b : Z) : option probe :=
  match next_hash dbs custom a b HASH_SEED with
  | None => None
  | Some h =>
      let idx := start_index dbs h in
      Some (mk_probe h idx idx 0)
  end.

(** What a call returns: the table afterwards, the index, and the value
    stored through [created], if any. *)
Definition lookup_result : Type := llmsset * Z * option bool.

Inductive flow (S : Type) : Type :=
| Ret (r : lookup_result)
| Go (s : S).
Arguments Ret {S} r.
Arguments Go {S} s.

(** The block [if (v == 0) { ... }] of [llmsset_lookup2], entered with
    [v == 0]; it returns, or goes on with [cidx] and the re-read [v]. *)
Definition lookup2_empty (cfuel : nat) (me : lace_worker) (dbs : llmsset)
    (a b : Z) (custom : bool) (hash idx cidx : Z)
    : option (flow (llmsset * Z * Z)) :=
  let claimed :=
    if cidx =? 0 then
      match claim_data_bucket cfuel me dbs with
      | None => None
      | Some (dbs, c) =>
          if c =? MINUS_ONE then Some (Ret (dbs, 0, None))
          else Some (Go (set_data dbs (wr (wr (data dbs) (2 * c) a) (2 * c + 1) b), c))
      end
    else Some (Go (dbs, cidx)) in
  match claimed with
  | None => None
  | Some (Ret r) => Some (Ret r)
  | Some (Go (dbs, cidx)) =>
      let (t, ok) := cas (table dbs) idx 0 (Z.lor hash cidx) in
      if ok then
        let dbs := set_table dbs t in
        let dbs := if custom || has_hash_cb dbs
                   then set_custom_bucket dbs cidx custom else dbs in
        Some (Ret (dbs, cidx, Some true))
      else Some (Go (dbs, cidx, rd (table dbs) idx))
  end.

(** The block [if (hash == (v & MASK_HASH)) { ... }]: [Some (Some r)] when
    it returns [r], [Some None] when the probe goes on. *)
Definition lookup2_match (dbs : llmsset) (a b : Z) (custom : bool)
    (hash cidx v : Z) : option (option lookup_result) :=
  if hash =? Z.land v MASK_HASH then
    let d_idx := Z.land v MASK_INDEX in
    let d0 := rd (data dbs) (2 * d_idx) in
    let d1 := rd (data dbs) (2 * d_idx + 1) in
    match payload_equal dbs custom a b d0 d1 with
    | None => None
    | Some true =>
        let dbs := if negb (cidx =? 0) then release_data_bucket dbs cidx else dbs in
        Some (Some (dbs, d_idx, Some false))
    | Some false => Some None
    end
  else Some None.

Fixpoint lookup2_loop (cfuel fuel : nat) (me : lace_worker) (dbs : llmsset)
    (a b : Z) (custom : bool) (hash cidx : Z) (p : probe)
    : option lookup_result :=
  match fuel with
  | O => None
  | S fuel' =>
      let idx := p_idx p in
      let v := rd (table dbs) idx in
      let entered :=
        if v =? 0 then lookup2_empty cfuel me dbs a b custom hash idx cidx
        else Some (Go (dbs, cidx, v)) in
      match entered with
      | None => None
      | Some (Ret r) => Some r
      | Some (Go (dbs, cidx, v)) =>
          match lookup2_match dbs a b custom hash cidx v with
          | None => None
          | Some (Some r) => Some r
          | Some None =>
              match probe_next dbs custom a b p with
              | None => None
              | Some None => Some (dbs, 0, None)
              | Some (Some p) =>
                  lookup2_loop cfuel fuel' me dbs a b custom hash cidx p
              end
          end
      end
  end.

Definition llmsset_lookup2 (fuel : nat) (me : lace_worker) (dbs : llmsset)
    (a b : Z) (custom : bool) : option lookup_result :=
  match probe_first dbs custom a b with
  | None => None
  | Some p =>
      let hash := Z.land (p_hash_rehash p) MASK_HASH in
      lookup2_loop fuel fuel me dbs a b custom hash 0 p
  end.

Definition llmsset_lookup (fuel : nat) (me : lace_worker) (dbs : llmsset)
    (a b : Z) : option lookup_result :=
  llmsset_lookup2 fuel me dbs a b false.

Definition llmsset_lookupc (fuel : nat) (me : lace_worker) (dbs : llmsset)
    (a b : Z) : option lookup_result :=
  llmsset_lookup2 fuel me dbs a b true.

(** ** Rehashing *)

Fixpoint rehash_bucket_loop (fuel : nat) (dbs : llmsset) (a b : Z)
    (custom : bool) (new_v : Z) (p : probe) : option (llmsset * bool) :=
  match fuel with
  | O => None
  | S fuel' =>
      let idx := p_idx p in
      let (t, ok) :=
        if rd (table dbs) idx =? 0 then cas (table dbs) idx 0 new_v
        else (table dbs, false) in
      if ok then Some (set_table dbs t, true)
      else
        match probe_next dbs custom a b p with
        | None => None
        | Some None => Some (dbs, false)
        | Some (Some p) => rehash_bucket_loop fuel' dbs a b custom new_v p
        end
  end.

Definition llmsset_rehash_bucket (fuel : nat) (dbs : llmsset) (d_idx : Z)
    : option (llmsset * bool) :=
  let a := rd (data dbs) (2 * d_idx) in
  let b := rd (data dbs) (2 * d_idx + 1) in
  let custom := has_hash_cb dbs && get_custom_bucket dbs d_idx in
  match probe_first dbs custom a b with
  | None => None
  | Some p =>
      let new_v := Z.lor (Z.land (p_hash_rehash p) MASK_HASH) d_idx in
      rehash_bucket_loop fuel dbs a b custom new_v p
  end.

(** The serial branch of [llmsset_rehash_par]: [n] iterations are left,
    [k] is the loop counter. *)
Fixpoint rehash_serial (fuel n : nat) (dbs : llmsset) (first k ptr mask : Z)
    : option llmsset :=
  match n with
  | O => Some dbs
  | S n' =>
      let rehashed :=
        if negb (Z.land (rd (bitmap2 dbs) ptr) mask =? 0)
        then option_map fst (llmsset_rehash_bucket fuel dbs (first + k))
        else Some dbs in
      match rehashed with
      | None => None
      | Some dbs =>
          let mask := Z.shiftr mask 1 in
          if mask =? 0
          then rehash_serial fuel n' dbs first (k + 1) (ptr + 1) 0x8000000000000000
          else rehash_serial fuel n' dbs first (k + 1) ptr mask
      end
  end.

(** A worker that is left alone runs the task it CALLs before the task it
    SPAWNed, which it picks up again at SYNC. *)
Equations? llmsset_rehash_par (fuel : nat) (dbs : llmsset) (first count : Z)
    : option llmsset by wf (Z.to_nat count) lt :=
  llmsset_rehash_par fuel dbs first count with Z_lt_dec 1024 count => {
    | left _ =>
        let split := count / 2 in
        match llmsset_rehash_par fuel dbs (first + split) (count - split) with
        | None => None
        | Some dbs => llmsset_rehash_par fuel dbs first split
        end
    | right _ =>
        rehash_serial fuel (Z.to_nat count) dbs first 0 (first / 64) (bit_mask first) }.
Proof. all: split_decreases. Qed.

Definition llmsset_rehash (fuel : nat) (dbs : llmsset) : option llmsset :=
  llmsset_rehash_par fuel dbs 0 (table_size dbs).




(** ** Creation and clearing *)

(** [__builtin_popcountll] *)
Definition popcountll (x : Z) : Z :=
  Z.of_nat (length (filter (fun k => Is_true (Z.testbit x k)) (seqZ 0 64))).

(** Modelled from the spec: [llmsset_set_size] is defined in llmsset.h, which
    is not part of the sources at hand.  It "updates the logical table_size
    and mask"; the probe budget is "a tunable, typically derived from
    log2(table_size)", with the default "roughly 2*log2(table_size)". *)
Definition llmsset_set_size (dbs : llmsset) (size : Z) : llmsset :=
  mk_llmsset (table dbs) (data dbs) (bitmap1 dbs) (bitmap2 dbs) (bitmap3 dbs)
    (bitmap4 dbs) (max_size dbs) size (size - 1) (2 * Z.log2 size)
    (hash_cb dbs) (equals_cb dbs) (dead_cb dbs) (my_region dbs).

(** [llmsset_create]; [None] stands for [exit(1)].  A call of [mmap] with
    the length 0 fails, and of the six mappings that of [bitmap1] is the
    shortest: the function exits when [max_size / (512*8)] is 0.  The
    mappings are fresh and therefore zero, and
    TOGETHER(llmsset_init_worker) leaves every worker without a region. *)
Definition llmsset_create (initial_size max_size : Z) : option llmsset :=
  if LLMSSET_MASK && negb (popcountll initial_size =? 1) then None
  else if LLMSSET_MASK && negb (popcountll max_size =? 1) then None
  else if max_size <? initial_size then None
  else if initial_size <? 512 then None
  else if max_size / (512 * 8) =? 0 then None
  else
    let dbs := mk_llmsset ∅ ∅ ∅ ∅ ∅ ∅ max_size 0 0 0 None None None ∅ in
    let dbs := llmsset_set_size dbs initial_size in
    (* forbid first two positions (index 0 and 1) *)
    let dbs := set_bitmap2 dbs (wr (bitmap2 dbs) 0 0xc000000000000000) in
    Some (llmsset_reset_region dbs).

(** [llmsset_clear]: [table], [bitmap1] and [bitmap2] are mapped afresh (or
    zeroed), [data] and [bitmap3] stay. *)
Definition llmsset_clear (dbs : llmsset) : llmsset :=
  let dbs := set_table dbs ∅ in
  let dbs := set_bitmap1 dbs ∅ in
  let dbs := set_bitmap2 dbs ∅ in
  (* forbid first two positions (index 0 and 1) *)
  let dbs := set_bitmap2 dbs (wr (bitmap2 dbs) 0 0xc000000000000000) in
  llmsset_reset_region dbs.

(** ** Counting *)

(** The serial branch of [llmsset_count_marked_par]. *)
Fixpoint count_serial (n : nat) (bm2 : gmap Z Z) (ptr mask result : Z) : Z :=
  match n with
  | O => result
  | S n' =>
      let result :=
        if negb (Z.land (rd bm2 ptr) mask =? 0) then wrap64 (result + 1)
        else result in
      let mask := Z.shiftr mask 1 in
      if mask =? 0 then count_serial n' bm2 (ptr + 1) 0x8000000000000000 result
      else count_serial n' bm2 ptr mask result
  end.

Equations? llmsset_count_marked_par (dbs : llmsset) (first count : Z) : Z
    by wf (Z.to_nat count) lt :=
  llmsset_count_marked_par dbs first count with Z_lt_dec 1024 count => {
    | left _ =>
        let split := count / 2 in
        let right := llmsset_count_marked_par dbs (first + split) (count - split) in
        let left := llmsset_count_marked_par dbs first split in
        wrap64 (left + right)
    | right _ =>
        count_serial (Z.to_nat count) (bitmap2 dbs) (first / 64) (bit_mask first) 0 }.
Proof. all: split_decreases. Qed.

Definition llmsset_count_marked (dbs : llmsset) : Z :=
  llmsset_count_marked_par dbs 0 (table_size dbs).

(** ** Notification of dead buckets *)

(** One iteration of the loop of [llmsset_notify_par], for index [k].  The
    second component lists the indices handed to the callback. *)
Definition notify_one (cb : Z -> bool) (dbs : llmsset) (k : Z) : llmsset * list Z :=
  let ptr := k / 64 in
  let mask := bit_mask k in
  (* if not filled but has notify *)
  if (Z.land (rd (bitmap2 dbs) ptr) mask =? 0)
     && negb (Z.land (rd (bitmap3 dbs) ptr) mask =? 0) then
    if cb k then
      (* keep it *)
      let v := rd (bitmap2 dbs) ptr in
      (set_bitmap2 dbs (fst (cas (bitmap2 dbs) ptr v (Z.lor v mask))), [k])
    else
      (* unnotify it *)
      let v := rd (bitmap3 dbs) ptr in
      (set_bitmap3 dbs (fst (cas (bitmap3 dbs) ptr v (Z.land v (not64 mask)))), [k])
  else (dbs, []).

(** [for (size_t k=first; k<first+count; k++)] with [n] iterations left. *)
Fixpoint notify_serial (cb : Z -> bool) (n : nat) (dbs : llmsset) (k : Z)
    : llmsset * list Z :=
  match n with
  | O => (dbs, [])
  | S n' =>
      let (dbs, called) := notify_one cb dbs k in
      let (dbs, called') := notify_serial cb n' dbs (k + 1) in
      (dbs, called ++ called')
  end.

Equations? llmsset_notify_par (cb : Z -> bool) (dbs : llmsset) (first count : Z)
    : llmsset * list Z by wf (Z.to_nat count) lt :=
  llmsset_notify_par cb dbs first count with Z_lt_dec 1024 count => {
    | left _ =>
        let split := count / 2 in
        let (dbs, called) := llmsset_notify_par cb dbs (first + split) (count - split) in
        let (dbs, called') := llmsset_notify_par cb dbs first split in
        (dbs, called ++ called')
    | right _ => notify_serial cb (Z.to_nat count) dbs first }.
Proof. all: split_decreases. Qed.

Definition llmsset_notify_all (dbs : llmsset) : llmsset * list Z :=
  match dead_cb dbs with
  | None => (dbs, [])
  | Some cb => llmsset_notify_par cb dbs 0 (table_size dbs)
  end.

(** ** Probe sequences

    The notions with which the properties of the two probing loops are
    stated. *)

(** The probe after [n] steps of [probe_next], if it gets that far. *)
Fixpoint probe_nth (dbs : llmsset) (custom : bool) (a b : Z) (n : nat) (p : probe)
    : option probe :=
  match n with
  | O => Some p
  | S n' =>
      match probe_next dbs custom a b p with
      | Some (Some q) => probe_nth dbs custom a b n' q
      | _ => None
      end
  end.

(** The slot of probe [q] holds an entry, and the entry is not the one
    that the lookup of [(a, b)] is after. *)
Definition slot_passed (dbs : llmsset) (a b : Z) (custom : bool) (hash : Z)
    (q : probe) : Prop :=
  rd (table dbs) (p_idx q) ≠ 0
  ∧ lookup2_match dbs a b custom hash 0 (rd (table dbs) (p_idx q)) = Some None.

(** The lookup passes the first [n] slots of the probe sequence from [p]. *)
Definition passes (dbs : llmsset) (a b : Z) (custom : bool) (hash : Z)
    (p : probe) (n : nat) : Prop :=
  ∀ m, (m < n)%nat →
    ∃ q, probe_nth dbs custom a b m p = Some q ∧ slot_passed dbs a b custom hash q.

(** The table after [llmsset_lookup2] has written the payload into the
    bucket [c], which it claimed in [d1], and has published it in the
    directory at [slot]. *)
Definition published (d1 : llmsset) (a b : Z) (custom : bool) (hash slot c : Z)
    : llmsset :=
  let d := set_data d1 (wr (wr (data d1) (2 * c) a) (2 * c + 1) b) in
  let d := set_table d (wr (table d) slot (Z.lor hash c)) in
  if custom || has_hash_cb d then set_custom_bucket d c custom else d.

(** A probe within its budget, on a slot of the cache line in which it
    started. *)
Definition probe_ok (dbs : llmsset) (p : probe) : Prop :=
  0 <= p_idx p < 2 ^ 64 ∧ 0 <= p_last p < 2 ^ 64
  ∧ p_idx p / 8 = p_last p / 8
  ∧ 0 <= p_i p < threshold dbs.

(** The number of steps that a probe has left. *)
Definition probe_left (dbs : llmsset) (p : probe) : Z :=
  8 * (threshold dbs - 1 - p_i p) + (7 - (p_idx p - p_last p) mod 8).

(** The payload of the data bucket [k]. *)
Definition payload (dbs : llmsset) (k : Z) : Z * Z :=
  (rd (data dbs) (2 * k), rd (data dbs) (2 * k + 1)).

(** The directory word of the data bucket [k] under the default hash. *)
Definition entry_of (dbs : llmsset) (k : Z) : Z :=
  Z.lor (Z.land (rehash16_mul (payload dbs k).1 (payload dbs k).2 HASH_SEED) MASK_HASH) k.

(** How a lookup ends at the probe [q]: it publishes a new entry in an empty
    slot, gets no bucket for it, finds the entry, or has used up its
    budget. *)
Inductive lookup_end (cfuel : nat) (me : lace_worker) (dbs : llmsset) (a b : Z)
    (custom : bool) (hash : Z) (q : probe) : lookup_result → Prop :=
| end_created d1 c :
    rd (table dbs) (p_idx q) = 0 →
    claim_data_bucket cfuel me dbs = Some (d1, c) →
    c ≠ MINUS_ONE →
    lookup_end cfuel me dbs a b custom hash q
      (published d1 a b custom hash (p_idx q) c, c, Some true)
| end_no_bucket d1 :
    rd (table dbs) (p_idx q) = 0 →
    claim_data_bucket cfuel me dbs = Some (d1, MINUS_ONE) →
    lookup_end cfuel me dbs a b custom hash q (d1, 0, None)
| end_found :
    rd (table dbs) (p_idx q) ≠ 0 →
    hash = Z.land (rd (table dbs) (p_idx q)) MASK_HASH →
    payload_equal dbs custom a b
      (rd (data dbs) (2 * Z.land (rd (table dbs) (p_idx q)) MASK_INDEX))
      (rd (data dbs) (2 * Z.land (rd (table dbs) (p_idx q)) MASK_INDEX + 1))
      = Some true →
    lookup_end cfuel me dbs a b custom hash q
      (dbs, Z.land (rd (table dbs) (p_idx q)) MASK_INDEX, Some false)
| end_exhausted :
    slot_passed dbs a b custom hash q →
    probe_next dbs custom a b q = Some None →
    lookup_end cfuel me dbs a b custom hash q (dbs, 0, None).

(** The first [n] slots of the probe sequence from [p] hold entries. *)
Definition occupied_before (dbs : llmsset) (custom : bool) (a b : Z)
    (p : probe) (n : nat) : Prop :=
  ∀ m, (m < n)%nat →
    ∃ q, probe_nth dbs custom a b m p = Some q ∧ rd (table dbs) (p_idx q) ≠ 0.

(** How a re-insert ends at the probe [q]. *)
Inductive rehash_end (dbs : llmsset) (a b : Z) (custom : bool) (new_v : Z)
    (q : probe) : llmsset * bool → Prop :=
| end_placed :
    rd (table dbs) (p_idx q) = 0 →
    rehash_end dbs a b custom new_v q
      (set_table dbs (wr (table dbs) (p_idx q) new_v), true)
| end_full :
    rd (table dbs) (p_idx q) ≠ 0 →
    probe_next dbs custom a b q = Some None →
    rehash_end dbs a b custom new_v q (dbs, false).

(** The probe sequence of the payload of bucket [k] arrives at [slot] over
    slots that hold entries. *)
Definition reached_by (dbs : llmsset) (k slot : Z) : Prop :=
  ∃ p n q,
    probe_first dbs false (payload dbs k).1 (payload dbs k).2 = Some p
    ∧ probe_nth dbs false (payload dbs k).1 (payload dbs k).2 n p = Some q
    ∧ p_idx q = slot
    ∧ occupied_before dbs false (payload dbs k).1 (payload dbs k).2 p n.

(** The directory during and after a rehash sweep: every entry is the
    word of a marked bucket below [table_size], and sits where the probe
    sequence of the payload of that bucket finds it. *)
Definition rehashed (dbs : llmsset) : Prop :=
  ∀ slot, rd (table dbs) slot ≠ 0 →
    ∃ k, 0 <= k < table_size dbs
         ∧ bit_set (bitmap2 dbs) k = true
         ∧ rd (table dbs) slot = entry_of dbs k
         ∧ reached_by dbs k slot.

(** The conditions under which the default probe is defined and ends. *)
Definition default_probing (dbs : llmsset) : Prop :=
  hash_cb dbs = None ∧ 0 < table_size dbs ∧ 0 < threshold dbs.

End Build.

Arguments Ret {S} r.
Arguments Go {S} s.

(** * Notions of the specification *)

(** Rotation to the left of a 64-bit word, by arithmetic: the bits that a
    multiplication by [2^r] pushes out at the top come back at the bottom. *)
Definition rotate_left64 (x r : Z) : Z :=
  (x * 2 ^ r) mod 2 ^ 64 + (x * 2 ^ r) / 2 ^ 64.

(** The default mixer, in the words of the specification. *)
Definition mixer (seed a b : Z) : Z :=
  let P := 1099511628211 in
  let h := Z.lxor seed a in
  let h := rotate_left64 h 47 in
  let h := (h * P) mod 2 ^ 64 in
  let h := Z.lxor h b in
  let h := rotate_left64 h 31 in
  let h := (h * P) mod 2 ^ 64 in
  Z.lxor h (h / 2 ^ 32).

(** The two fields of a directory slot: the high 20 bits and the low 44. *)
Definition slot_tag (v : Z) : Z := v / 2 ^ 44.
Definition slot_index (v : Z) : Z := v mod 2 ^ 44.

(** A straightforward serial count of the set bits at the positions
    [first], ..., [first + n - 1]. *)
Fixpoint count_set (n : nat) (bm : gmap Z Z) (first : Z) : Z :=
  match n with
  | O => 0
  | S n' => (if bit_set bm first then 1 else 0) + count_set n' bm (first + 1)
  end.

(** The regions without an owner. *)
Definition free_regions (dbs : llmsset) : Z :=
  table_size dbs / 512
  - count_set (Z.to_nat (table_size dbs / 512)) (bitmap1 dbs) 0.

(** A slot that the notify sweep hands to the callback: not filled, but
    with a notification request. *)
Definition dead_candidate (dbs : llmsset) (k : Z) : bool :=
  negb (bit_set (bitmap2 dbs) k) && bit_set (bitmap3 dbs) k.

(** The occupancy bit and the notification bit of a slot. *)
Definition bits23 (dbs : llmsset) (k : Z) : bool * bool :=
  (bit_set (bitmap2 dbs) k, bit_set (bitmap3 dbs) k).

(** What the notify sweep is to make of the two bits of slot [k]: a dead
    candidate is resurrected when the callback says so, and loses its
    notification request otherwise. *)
Definition notify_bits (cb : Z -> bool) (dbs : llmsset) (k : Z) : bool * bool :=
  if dead_candidate dbs k then
    if cb k then (true, bit_set (bitmap3 dbs) k)
    else (bit_set (bitmap2 dbs) k, false)
  else bits23 dbs k.

(** Two tables that differ in [bitmap2] and [bitmap3] at most. *)
Definition same_but_bitmaps23 (d d' : llmsset) : Prop :=
  d' = set_bitmap3 (set_bitmap2 d (bitmap2 d')) (bitmap3 d').

(** What [claim_data_bucket] may change: [bitmap1], [bitmap2] and the
    thread-local [my_region]. *)
Definition claim_frame (d d' : llmsset) : Prop :=
  d' = set_my_region (set_bitmap2 (set_bitmap1 d (bitmap1 d')) (bitmap2 d'))
         (my_region d').

(** Every word of a bitmap is a 64-bit word. *)
Definition words_ok (bm : gmap Z Z) : Prop :=
  map_Forall (λ _ v, 0 <= v < 2 ^ 64) bm.

(** The thread-local of a worker holds "no region" or the number of a
    region. *)
Definition region_ok (dbs : llmsset) (me : lace_worker) : Prop :=
  get_my_region dbs me = MINUS_ONE ∨ 0 <= get_my_region dbs me < 2 ^ 55.

(** Two tables that differ in the directory at most. *)
Definition table_frame (d d' : llmsset) : Prop := d' = set_table d (table d').

(** The first two phases of a garbage collection: the table is cleared,
    then the client marks the buckets that are live. *)
Definition clear_and_mark (dbs : llmsset) (live : list Z) : llmsset :=
  foldl (λ d k, (llmsset_mark d k).1) (llmsset_clear dbs) live.

(** * Well-formed tables

    The notions for the tables on which no custom callback is registered. *)

Section WellFormed.

Variable LLMSSET_MASK : bool.

(** Every worker is without a region or owns a region of the table. *)
Definition regions_ok (dbs : llmsset) : Prop :=
  ∀ me, get_my_region dbs me = MINUS_ONE
        ∨ 0 <= get_my_region dbs me < table_size dbs / 512.

(** Every entry of the directory names a bucket that is not reserved. *)
Definition entries_from_2 (dbs : llmsset) : Prop :=
  ∀ slot, rd (table dbs) slot ≠ 0 → 2 <= slot_index (rd (table dbs) slot).

(** A well-formed table without custom callbacks: no hash callback is
    registered, the table has at least one region and at most 2^44 buckets
    and a positive probe budget, [bitmap2] holds 64-bit words, the buckets 0
    and 1 are reserved, every worker has no region or a region of the table,
    and every entry of the directory is the word of a bucket in use from 2
    on, at a slot where the probe sequence of its payload arrives over
    occupied slots.  [llmsset_create] returns such a table and
    [llmsset_lookup] keeps it one. *)
Definition table_ok (dbs : llmsset) : Prop :=
  default_probing dbs
  ∧ 512 <= table_size dbs <= 2 ^ 44
  ∧ words_ok (bitmap2 dbs)
  ∧ regions_ok dbs
  ∧ bit_set (bitmap2 dbs) 0 = true ∧ bit_set (bitmap2 dbs) 1 = true
  ∧ rehashed LLMSSET_MASK dbs
  ∧ entries_from_2 dbs.

(** The lookup of the payload [(a, b)] finds the bucket [idx]: whoever calls
    it, with the budget of a whole probe sequence. *)
Definition finds (dbs : llmsset) (a b idx : Z) : Prop :=
  ∀ me fuel, 8 * threshold dbs <= Z.of_nat fuel →
    llmsset_lookup LLMSSET_MASK fuel me dbs a b = Some (dbs, idx, Some false).

(** A call of [llmsset_lookup] takes the table [d] to [d']. *)
Definition lookup_step (d d' : llmsset) : Prop :=
  ∃ fuel me a b idx cr,
    llmsset_lookup LLMSSET_MASK fuel me d a b = Some (d', idx, cr).

(** Two tables in which a payload has the same probe sequence. *)
Definition same_probing (d d' : llmsset) : Prop :=
  threshold d' = threshold d ∧ table_size d' = table_size d
  ∧ mask d' = mask d ∧ hash_cb d' = hash_cb d.

(** A table [d'] that keeps the entries of [d] and the payloads of their
    buckets. *)
Definition keeps_entries (d d' : llmsset) : Prop :=
  same_probing d d'
  ∧ ∀ y, rd (table d) y ≠ 0 →
      rd (table d') y = rd (table d) y
      ∧ payload d' (Z.land (rd (table d) y) MASK_INDEX)
        = payload d (Z.land (rd (table d) y) MASK_INDEX).

(** A probe that started below [table_size]. *)
Definition probe_in_table (dbs : llmsset) (p : probe) : Prop :=
  probe_ok dbs p ∧ p_last p < table_size dbs.

(** A table whose size is a power of two, with the mask that goes with it. *)
Definition pow2_sized (dbs : llmsset) : Prop :=
  ∃ k, 0 <= k ∧ table_size dbs = 2 ^ k ∧ mask dbs = 2 ^ k - 1.

(** Every region that a worker owns is taken in [bitmap1], and no two
    workers own the same region; [table_size] is a [size_t]. *)
Definition regions_exclusive (dbs : llmsset) : Prop :=
  table_size dbs < 2 ^ 64
  ∧ (∀ w, get_my_region dbs w ≠ MINUS_ONE →
          bit_set (bitmap1 dbs) (get_my_region dbs w) = true)
  ∧ ∀ w1 w2, worker w1 ≠ worker w2 → get_my_region dbs w1 ≠ MINUS_ONE →
      get_my_region dbs w1 ≠ get_my_region dbs w2.

(** A call of [llmsset_lookup] or [llmsset_lookupc], by any worker, that
    stores to [created] takes the table [d] to [d']. *)
Definition lookup2_done (d d' : llmsset) : Prop :=
  ∃ fuel me a b custom idx created,
    llmsset_lookup2 LLMSSET_MASK fuel me d a b custom = Some (d', idx, Some created).

(** A table with both callbacks registered, in which the lookups are those
    of [llmsset_lookupc]: the buckets 0 and 1 are reserved, every worker has
    no region or a region of the table, and every entry of the directory
    names a bucket in use, from 2 on and in the table. *)
Definition custom_ok (dbs : llmsset) : Prop :=
  hash_cb dbs ≠ None ∧ equals_cb dbs ≠ None
  ∧ 0 < threshold dbs ∧ 512 <= table_size dbs <= 2 ^ 44
  ∧ words_ok (bitmap2 dbs) ∧ regions_ok dbs
  ∧ bit_set (bitmap2 dbs) 0 = true ∧ bit_set (bitmap2 dbs) 1 = true
  ∧ ∀ slot, rd (table dbs) slot ≠ 0 →
      2 <= Z.land (rd (table dbs) slot) MASK_INDEX < table_size dbs
      ∧ bit_set (bitmap2 dbs) (Z.land (rd (table dbs) slot) MASK_INDEX) = true.

(** A call of [llmsset_lookupc] takes the table [d] to [d']. *)
Definition lookupc_step (d d' : llmsset) : Prop :=
  ∃ fuel me a b idx cr,
    llmsset_lookupc LLMSSET_MASK fuel me d a b = Some (d', idx, cr).

(** Two tables with the same probe sequences and the same comparison, the
    second of which keeps the entries of the first and the payloads of their
    buckets. *)
Definition keeps_entries_c (d d' : llmsset) : Prop :=
  same_probing d d' ∧ equals_cb d' = equals_cb d
  ∧ ∀ y, rd (table d) y ≠ 0 →
      rd (table d') y = rd (table d) y
      ∧ payload d' (Z.land (rd (table d) y) MASK_INDEX)
        = payload d (Z.land (rd (table d) y) MASK_INDEX).

(** The lookup of the payload [(a, b)] with [llmsset_lookupc] finds the
    bucket [idx]. *)
Definition finds_c (dbs : llmsset) (a b idx : Z) : Prop :=
  ∀ me fuel, 8 * threshold dbs <= Z.of_nat fuel →
    llmsset_lookupc LLMSSET_MASK fuel me dbs a b = Some (dbs, idx, Some false).



(** The state of a sweep: the table [d'] has grown out of [dbs] by entries
    in empty slots, and every marked bucket from 1 on among [ys] has been
    dropped or has its word in the directory. *)
Definition swept (dbs d' : llmsset) (l : list Z) (ys : Z → Prop) : Prop :=
  table_frame dbs d'
  ∧ (∀ y, rd (table dbs) y ≠ 0 → rd (table d') y = rd (table dbs) y)
  ∧ ∀ y, ys y → 0 < y → bit_set (bitmap2 dbs) y = true →
      y ∈ l ∨ ∃ slot, rd (table d') slot = entry_of dbs y.

End WellFormed.

(** * Example tables *)

(** The only worker of a run, and the second of two workers. *)
Definition worker0 : lace_worker := mk_worker 0 1.
Definition worker1of2 : lace_worker := mk_worker 1 2.

(** The tables that [llmsset_create(512, 4096)] and
    [llmsset_create(4096, 4096)] return. *)
Definition table512 : llmsset :=
  mk_llmsset ∅ ∅ ∅ (wr ∅ 0 0xc000000000000000) ∅ ∅ 4096 512 511 18
    None None None ∅.

Definition table4096 : llmsset :=
  mk_llmsset ∅ ∅ ∅ (wr ∅ 0 0xc000000000000000) ∅ ∅ 4096 4096 4095 24
    None None None ∅.

(** The index that a call returns and the value it stores in [created]. *)
Definition outcome (r : option lookup_result) : option (Z * option bool) :=
  option_map (λ r, (r.1.2, r.2)) r.

(** The table after worker 0 has called [llmsset_lookup], in a build with
    LLMSSET_MASK 0. *)
Definition after_lookup (d : llmsset) (a b : Z) : llmsset :=
  match llmsset_lookup false 144 worker0 d a b with
  | Some (d', _, _) => d'
  | None => d
  end.

(** The table after worker 0 has called [llmsset_lookupc]. *)
Definition after_lookupc (d : llmsset) (a b : Z) : llmsset :=
  match llmsset_lookupc false 144 worker0 d a b with
  | Some (d', _, _) => d'
  | None => d
  end.

(** Scenario S3 of the specification: the payloads (1,1), (2,2) and (3,3)
    in a table of 512 slots. *)
Definition table_s3 : llmsset :=
  after_lookup (after_lookup (after_lookup table512 1 1) 2 2) 3 3.

(** The table of 512 slots after worker 0 has looked up the payloads (1, 0),
    ..., (510, 0). *)
Definition crowded512 : llmsset :=
  foldl (λ d i, after_lookup d i 0) table512 (seqZ 1 510).

(** The table of 4096 slots after worker 0 has looked up (7, 11) and the
    second of two workers has looked up (7, 12). *)
Definition two_workers4096 : llmsset :=
  match llmsset_lookup false 144 worker1of2 (after_lookup table4096 7 11) 7 12 with
  | Some (d', _, _) => d'
  | None => table4096
  end.


(** Scenario S3 after a garbage collection that keeps the buckets 2 and 4. *)
Definition table_s3_gc : llmsset :=
  match llmsset_rehash false 144 (clear_and_mark table_s3 [2; 4]) with
  | Some d => d
  | None => table_s3
  end.

(** A table with custom callbacks registered: the default hash as
    [hash_cb], equality of both words as [equals_cb]. *)
Definition table512c : llmsset :=
  llmsset_set_custom table512 (Some rehash16_mul)
    (Some (λ a b c d, (a =? c) && (b =? d))).


(** A table with a dead callback that keeps bucket 5 only, and with
    notification requests for the buckets 2, 5 and 6. *)
Definition table_notify : llmsset :=
  llmsset_notify_ondead
    (llmsset_notify_ondead
       (llmsset_notify_ondead
          (llmsset_set_ondead table_s3 (Some (λ k, k =? 5))) 5) 6) 2.

(** * Words and bits *)

Lemma rd_wr_eq (m : gmap Z Z) i v : rd (wr m i v) i = v.
Proof. unfold rd, wr. by rewrite lookup_insert_eq. Qed.

Lemma rd_wr_ne (m : gmap Z Z) i j v : i ≠ j → rd (wr m i v) j = rd m j.
Proof. intros H. unfold rd, wr. by rewrite lookup_insert_ne. Qed.

Lemma rd_wr (m : gmap Z Z) i j v :
  rd (wr m i v) j = if decide (i = j) then v else rd m j.
Proof. case_decide; subst; [apply rd_wr_eq | by apply rd_wr_ne]. Qed.

Lemma rd_empty i : rd ∅ i = 0.
Proof. unfold rd. by rewrite lookup_empty. Qed.

Lemma cas_same (m : gmap Z Z) i new : cas m i (rd m i) new = (wr m i new, true).
Proof. unfold cas. by rewrite Z.eqb_refl. Qed.

Lemma land_63 x : Z.land x 63 = x mod 64.
Proof. change 63 with (Z.ones 6). by rewrite Z.land_ones. Qed.

Lemma bit_pos_range x : 0 <= 63 - x mod 64 < 64.
Proof. pose proof (Z.mod_pos_bound x 64). lia. Qed.

Lemma bit_mask_pow2 x : bit_mask x = 2 ^ (63 - x mod 64).
Proof.
  unfold bit_mask. rewrite land_63.
  pose proof (Z.mod_pos_bound x 64 ltac:(lia)) as H.
  rewrite Z.shiftr_div_pow2 by lia.
  change 0x8000000000000000 with (2 ^ 63).
  rewrite Z.pow_sub_r by lia. reflexivity.
Qed.

Lemma land_pow2_eqb v n : 0 <= n → (Z.land v (2 ^ n) =? 0) = negb (Z.testbit v n).
Proof.
  intros Hn. destruct (Z.testbit v n) eqn:Hb; simpl.
  - apply Z.eqb_neq. intros H0.
    assert (Ht : Z.testbit (Z.land v (2 ^ n)) n = true)
      by (rewrite Z.land_spec, Hb, Z.pow2_bits_true; auto).
    rewrite H0, Z.bits_0 in Ht. discriminate.
  - apply Z.eqb_eq, Z.bits_inj'. intros k Hk.
    rewrite Z.land_spec, Z.bits_0, Z.pow2_bits_eqb by lia.
    destruct (Z.eqb_spec n k); subst; rewrite ?Hb; apply andb_false_r || reflexivity.
Qed.

(** The test [*ptr & mask] of the C code reads the bit of the position. *)
Lemma mask_test (bm : gmap Z Z) x :
  negb (Z.land (rd bm (x / 64)) (bit_mask x) =? 0) = bit_set bm x.
Proof.
  rewrite bit_mask_pow2, land_pow2_eqb by apply bit_pos_range.
  unfold bit_set. apply negb_involutive.
Qed.

Lemma not64_bits m k : 0 <= k < 64 → Z.testbit (not64 m) k = negb (Z.testbit m k).
Proof.
  intros Hk. unfold not64. rewrite Z.lxor_spec.
  change 0xffffffffffffffff with (Z.ones 64).
  rewrite Z.ones_spec_low by lia. apply xorb_true_r.
Qed.

Lemma same_position x y : x / 64 = y / 64 → x mod 64 = y mod 64 → x = y.
Proof. intros. rewrite (Z.div_mod x 64), (Z.div_mod y 64) by lia. congruence. Qed.

(** Setting the bit of [x] with [*ptr |= mask]. *)
Lemma bit_set_lor (bm : gmap Z Z) x y :
  bit_set (wr bm (x / 64) (Z.lor (rd bm (x / 64)) (bit_mask x))) y
  = (y =? x) || bit_set bm y.
Proof.
  unfold bit_set. rewrite rd_wr. case_decide as Hw.
  - rewrite Z.lor_spec, bit_mask_pow2, Z.pow2_bits_eqb by apply bit_pos_range.
    rewrite <- Hw, orb_comm. f_equal.
    destruct (Z.eqb_spec y x) as [->|Hne]; [apply Z.eqb_refl|].
    apply Z.eqb_neq. intros H. apply Hne, same_position; [done | lia].
  - destruct (Z.eqb_spec y x) as [->|Hne]; [done | reflexivity].
Qed.

(** Clearing the bit of [x] with [*ptr &= ~mask]. *)
Lemma bit_set_land_not (bm : gmap Z Z) x y :
  bit_set (wr bm (x / 64) (Z.land (rd bm (x / 64)) (not64 (bit_mask x)))) y
  = negb (y =? x) && bit_set bm y.
Proof.
  unfold bit_set. rewrite rd_wr. case_decide as Hw.
  - rewrite Z.land_spec, not64_bits, bit_mask_pow2, Z.pow2_bits_eqb
      by apply bit_pos_range.
    rewrite <- Hw, andb_comm. f_equal. f_equal.
    destruct (Z.eqb_spec y x) as [->|Hne]; [apply Z.eqb_refl|].
    apply Z.eqb_neq. intros H. apply Hne, same_position; [done | lia].
  - destruct (Z.eqb_spec y x) as [->|Hne]; [done | reflexivity].
Qed.

(** * Marking (C6) *)

Lemma is_marked_bit dbs x : llmsset_is_marked dbs x = bit_set (bitmap2 dbs) x.
Proof. apply mask_test. Qed.

Lemma mark_set dbs x :
  bit_set (bitmap2 dbs) x = true → llmsset_mark dbs x = (dbs, false).
Proof. intros H. unfold llmsset_mark. by rewrite mask_test, H. Qed.

Lemma mark_clear dbs x :
  bit_set (bitmap2 dbs) x = false →
  llmsset_mark dbs x =
    (set_bitmap2 dbs (wr (bitmap2 dbs) (x / 64)
                        (Z.lor (rd (bitmap2 dbs) (x / 64)) (bit_mask x))), true).
Proof. intros H. unfold llmsset_mark. by rewrite mask_test, H, cas_same. Qed.

(** C6.  [llmsset_is_marked] reads the mark bit of the slot.  A call of
    [llmsset_mark] on a slot whose bit is clear returns true and sets the
    bit, leaving every other bit and every other part of the table as it
    was; a call on a slot whose bit is set (so every further call of the
    epoch) returns false and leaves the table unchanged. *)
Theorem mark_once (dbs : llmsset) (x : Z) :
  llmsset_is_marked dbs x = bit_set (bitmap2 dbs) x
  ∧ (bit_set (bitmap2 dbs) x = false →
       ∃ bm, llmsset_mark dbs x = (set_bitmap2 dbs bm, true)
             ∧ bit_set bm x = true
             ∧ (∀ y, y ≠ x → bit_set bm y = bit_set (bitmap2 dbs) y)
             ∧ llmsset_mark (set_bitmap2 dbs bm) x = (set_bitmap2 dbs bm, false))
  ∧ (bit_set (bitmap2 dbs) x = true → llmsset_mark dbs x = (dbs, false)).
Proof.
  split; [apply is_marked_bit|]. split; [|apply mark_set].
  intros Hclear. eexists. split; [by apply mark_clear|].
  assert (Hx : bit_set (wr (bitmap2 dbs) (x / 64)
                 (Z.lor (rd (bitmap2 dbs) (x / 64)) (bit_mask x))) x = true)
    by (rewrite bit_set_lor, Z.eqb_refl; reflexivity).
  split; [exact Hx|]. split.
  - intros y Hy. rewrite bit_set_lor.
    destruct (Z.eqb_spec y x); [contradiction | reflexivity].
  - by apply mark_set.
Qed.

(** * The default hash (C5, first part) *)

Lemma range_of_bits x :
  (∀ k, 64 <= k → Z.testbit x k = false) → 0 <= x < 2 ^ 64.
Proof.
  intros H. assert (Hx : x mod 2 ^ 64 = x).
  { apply Z.bits_inj'. intros k Hk. rewrite Z.testbit_mod_pow2 by lia.
    destruct (Z.ltb_spec k 64); [reflexivity | by rewrite H]. }
  rewrite <- Hx. apply Z.mod_pos_bound. lia.
Qed.

Lemma bits_of_range x k : 0 <= x < 2 ^ 64 → 64 <= k → Z.testbit x k = false.
Proof.
  intros Hx Hk. rewrite <- (Z.mod_small x (2 ^ 64)) by lia.
  apply Z.mod_pow2_bits_high. lia.
Qed.

Lemma lxor_range x y : 0 <= x < 2 ^ 64 → 0 <= y < 2 ^ 64 → 0 <= Z.lxor x y < 2 ^ 64.
Proof.
  intros Hx Hy. apply range_of_bits. intros k Hk.
  by rewrite Z.lxor_spec, !bits_of_range.
Qed.

Lemma lor_range x y : 0 <= x < 2 ^ 64 → 0 <= y < 2 ^ 64 → 0 <= Z.lor x y < 2 ^ 64.
Proof.
  intros Hx Hy. apply range_of_bits. intros k Hk.
  by rewrite Z.lor_spec, !bits_of_range.
Qed.

Lemma land_range x y : 0 <= x < 2 ^ 64 → 0 <= Z.land x y < 2 ^ 64.
Proof.
  intros Hx. apply range_of_bits. intros k Hk.
  by rewrite Z.land_spec, bits_of_range.
Qed.

Lemma wrap64_range x : 0 <= wrap64 x < 2 ^ 64.
Proof. apply Z.mod_pos_bound. lia. Qed.

Lemma wrap64_small x : 0 <= x < 2 ^ 64 → wrap64 x = x.
Proof. apply Z.mod_small. Qed.

Lemma shiftr_range x n : 0 <= x < 2 ^ 64 → 0 <= n → 0 <= Z.shiftr x n < 2 ^ 64.
Proof.
  intros Hx Hn. rewrite Z.shiftr_div_pow2 by lia.
  assert (0 < 2 ^ n) by (apply Z.pow_pos_nonneg; lia).
  split; [apply Z.div_pos; lia|].
  apply Z.le_lt_trans with x; [|lia]. apply Z.div_le_upper_bound; nia.
Qed.

(** The shifts of [rotl64] do not overlap. *)
Lemma rotl64_parts_disjoint x r :
  0 <= x < 2 ^ 64 → 0 < r < 64 →
  Z.land ((x * 2 ^ r) mod 2 ^ 64) (x / 2 ^ (64 - r)) = 0.
Proof.
  intros Hx Hr. apply Z.bits_inj'. intros k Hk.
  rewrite Z.land_spec, Z.bits_0, Z.testbit_mod_pow2 by lia.
  destruct (Z.ltb_spec k r).
  - rewrite Z.mul_pow2_bits_low by lia. by rewrite andb_false_r.
  - rewrite Z.div_pow2_bits, (bits_of_range x) by lia. apply andb_false_r.
Qed.

Lemma rotl64_rotate x r :
  0 <= x < 2 ^ 64 → 0 < r < 64 → rotl64 x r = rotate_left64 x r.
Proof.
  intros Hx Hr. unfold rotl64, rotate_left64, wrap64.
  rewrite Z.shiftl_mul_pow2, Z.shiftr_div_pow2 by lia.
  assert (Hq : x * 2 ^ r / 2 ^ 64 = x / 2 ^ (64 - r)).
  { replace (2 ^ 64) with (2 ^ (64 - r) * 2 ^ r)
      by (rewrite <- Z.pow_add_r by lia; f_equal; lia).
    apply Z.div_mul_cancel_r; apply Z.pow_nonzero; lia. }
  rewrite Hq, <- Z.lxor_lor, <- Z.add_nocarry_lxor;
    auto using rotl64_parts_disjoint.
Qed.

Lemma rotl64_range x r :
  0 <= x < 2 ^ 64 → 0 < r < 64 → 0 <= rotl64 x r < 2 ^ 64.
Proof.
  intros Hx Hr. unfold rotl64. apply lor_range; [apply wrap64_range|].
  apply shiftr_range; lia.
Qed.

(** A rotation indeed: bit [k] of the result is bit [k - r] of the word,
    counted modulo 64. *)
Lemma rotl64_bits x r k :
  0 <= x < 2 ^ 64 → 0 < r < 64 → 0 <= k < 64 →
  Z.testbit (rotl64 x r) k = Z.testbit x ((k - r) mod 64).
Proof.
  intros Hx Hr Hk. unfold rotl64, wrap64.
  rewrite Z.lor_spec, Z.shiftr_spec, Z.testbit_mod_pow2, Z.shiftl_spec by lia.
  destruct (Z.ltb_spec k 64); [|lia]. simpl.
  destruct (Z.ltb_spec k r).
  - rewrite (Z.testbit_neg_r x (k - r)) by lia. simpl.
    f_equal. replace (k - r) with (k + (64 - r) + (-1) * 64) by lia.
    rewrite Z.mod_add, Z.mod_small; lia.
  - rewrite (bits_of_range x (k + (64 - r))) by lia.
    rewrite orb_false_r, Z.mod_small; [reflexivity | lia].
Qed.

Lemma rehash16_mul_range a b seed : 0 <= rehash16_mul a b seed < 2 ^ 64.
Proof.
  unfold rehash16_mul.
  apply lxor_range; [|apply shiftr_range; [|lia]]; apply wrap64_range.
Qed.

Lemma rehash16_mul_mixer a b seed :
  0 <= a < 2 ^ 64 → 0 <= b < 2 ^ 64 → 0 <= seed < 2 ^ 64 →
  rehash16_mul a b seed = mixer seed a b.
Proof.
  intros Ha Hb Hs. unfold rehash16_mul, mixer.
  rewrite Z.shiftr_div_pow2 by lia.
  rewrite !rotl64_rotate; try lia; auto using lxor_range, wrap64_range.
Qed.

(** * Counting the marked slots (C8) *)

(** The pair of [ptr] and [mask] moves from a position to the next one. *)
Lemma mask_advance k :
  (if Z.shiftr (bit_mask k) 1 =? 0 then (k / 64 + 1, 0x8000000000000000)
   else (k / 64, Z.shiftr (bit_mask k) 1))
  = ((k + 1) / 64, bit_mask (k + 1)).
Proof.
  rewrite !bit_mask_pow2, Z.shiftr_div_pow2 by lia.
  pose proof (Z.mod_pos_bound k 64 ltac:(lia)) as Hr.
  destruct (Z.eq_dec (k mod 64) 63) as [E|E].
  - rewrite E. simpl. f_equal; [|replace ((k + 1) mod 64) with 0; [reflexivity|]];
      Z.div_mod_to_equations; lia.
  - replace ((k + 1) mod 64) with (k mod 64 + 1) by (Z.div_mod_to_equations; lia).
    replace (63 - k mod 64) with (Z.succ (63 - (k mod 64 + 1))) by lia.
    rewrite Z.pow_succ_r, Z.pow_1_r, Z.mul_comm, Z.div_mul by lia.
    assert (0 < 2 ^ (63 - (k mod 64 + 1))) by (apply Z.pow_pos_nonneg; lia).
    destruct (Z.eqb_spec (2 ^ (63 - (k mod 64 + 1))) 0); [lia|].
    f_equal. Z.div_mod_to_equations; lia.
Qed.

Lemma count_set_bounds n bm k : 0 <= count_set n bm k <= Z.of_nat n.
Proof.
  revert k. induction n as [|n IH]; intros k; simpl count_set; [lia|].
  specialize (IH (k + 1)). destruct (bit_set bm k); lia.
Qed.

Lemma count_set_app n m bm k :
  count_set (n + m) bm k = count_set n bm k + count_set m bm (k + Z.of_nat n).
Proof.
  revert k. induction n as [|n IH]; intros k.
  - cbn. by rewrite Z.add_0_r.
  - cbn [Nat.add count_set]. rewrite IH. replace (k + 1 + Z.of_nat n) with (k + Z.of_nat (S n)) by lia.
    lia.
Qed.

Lemma count_serial_spec n bm k r :
  0 <= r → r + Z.of_nat n < 2 ^ 64 →
  count_serial n bm (k / 64) (bit_mask k) r = r + count_set n bm k.
Proof.
  revert k r. induction n as [|n IH]; intros k r Hr Hn; [simpl; lia|].
  cbn [count_serial count_set]. rewrite mask_test.
  pose proof (mask_advance k) as Hadv.
  destruct (Z.shiftr (bit_mask k) 1 =? 0); injection Hadv as -> ->;
    destruct (bit_set bm k); rewrite ?wrap64_small by lia; rewrite IH; lia.
Qed.

Lemma count_marked_par_spec dbs first count :
  0 <= count < 2 ^ 64 →
  llmsset_count_marked_par dbs first count
  = count_set (Z.to_nat count) (bitmap2 dbs) first.
Proof.
  funelim (llmsset_count_marked_par dbs first count); intros Hc.
  - clear Heqcall. rewrite H, H0 by (Z.div_mod_to_equations; lia).
    replace (Z.to_nat count) with (Z.to_nat (count / 2) + Z.to_nat (count - count / 2))%nat
      by (Z.div_mod_to_equations; lia).
    rewrite count_set_app, Z2Nat.id by (Z.div_mod_to_equations; lia).
    apply wrap64_small.
    pose proof (count_set_bounds (Z.to_nat (count / 2)) (bitmap2 dbs) first).
    pose proof (count_set_bounds (Z.to_nat (count - count / 2)) (bitmap2 dbs) (first + count / 2)).
    Z.div_mod_to_equations; lia.
  - rewrite count_serial_spec; lia.
Qed.

(** C8.  The divide-and-conquer count over the whole table is the number
    of positions below [table_size] whose mark bit is set, as a serial
    count over these positions finds it. *)
Theorem count_marked_serial (dbs : llmsset) :
  0 <= table_size dbs < 2 ^ 64 →
  llmsset_count_marked dbs
  = count_set (Z.to_nat (table_size dbs)) (bitmap2 dbs) 0.
Proof. apply count_marked_par_spec. Qed.

(** * The notify sweep (C7) *)

Lemma mask_test_zero (bm : gmap Z Z) x :
  (Z.land (rd bm (x / 64)) (bit_mask x) =? 0) = negb (bit_set bm x).
Proof. rewrite <- mask_test. by rewrite negb_involutive. Qed.

Lemma same_but_bitmaps23_refl d : same_but_bitmaps23 d d.
Proof. by destruct d. Qed.

Lemma same_but_bitmaps23_trans d1 d2 d3 :
  same_but_bitmaps23 d1 d2 → same_but_bitmaps23 d2 d3 → same_but_bitmaps23 d1 d3.
Proof.
  unfold same_but_bitmaps23. destruct d1, d2, d3; cbn.
  intros [= -> -> -> -> -> -> -> -> -> -> -> ->] [= -> -> -> -> -> -> -> -> -> -> -> ->].
  reflexivity.
Qed.

Lemma notify_one_spec cb dbs k :
  same_but_bitmaps23 dbs (notify_one cb dbs k).1
  ∧ (notify_one cb dbs k).2 = (if dead_candidate dbs k then [k] else [])
  ∧ ∀ y, bits23 (notify_one cb dbs k).1 y
         = if y =? k then notify_bits cb dbs k else bits23 dbs y.
Proof.
  unfold notify_one, notify_bits, dead_candidate.
  rewrite !mask_test_zero, negb_involutive.
  destruct (bit_set (bitmap2 dbs) k) eqn:E2, (bit_set (bitmap3 dbs) k) eqn:E3;
    cbn [negb andb fst snd];
    try (split; [apply same_but_bitmaps23_refl|]; split; [done|];
         intros y; destruct (Z.eqb_spec y k) as [->|]; unfold bits23;
         by rewrite ?E2, ?E3).
  destruct (cb k); rewrite cas_same; cbn [fst snd];
    (split; [by destruct dbs|]); (split; [done|]);
    intros y; unfold bits23; cbn [bitmap2 bitmap3 set_bitmap2 set_bitmap3].
  - rewrite bit_set_lor. destruct (Z.eqb_spec y k) as [->|]; by rewrite ?E3.
  - rewrite bit_set_land_not. destruct (Z.eqb_spec y k) as [->|]; by rewrite ?E2.
Qed.

Lemma dead_candidate_bits23 d d' y :
  bits23 d y = bits23 d' y → dead_candidate d y = dead_candidate d' y.
Proof. unfold bits23, dead_candidate. by intros [= -> ->]. Qed.

Lemma notify_bits_bits23 cb d d' y :
  bits23 d y = bits23 d' y → notify_bits cb d y = notify_bits cb d' y.
Proof.
  intros H. unfold notify_bits. rewrite (dead_candidate_bits23 _ _ _ H), H.
  unfold bits23 in H. by injection H as -> ->.
Qed.

(** The serial loop over [k], ..., [k + n - 1], started in a table [dbs] that
    agrees on these positions with the table [dbs0] of reference. *)
Lemma notify_serial_spec cb n : ∀ dbs0 dbs k,
  (∀ y, k <= y < k + Z.of_nat n → bits23 dbs y = bits23 dbs0 y) →
  same_but_bitmaps23 dbs (notify_serial cb n dbs k).1
  ∧ (notify_serial cb n dbs k).2
    = filter (λ y, dead_candidate dbs0 y = true) (seqZ k (Z.of_nat n))
  ∧ ∀ y, bits23 (notify_serial cb n dbs k).1 y
         = if (k <=? y) && (y <? k + Z.of_nat n) then notify_bits cb dbs0 y
           else bits23 dbs y.
Proof.
  induction n as [|n IH]; intros dbs0 dbs k Hagree.
  - cbn. split; [apply same_but_bitmaps23_refl|]. split; [done|].
    intros y. destruct (Z.leb_spec k y), (Z.ltb_spec y (k + Z.of_nat 0)); try done; lia.
  - cbn [notify_serial].
    destruct (notify_one_spec cb dbs k) as (Hf1 & Hc1 & Hb1).
    destruct (notify_one cb dbs k) as [d1 c1]. cbn [fst snd] in *.
    specialize (IH dbs0 d1 (k + 1)) as (Hf2 & Hc2 & Hb2).
    { intros y Hy. rewrite Hb1. destruct (Z.eqb_spec y k); [lia|].
      apply Hagree. lia. }
    destruct (notify_serial cb n d1 (k + 1)) as [d2 c2]. cbn [fst snd] in *.
    split; [eauto using same_but_bitmaps23_trans|]. split.
    + rewrite seqZ_cons by lia. rewrite filter_cons.
      replace (Z.pred (Z.of_nat (S n))) with (Z.of_nat n) by lia.
      replace (Z.succ k) with (k + 1) by lia. subst c1 c2.
      rewrite (dead_candidate_bits23 dbs dbs0 k) by (apply Hagree; lia).
      case_decide as Hd; [by rewrite Hd | by destruct (dead_candidate dbs0 k)].
    + intros y. rewrite Hb2, Hb1.
      destruct (Z.eqb_spec y k) as [->|Hne].
      * destruct (Z.leb_spec (k + 1) k); [lia|]. cbn [andb].
        destruct (Z.leb_spec k k), (Z.ltb_spec k (k + Z.of_nat (S n))); try lia.
        cbn [andb]. apply notify_bits_bits23, Hagree. lia.
      * destruct (Z.leb_spec (k + 1) y), (Z.leb_spec k y),
          (Z.ltb_spec y (k + 1 + Z.of_nat n)), (Z.ltb_spec y (k + Z.of_nat (S n)));
          try lia; reflexivity.
Qed.

Lemma notify_par_spec cb dbs first count : ∀ dbs0,
  (∀ y, first <= y < first + count → bits23 dbs y = bits23 dbs0 y) →
  same_but_bitmaps23 dbs (llmsset_notify_par cb dbs first count).1
  ∧ (llmsset_notify_par cb dbs first count).2
    ≡ₚ filter (λ y, dead_candidate dbs0 y = true) (seqZ first count)
  ∧ ∀ y, bits23 (llmsset_notify_par cb dbs first count).1 y
         = if (first <=? y) && (y <? first + count) then notify_bits cb dbs0 y
           else bits23 dbs y.
Proof.
  funelim (llmsset_notify_par cb dbs first count); intros dbs0 Hagree.
  - 
    clear Heqcall Heq.
    assert (Hs : 0 <= count / 2 <= count) by (Z.div_mod_to_equations; lia).
    destruct (H dbs0) as (Hf1 & Hc1 & Hb1); [intros y Hy; apply Hagree; lia|].
    destruct (llmsset_notify_par cb dbs (first + count / 2) (count - count / 2))
      as [d1 c1]. cbn [fst snd] in *.
    destruct (H0 d1 c1 dbs0) as (Hf2 & Hc2 & Hb2).
    { intros y Hy. rewrite Hb1.
      destruct (Z.leb_spec (first + count / 2) y); [lia|]. apply Hagree. lia. }
    destruct (llmsset_notify_par cb d1 first (count / 2)) as [d2 c2].
    cbn [fst snd] in *.
    split; [eauto using same_but_bitmaps23_trans|]. split.
    + rewrite Hc1, Hc2.
      assert (seqZ first count
              = seqZ first (count / 2) ++ seqZ (first + count / 2) (count - count / 2))
        as -> by (rewrite <- seqZ_app by lia; f_equal; lia).
      rewrite filter_app. apply Permutation_app_comm.
    + intros y. rewrite Hb2, Hb1.
      destruct (Z.leb_spec first y), (Z.ltb_spec y (first + count / 2)),
        (Z.leb_spec (first + count / 2) y),
        (Z.ltb_spec y (first + count / 2 + (count - count / 2))),
        (Z.ltb_spec y (first + count)); try lia; reflexivity.
  - clear Heqcall Heq.
    destruct (notify_serial_spec cb (Z.to_nat count) dbs0 dbs first)
      as (Hf & Hc & Hb); [intros y Hy; apply Hagree; lia|].
    split; [done|]. split.
    + rewrite Hc. unfold seqZ. by rewrite Nat2Z.id.
    + intros y. rewrite Hb.
      destruct (Z.leb_spec first y), (Z.ltb_spec y (first + Z.of_nat (Z.to_nat count))),
        (Z.ltb_spec y (first + count)); try lia; reflexivity.
Qed.

(** C7.  With a callback registered, [llmsset_notify_all] hands to the
    callback exactly the positions below [table_size] whose [bitmap2] bit is
    clear and whose [bitmap3] bit is set, each of them once.  Where the
    callback answers true the [bitmap2] bit is set afterwards, where it
    answers false the [bitmap3] bit is cleared; all other bits of the two
    bitmaps and all other parts of the table are as before. *)
Theorem notify_all_spec (dbs : llmsset) (cb : Z → bool) :
  dead_cb dbs = Some cb →
  ∃ dbs' called,
    llmsset_notify_all dbs = (dbs', called)
    ∧ called ≡ₚ filter (λ k, dead_candidate dbs k = true) (seqZ 0 (table_size dbs))
    ∧ same_but_bitmaps23 dbs dbs'
    ∧ ∀ k,
        if (0 <=? k) && (k <? table_size dbs) && dead_candidate dbs k then
          if cb k
          then bit_set (bitmap2 dbs') k = true
               ∧ bit_set (bitmap3 dbs') k = bit_set (bitmap3 dbs) k
          else bit_set (bitmap3 dbs') k = false
               ∧ bit_set (bitmap2 dbs') k = bit_set (bitmap2 dbs) k
        else bits23 dbs' k = bits23 dbs k.
Proof.
  intros Hcb. unfold llmsset_notify_all. rewrite Hcb.
  destruct (notify_par_spec cb dbs 0 (table_size dbs) dbs) as (Hf & Hc & Hb); [done|].
  destruct (llmsset_notify_par cb dbs 0 (table_size dbs)) as [dbs' called].
  cbn [fst snd] in *. exists dbs', called. do 3 (split; [done|]).
  intros k. specialize (Hb k). rewrite Z.add_0_l in Hb.
  destruct ((0 <=? k) && (k <? table_size dbs)); cbn [andb]; [|done].
  unfold notify_bits in Hb. destruct (dead_candidate dbs k); [|done].
  unfold bits23 in Hb. destruct (cb k); by injection Hb as -> ->.
Qed.

(** * The allocator: where a worker without a region starts (C9) *)

Lemma next_region_after_bias w n regions :
  0 <= w < n → 0 < regions → w * regions < 2 ^ 64 →
  0 <= w * regions / n < regions
  ∧ next_region regions (wrap64 (MINUS_ONE + wrap64 (w * regions) / n))
    = w * regions / n.
Proof.
  intros Hw Hr Hm.
  assert (Hs : 0 <= w * regions / n < regions).
  { split; [apply Z.div_pos; nia|]. apply Z.div_lt_upper_bound; nia. }
  split; [exact Hs|]. unfold next_region, wrap64, MINUS_ONE.
  rewrite (Z.mod_small (w * regions)) by nia.
  rewrite Zplus_mod_idemp_l.
  replace (0xffffffffffffffff + w * regions / n + 1)
    with (w * regions / n + 1 * 2 ^ 64) by lia.
  assert (w * regions / n <= w * regions) by (apply Z.div_le_upper_bound; nia).
  rewrite Z.mod_add, Z.mod_small by lia.
  destruct (Z.leb_spec regions (w * regions / n)); [lia | reflexivity].
Qed.

(** C9, with the region count of the code.  A worker without a region
    examines first the ownership bit of region
    [(worker * (table_size / 512)) / workers]: when that region is free the
    worker claims it, and when it is taken the search goes on behind it. *)
Theorem fresh_worker_start_region (me : lace_worker) (dbs : llmsset) (fuel : nat) :
  get_my_region dbs me = MINUS_ONE →
  0 <= worker me < lace_workers me →
  512 <= table_size dbs →
  worker me * (table_size dbs / 512) < 2 ^ 64 →
  let regions := table_size dbs / 512 in
  let start := worker me * regions / lace_workers me in
  0 <= start < regions
  ∧ claim_data_bucket (S fuel) me dbs
    = if bit_set (bitmap1 dbs) start then
        match claim_region (bitmap1 dbs) regions (Nat.pred (Z.to_nat regions)) start with
        | (None, r) => Some (put_my_region dbs me r, MINUS_ONE)
        | (Some bm1, r) =>
            claim_data_bucket_loop fuel me (put_my_region (set_bitmap1 dbs bm1) me r) r
        end
      else
        let bm1 := wr (bitmap1 dbs) (start / 64)
                     (Z.lor (rd (bitmap1 dbs) (start / 64)) (bit_mask start)) in
        claim_data_bucket_loop fuel me (put_my_region (set_bitmap1 dbs bm1) me start) start.
Proof.
  intros Hfresh Hw Hsize Hmul regions start.
  assert (Hregions : 0 < regions) by (subst regions; Z.div_mod_to_equations; lia).
  destruct (next_region_after_bias (worker me) (lace_workers me) regions)
    as [Hstart Hnext]; [done..|].
  split; [exact Hstart|].
  unfold claim_data_bucket. rewrite Hfresh. cbn [claim_data_bucket_loop].
  change (MINUS_ONE =? MINUS_ONE) with true. cbn [negb].
  change (table_size dbs / (64 * 8)) with regions.
  destruct (Z.to_nat regions) as [|count] eqn:Hcount; [lia|].
  cbn [claim_region Nat.pred]. rewrite Hnext. fold start.
  rewrite mask_test. destruct (bit_set (bitmap1 dbs) start); cbn [negb].
  - reflexivity.
  - by rewrite cas_same.
Qed.

(** * The allocator: what a claim does *)

Lemma words_ok_rd bm w : words_ok bm → 0 <= rd bm w < 2 ^ 64.
Proof.
  intros H. unfold rd. destruct (bm !! w) as [v|] eqn:E; cbn; [|lia].
  exact (H w v E).
Qed.

Lemma claim_frame_refl d : claim_frame d d.
Proof. by destruct d. Qed.

Lemma claim_frame_trans d1 d2 d3 :
  claim_frame d1 d2 → claim_frame d2 d3 → claim_frame d1 d3.
Proof.
  unfold claim_frame. destruct d1, d2, d3; cbn.
  intros [= -> -> -> -> -> -> -> -> -> -> ->] [= -> -> -> -> -> -> -> -> -> -> ->].
  reflexivity.
Qed.

Lemma claim_frame_table d d' : claim_frame d d' → table d' = table d.
Proof. by intros ->. Qed.

Lemma claim_frame_data d d' : claim_frame d d' → data d' = data d.
Proof. by intros ->. Qed.

Lemma claim_frame_hash_cb d d' : claim_frame d d' → hash_cb d' = hash_cb d.
Proof. by intros ->. Qed.

Lemma find_free_spec bm ptr i0 n i j :
  find_free bm ptr i0 n = Some (i, j) →
  0 <= i - i0 < Z.of_nat n
  ∧ (∀ t, 0 <= t < i - i0 → rd bm (ptr + t) = 0xffffffffffffffff)
  ∧ rd bm (ptr + (i - i0)) ≠ 0xffffffffffffffff
  ∧ j = clzl (not64 (rd bm (ptr + (i - i0)))).
Proof.
  revert ptr i0. induction n as [|n IH]; intros ptr i0; cbn [find_free]; [done|].
  destruct (Z.eqb_spec (rd bm ptr) 0xffffffffffffffff) as [E|E]; cbn [negb].
  - intros H. apply IH in H as (Hi & Hfull & Hv & Hj).
    replace (ptr + 1 + (i - (i0 + 1))) with (ptr + (i - i0)) in * by lia.
    split; [lia|]. split; [|done].
    intros t Ht. destruct (Z.eq_dec t 0) as [->|]; [by rewrite Z.add_0_r|].
    replace (ptr + t) with (ptr + 1 + (t - 1)) by lia. apply Hfull. lia.
  - intros [= <- <-]. rewrite Z.sub_diag, Z.add_0_r.
    split; [lia|]. split; [intros; lia|done].
Qed.

(** The scan reads the words of the region and nothing else. *)
Lemma find_free_ext bm bm' ptr i0 n :
  (∀ t, 0 <= t < Z.of_nat n → rd bm' (ptr + t) = rd bm (ptr + t)) →
  find_free bm' ptr i0 n = find_free bm ptr i0 n.
Proof.
  revert ptr i0. induction n as [|n IH]; intros ptr i0 H; cbn [find_free]; [done|].
  assert (E : rd bm' ptr = rd bm ptr)
    by (rewrite <- (Z.add_0_r ptr); apply H; lia).
  rewrite E, IH; [done|]. intros t Ht.
  replace (ptr + 1 + t) with (ptr + (t + 1)) by lia. apply H. lia.
Qed.

Lemma next_region_range regions r : 0 <= next_region regions r < Z.max 1 regions.
Proof.
  unfold next_region. pose proof (wrap64_range (r + 1)).
  destruct (Z.leb_spec regions (wrap64 (r + 1))); lia.
Qed.

Lemma claim_region_range bm1 regions count r0 bm1' r :
  claim_region bm1 regions count r0 = (Some bm1', r) →
  0 <= r < Z.max 1 regions.
Proof.
  revert r0. induction count as [|count IH]; intros r0; cbn [claim_region]; [done|].
  destruct (negb _); [apply IH|]. intros [= _ <-]. apply next_region_range.
Qed.

(** Where a search leaves [my_region]: where it was, when there is no
    region to look at, and on a region of the table otherwise. *)
Lemma claim_region_last bm1 regions count r0 o r :
  claim_region bm1 regions count r0 = (o, r) →
  (count = 0%nat ∧ r = r0) ∨ 0 <= r < Z.max 1 regions.
Proof.
  revert r0. induction count as [|count IH]; intros r0; cbn [claim_region].
  - intros [= _ <-]. by left.
  - destruct (negb _).
    + intros H. right. destruct (IH _ H) as [[_ ->]|]; [apply next_region_range | done].
    + intros [= _ <-]. right. apply next_region_range.
Qed.

(** The two ways in which the loop of [claim_data_bucket] ends. *)
Lemma claim_loop_inv fuel me : ∀ dbs r0 d' c,
  claim_data_bucket_loop fuel me dbs r0 = Some (d', c) →
  get_my_region dbs me = r0 →
  claim_frame dbs d'
  ∧ ((c = MINUS_ONE ∧ bitmap2 d' = bitmap2 dbs)
     ∨ ∃ r i j,
         r ≠ MINUS_ONE
         ∧ (r = r0 ∨ 0 <= r < Z.max 1 (table_size dbs / 512))
         ∧ get_my_region d' me = r
         ∧ find_free (bitmap2 dbs) (r * 8) 0 8 = Some (i, j)
         ∧ c = wrap64 ((8 * r + i) * 64 + j)
         ∧ bitmap2 d' = wr (bitmap2 dbs) (r * 8 + i)
                          (Z.lor (rd (bitmap2 dbs) (r * 8 + i))
                                 (Z.shiftr 0x8000000000000000 j))).
Proof.
  induction fuel as [|fuel IH]; intros dbs r0 d' c; [done|].
  cbn [claim_data_bucket_loop]. intros Hrun Hreg.
  assert (Hsearch : ∀ r1,
    match claim_region (bitmap1 dbs) (table_size dbs / (64 * 8))
            (Z.to_nat (table_size dbs / (64 * 8))) r1 with
    | (Some bm1, r) =>
        claim_data_bucket_loop fuel me (put_my_region (set_bitmap1 dbs bm1) me r) r
    | (None, r) => Some (put_my_region dbs me r, MINUS_ONE)
    end = Some (d', c) →
    claim_frame dbs d'
    ∧ ((c = MINUS_ONE ∧ bitmap2 d' = bitmap2 dbs)
       ∨ ∃ r i j,
           r ≠ MINUS_ONE
           ∧ (r = r0 ∨ 0 <= r < Z.max 1 (table_size dbs / 512))
           ∧ get_my_region d' me = r
           ∧ find_free (bitmap2 dbs) (r * 8) 0 8 = Some (i, j)
           ∧ c = wrap64 ((8 * r + i) * 64 + j)
           ∧ bitmap2 d' = wr (bitmap2 dbs) (r * 8 + i)
                            (Z.lor (rd (bitmap2 dbs) (r * 8 + i))
                                   (Z.shiftr 0x8000000000000000 j)))).
  { intros r1 H.
    destruct (claim_region _ _ _ r1) as [[bm1|] r] eqn:Hcr.
    - apply claim_region_range in Hcr.
      apply IH in H as [Hf Hres];
        [|unfold get_my_region, put_my_region; cbn; by rewrite lookup_insert_eq].
      split.
      { eapply claim_frame_trans; [|exact Hf]. by destruct dbs. }
      destruct Hres as [[-> Hbm]|(r' & i & j & Hne & Hor & Hget & Hff & Hc & Hbm)].
      + left. done.
      + right. exists r', i, j. cbn in Hor, Hff, Hbm.
        split; [done|]. split; [|done].
        right. destruct Hor as [->|Hor]; [exact Hcr | exact Hor].
    - injection H as <- <-. split; [by destruct dbs|]. by left. }
  destruct (Z.eqb_spec r0 MINUS_ONE) as [E|E]; cbn [negb] in Hrun.
  - by apply Hsearch in Hrun.
  - destruct (find_free (bitmap2 dbs) (r0 * 8) 0 8) as [[i j]|] eqn:Hff.
    + injection Hrun as <- <-. split; [by destruct dbs|].
      right. exists r0, i, j. cbn. by repeat split; auto.
    + by apply Hsearch in Hrun.
Qed.

(** ** A successful claim *)

Lemma not64_pos v : 0 <= v < 2 ^ 64 → v ≠ 0xffffffffffffffff → 0 < not64 v < 2 ^ 64.
Proof.
  intros Hv Hne. assert (Hr : 0 <= not64 v < 2 ^ 64) by (by apply lxor_range).
  assert (not64 v ≠ 0); [|lia].
  unfold not64. intros H. by apply Z.lxor_eq in H.
Qed.

Lemma clzl_not64 v :
  0 <= v < 2 ^ 64 → v ≠ 0xffffffffffffffff →
  0 <= clzl (not64 v) < 64 ∧ Z.testbit v (63 - clzl (not64 v)) = false.
Proof.
  intros Hv Hne. pose proof (not64_pos v Hv Hne) as Hn.
  assert (Hl : 0 <= Z.log2 (not64 v) < 64).
  { split; [apply Z.log2_nonneg|]. apply Z.log2_lt_pow2; lia. }
  unfold clzl. split; [lia|].
  replace (63 - (63 - Z.log2 (not64 v))) with (Z.log2 (not64 v)) by lia.
  pose proof (Z.bit_log2 (not64 v) ltac:(lia)) as Hb.
  rewrite not64_bits in Hb by lia. by apply negb_true_iff.
Qed.

Lemma shiftr_top j : 0 <= j < 64 → Z.shiftr 0x8000000000000000 j = 2 ^ (63 - j).
Proof.
  intros Hj. rewrite Z.shiftr_div_pow2 by lia.
  change 0x8000000000000000 with (2 ^ 63). by rewrite Z.pow_sub_r by lia.
Qed.

Lemma lor_land_not_cancel v k :
  0 <= v < 2 ^ 64 → 0 <= k < 64 → Z.testbit v k = false →
  Z.land (Z.lor v (2 ^ k)) (not64 (2 ^ k)) = v.
Proof.
  intros Hv Hk Hb. apply Z.bits_inj'. intros n Hn.
  rewrite Z.land_spec, Z.lor_spec. destruct (Z.ltb_spec n 64).
  - rewrite not64_bits, Z.pow2_bits_eqb by lia.
    destruct (Z.eqb_spec k n) as [->|]; [by rewrite Hb|].
    by rewrite orb_false_r, andb_true_r.
  - rewrite (bits_of_range v) by lia. unfold not64. rewrite Z.lxor_spec.
    rewrite Z.pow2_bits_eqb by lia. change 0xffffffffffffffff with (Z.ones 64).
    rewrite Z.ones_spec_high by lia.
    destruct (Z.eqb_spec k n); [lia|]. reflexivity.
Qed.

(** The shape of a claim that hands out a bucket: the bucket [c] lies in the
    region that the worker owns afterwards, its bit was clear and is the
    first clear one of the region, and the claim has set it. *)
Lemma claim_success cfuel me dbs d1 c :
  words_ok (bitmap2 dbs) → 0 <= table_size dbs < 2 ^ 64 → region_ok dbs me →
  claim_data_bucket cfuel me dbs = Some (d1, c) → c ≠ MINUS_ONE →
  claim_frame dbs d1
  ∧ 0 <= c < 2 ^ 64
  ∧ bit_set (bitmap2 dbs) c = false
  ∧ bitmap2 d1 = wr (bitmap2 dbs) (c / 64)
                   (Z.lor (rd (bitmap2 dbs) (c / 64)) (bit_mask c))
  ∧ get_my_region d1 me ≠ MINUS_ONE
  ∧ 0 <= get_my_region d1 me < 2 ^ 55
  ∧ c / 512 = get_my_region d1 me
  ∧ find_free (bitmap2 dbs) (get_my_region d1 me * 8) 0 8
    = Some (c / 64 - get_my_region d1 me * 8, c mod 64)
  ∧ (get_my_region d1 me = get_my_region dbs me
     ∨ 0 <= get_my_region d1 me < Z.max 1 (table_size dbs / 512)).
Proof.
  intros Hw Hts Hreg Hc Hne. unfold claim_data_bucket in Hc.
  apply claim_loop_inv in Hc as [Hf Hres]; [|done].
  split; [exact Hf|].
  destruct Hres as [[-> _]|(r & i & j & Hr & Hor & Hget & Hff & -> & Hbm)]; [done|].
  assert (Hrr : 0 <= r < 2 ^ 55).
  { destruct Hor as [->|Hor]; [by destruct Hreg|].
    assert (table_size dbs / 512 < 2 ^ 55) by (Z.div_mod_to_equations; lia). lia. }
  pose proof (find_free_spec _ _ _ _ _ _ Hff) as (Hi & _ & Hv & Hj).
  rewrite Z.sub_0_r in *. change (Z.of_nat 8) with 8 in Hi.
  destruct (clzl_not64 (rd (bitmap2 dbs) (r * 8 + i))) as [Hjr Hbit];
    [by apply words_ok_rd | done |]. rewrite <- Hj in Hjr, Hbit.
  rewrite wrap64_small by lia.
  assert (Hq : ((8 * r + i) * 64 + j) / 64 = r * 8 + i)
    by (Z.div_mod_to_equations; lia).
  assert (Hm : ((8 * r + i) * 64 + j) mod 64 = j)
    by (Z.div_mod_to_equations; lia).
  rewrite Hget, Hq, Hm. split; [lia|].
  split; [unfold bit_set; by rewrite Hq, Hm|].
  split; [by rewrite Hbm, bit_mask_pow2, Hm, shiftr_top|].
  split; [done|]. split; [done|].
  split; [Z.div_mod_to_equations; lia|].
  split; [|exact Hor].
  rewrite Hff. repeat f_equal. lia.
Qed.

(** A worker with a region takes the first free bucket of it. *)
Lemma claim_in_region n me d i j :
  get_my_region d me ≠ MINUS_ONE →
  find_free (bitmap2 d) (get_my_region d me * 8) 0 8 = Some (i, j) →
  claim_data_bucket (S n) me d
  = Some (set_bitmap2 d
            (wr (bitmap2 d) (get_my_region d me * 8 + i)
               (Z.lor (rd (bitmap2 d) (get_my_region d me * 8 + i))
                      (Z.shiftr 0x8000000000000000 j))),
          wrap64 ((8 * get_my_region d me + i) * 64 + j)).
Proof.
  intros Hne Hff. unfold claim_data_bucket. cbn [claim_data_bucket_loop].
  destruct (Z.eqb_spec (get_my_region d me) MINUS_ONE); [done|].
  cbn [negb]. by rewrite Hff.
Qed.

(** * Directory entries *)

Lemma bits_above x n k : 0 <= x < 2 ^ n → 0 <= n <= k → Z.testbit x k = false.
Proof.
  intros Hx Hk. rewrite <- (Z.mod_small x (2 ^ n)) by lia.
  apply Z.mod_pow2_bits_high. lia.
Qed.

Lemma mask_index_bits k : 0 <= k → Z.testbit MASK_INDEX k = (k <? 44).
Proof.
  intros Hk. change MASK_INDEX with (Z.ones 44).
  destruct (Z.ltb_spec k 44);
    [apply Z.ones_spec_low | apply Z.ones_spec_high]; lia.
Qed.

Lemma mask_hash_bits k : 0 <= k → Z.testbit MASK_HASH k = (44 <=? k) && (k <? 64).
Proof.
  intros Hk. change MASK_HASH with (Z.shiftl (Z.ones 20) 44).
  rewrite Z.shiftl_spec by lia.
  destruct (Z.leb_spec 44 k), (Z.ltb_spec k 64); cbn [andb];
    [apply Z.ones_spec_low | apply Z.ones_spec_high | apply Z.testbit_neg_r ..]; lia.
Qed.

Lemma land_mask_index v : Z.land v MASK_INDEX = slot_index v.
Proof. change MASK_INDEX with (Z.ones 44). by rewrite Z.land_ones. Qed.

Lemma land_mask_hash v :
  0 <= v < 2 ^ 64 → Z.land v MASK_HASH = slot_tag v * 2 ^ 44.
Proof.
  intros Hv. unfold slot_tag. apply Z.bits_inj'. intros k Hk.
  rewrite Z.land_spec, mask_hash_bits by lia.
  destruct (Z.leb_spec 44 k).
  - rewrite Z.mul_pow2_bits, Z.div_pow2_bits by lia.
    replace (k - 44 + 44) with k by lia.
    destruct (Z.ltb_spec k 64); [apply andb_true_r|].
    by rewrite (bits_of_range v).
  - rewrite Z.mul_pow2_bits_low by lia. apply andb_false_r.
Qed.

Lemma same_tag v h :
  0 <= v < 2 ^ 64 → 0 <= h < 2 ^ 64 →
  Z.land h MASK_HASH = Z.land v MASK_HASH ↔ slot_tag v = slot_tag h.
Proof. intros Hv Hh. rewrite !land_mask_hash by done. lia. Qed.

(** The word [hash | cidx] that a lookup publishes. *)
Lemma entry_fields h c :
  0 <= h < 2 ^ 64 → 0 <= c < 2 ^ 44 →
  0 <= Z.lor (Z.land h MASK_HASH) c < 2 ^ 64
  ∧ slot_tag (Z.lor (Z.land h MASK_HASH) c) = slot_tag h
  ∧ slot_index (Z.lor (Z.land h MASK_HASH) c) = c.
Proof.
  intros Hh Hc.
  assert (Hr : 0 <= Z.lor (Z.land h MASK_HASH) c < 2 ^ 64)
    by (apply lor_range; [by apply land_range | lia]).
  split; [exact Hr|]. split.
  - unfold slot_tag. rewrite <- !Z.shiftr_div_pow2 by lia.
    rewrite Z.shiftr_lor. rewrite (Z.shiftr_div_pow2 c), Z.div_small, Z.lor_0_r by lia.
    apply Z.bits_inj'. intros k Hk.
    rewrite !Z.shiftr_spec, Z.land_spec, mask_hash_bits by lia.
    destruct (Z.leb_spec 44 (k + 44)); [|lia]. cbn [andb].
    destruct (Z.ltb_spec (k + 44) 64); [apply andb_true_r|].
    by rewrite (bits_of_range h).
  - rewrite <- land_mask_index. apply Z.bits_inj'. intros k Hk.
    rewrite Z.land_spec, Z.lor_spec, Z.land_spec, mask_index_bits, mask_hash_bits by lia.
    destruct (Z.ltb_spec k 44).
    + destruct (Z.leb_spec 44 k); [lia|]. cbn [andb].
      by rewrite andb_false_r, andb_true_r.
    + rewrite (bits_above c 44) by lia. by rewrite !andb_false_r.
Qed.

Lemma entry_nonzero h c : 0 <= h → 0 < c → Z.lor (Z.land h MASK_HASH) c ≠ 0.
Proof.
  intros Hh Hc H. apply Z.lor_eq_0_iff in H as [_ ->]. lia.
Qed.

(** * The probing loops *)

Section Properties.

Variable LLMSSET_MASK : bool.

Lemma claim_data_bucket_frame cfuel me dbs d1 c :
  claim_data_bucket cfuel me dbs = Some (d1, c) → claim_frame dbs d1.
Proof. intros H. by apply claim_loop_inv in H as [? _]. Qed.

(** In an empty slot the lookup claims a bucket and publishes it: the [cas]
    cannot fail. *)
Lemma lookup2_empty_spec cfuel me dbs a b custom hash slot :
  rd (table dbs) slot = 0 →
  lookup2_empty cfuel me dbs a b custom hash slot 0
  = match claim_data_bucket cfuel me dbs with
    | None => None
    | Some (d1, c) =>
        if c =? MINUS_ONE then Some (Ret (d1, 0, None))
        else Some (Ret (published d1 a b custom hash slot c, c, Some true))
    end.
Proof.
  intros Hv. unfold lookup2_empty. cbn [Z.eqb].
  destruct (claim_data_bucket cfuel me dbs) as [[d1 c]|] eqn:Hc; [|done].
  destruct (c =? MINUS_ONE); [done|].
  apply claim_data_bucket_frame, claim_frame_table in Hc.
  unfold cas. cbn [table set_data].
  replace (rd (table d1) slot) with 0 by (by rewrite Hc). reflexivity.
Qed.

(** One turn of the loop of [llmsset_lookup2], before a bucket is claimed. *)
Lemma lookup2_loop_step cfuel fuel me dbs a b custom hash p :
  lookup2_loop LLMSSET_MASK cfuel (S fuel) me dbs a b custom hash 0 p
  = if rd (table dbs) (p_idx p) =? 0 then
      match claim_data_bucket cfuel me dbs with
      | None => None
      | Some (d1, c) =>
          if c =? MINUS_ONE then Some (d1, 0, None)
          else Some (published d1 a b custom hash (p_idx p) c, c, Some true)
      end
    else
      match lookup2_match dbs a b custom hash 0 (rd (table dbs) (p_idx p)) with
      | None => None
      | Some (Some r) => Some r
      | Some None =>
          match probe_next LLMSSET_MASK dbs custom a b p with
          | None => None
          | Some None => Some (dbs, 0, None)
          | Some (Some q) =>
              lookup2_loop LLMSSET_MASK cfuel fuel me dbs a b custom hash 0 q
          end
      end.
Proof.
  cbn [lookup2_loop].
  destruct (Z.eqb_spec (rd (table dbs) (p_idx p)) 0) as [Hv|Hv].
  - rewrite lookup2_empty_spec by done.
    destruct (claim_data_bucket cfuel me dbs) as [[d1 c]|]; [|done].
    by destruct (c =? MINUS_ONE).
  - reflexivity.
Qed.

Lemma lookup2_match_found dbs a b custom hash v r :
  lookup2_match dbs a b custom hash 0 v = Some (Some r) →
  hash = Z.land v MASK_HASH
  ∧ payload_equal dbs custom a b
      (rd (data dbs) (2 * Z.land v MASK_INDEX))
      (rd (data dbs) (2 * Z.land v MASK_INDEX + 1)) = Some true
  ∧ r = (dbs, Z.land v MASK_INDEX, Some false).
Proof.
  unfold lookup2_match. destruct (Z.eqb_spec hash (Z.land v MASK_HASH)); [|done].
  destruct (payload_equal _ _ _ _ _ _) as [[|]|]; [|done..].
  cbn. by intros [= <-].
Qed.

Lemma lookup2_match_intro dbs a b custom hash v :
  hash = Z.land v MASK_HASH →
  payload_equal dbs custom a b
    (rd (data dbs) (2 * Z.land v MASK_INDEX))
    (rd (data dbs) (2 * Z.land v MASK_INDEX + 1)) = Some true →
  lookup2_match dbs a b custom hash 0 v
  = Some (Some (dbs, Z.land v MASK_INDEX, Some false)).
Proof.
  intros -> He. unfold lookup2_match. by rewrite Z.eqb_refl, He.
Qed.

Lemma passes_shift dbs a b custom hash p q n :
  probe_next LLMSSET_MASK dbs custom a b p = Some (Some q) →
  passes LLMSSET_MASK dbs a b custom hash p (S n) →
  passes LLMSSET_MASK dbs a b custom hash q n.
Proof.
  intros Hn Hp m Hm. destruct (Hp (S m)) as (q' & Hq' & Hs); [lia|].
  cbn [probe_nth] in Hq'. rewrite Hn in Hq'. eauto.
Qed.

Lemma passes_cons dbs a b custom hash p q n :
  slot_passed dbs a b custom hash p →
  probe_next LLMSSET_MASK dbs custom a b p = Some (Some q) →
  passes LLMSSET_MASK dbs a b custom hash q n →
  passes LLMSSET_MASK dbs a b custom hash p (S n).
Proof.
  intros Hs Hn Hp [|m] Hm; [by exists p|].
  destruct (Hp m) as (q' & Hq' & Hs'); [lia|].
  exists q'. cbn [probe_nth]. by rewrite Hn.
Qed.

(** Every result of the loop is reached along the probe sequence, over
    slots that were passed, and ends in one of the four ways. *)
Lemma lookup2_loop_inv cfuel fuel me dbs a b custom hash : ∀ p r,
  lookup2_loop LLMSSET_MASK cfuel fuel me dbs a b custom hash 0 p = Some r →
  ∃ n q, (n < fuel)%nat
    ∧ probe_nth LLMSSET_MASK dbs custom a b n p = Some q
    ∧ passes LLMSSET_MASK dbs a b custom hash p n
    ∧ lookup_end LLMSSET_MASK cfuel me dbs a b custom hash q r.
Proof.
  induction fuel as [|fuel IH]; intros p r; [done|].
  rewrite lookup2_loop_step.
  destruct (Z.eqb_spec (rd (table dbs) (p_idx p)) 0) as [Hv|Hv].
  - destruct (claim_data_bucket cfuel me dbs) as [[d1 c]|] eqn:Hc; [|done].
    destruct (Z.eqb_spec c MINUS_ONE) as [->|Hne]; intros [= <-];
      exists 0%nat, p; (split; [lia|]); (split; [done|]);
      (split; [intros m Hm; lia|]).
    + by apply end_no_bucket.
    + by apply end_created.
  - destruct (lookup2_match dbs a b custom hash 0 _) as [[r'|]|] eqn:Hm; [| |done].
    + intros [= <-]. apply lookup2_match_found in Hm as (Hh & He & ->).
      exists 0%nat, p. split; [lia|]. split; [done|].
      split; [intros m Hm; lia|]. by apply end_found.
    + destruct (probe_next LLMSSET_MASK dbs custom a b p) as [[q|]|] eqn:Hn; [| |done].
      * intros Hrun. apply IH in Hrun as (n & q' & Hlt & Hnth & Hp & Hend).
        exists (S n), q'. split; [lia|]. split; [cbn; by rewrite Hn|].
        split; [|done]. by eapply passes_cons.
      * intros [= <-]. exists 0%nat, p. split; [lia|]. split; [done|].
        split; [intros m Hm'; lia|]. by apply end_exhausted.
Qed.

(** Conversely, a probe sequence whose slots are passed and which ends in
    one of the four ways is the run of the loop. *)
Lemma lookup2_loop_run cfuel me dbs a b custom hash n : ∀ fuel p q r,
  (n < fuel)%nat →
  probe_nth LLMSSET_MASK dbs custom a b n p = Some q →
  passes LLMSSET_MASK dbs a b custom hash p n →
  lookup_end LLMSSET_MASK cfuel me dbs a b custom hash q r →
  lookup2_loop LLMSSET_MASK cfuel fuel me dbs a b custom hash 0 p = Some r.
Proof.
  induction n as [|n IH]; intros [|fuel] p q r Hlt Hnth Hp Hend; try lia;
    rewrite lookup2_loop_step.
  - injection Hnth as ->. destruct Hend as [d1 c Hv Hc Hne|d1 Hv Hc|Hv Hh He|[Hv Hm] Hn].
    + rewrite Hv, Hc. cbn [Z.eqb]. by destruct (Z.eqb_spec c MINUS_ONE).
    + by rewrite Hv, Hc.
    + destruct (Z.eqb_spec (rd (table dbs) (p_idx q)) 0); [done|].
      by rewrite lookup2_match_intro.
    + destruct (Z.eqb_spec (rd (table dbs) (p_idx q)) 0); [done|].
      by rewrite Hm, Hn.
  - destruct (Hp 0%nat) as (p' & [= <-] & Hv & Hm); [lia|].
    destruct (Z.eqb_spec (rd (table dbs) (p_idx p)) 0); [done|]. rewrite Hm.
    cbn [probe_nth] in Hnth.
    destruct (probe_next LLMSSET_MASK dbs custom a b p) as [[p1|]|] eqn:Hn; [|done..].
    eapply IH; [lia | done | by eapply passes_shift | done].
Qed.

(** * Lookups that create an entry while a hash callback is registered (C10) *)

Lemma lookup_created_inv fuel me dbs a b d' idx :
  llmsset_lookup LLMSSET_MASK fuel me dbs a b = Some (d', idx, Some true) →
  ∃ d1 slot,
    claim_data_bucket fuel me dbs = Some (d1, idx)
    ∧ idx ≠ MINUS_ONE
    ∧ rd (table dbs) slot = 0
    ∧ d' = published d1 a b false
             (Z.land (rehash16_mul a b HASH_SEED) MASK_HASH) slot idx.
Proof.
  unfold llmsset_lookup, llmsset_lookup2, probe_first. cbn [next_hash p_hash_rehash].
  intros H. apply lookup2_loop_inv in H as (n & q & _ & _ & _ & Hend).
  inversion Hend; subst. by exists d1, (p_idx q).
Qed.

(** C10.  While a hash callback is registered, a call of [llmsset_lookup]
    that creates an entry leaves the [bitmap2] bit of the index it returns
    clear: [llmsset_is_marked] is false for it, and the next claim of the
    same worker hands out the same bucket again. *)
Theorem default_lookup_clears_occupancy (me : lace_worker) (dbs : llmsset)
    (a b : Z) (fuel : nat) (d' : llmsset) (idx : Z) (h : Z → Z → Z → Z) :
  hash_cb dbs = Some h →
  words_ok (bitmap2 dbs) → 0 <= table_size dbs < 2 ^ 64 → region_ok dbs me →
  llmsset_lookup LLMSSET_MASK fuel me dbs a b = Some (d', idx, Some true) →
  llmsset_is_marked d' idx = false
  ∧ ∃ d'', ∀ n, claim_data_bucket (S n) me d' = Some (d'', idx).
Proof.
  intros Hcb Hw Hts Hreg Hrun.
  apply lookup_created_inv in Hrun as (d1 & slot & Hc & Hne & _ & ->).
  destruct (claim_success _ _ _ _ _ Hw Hts Hreg Hc Hne)
    as (Hf & Hidx & Hclear & Hbm & Hr & Hrr & Hq & Hff & _).
  unfold published, has_hash_cb. cbn [orb set_table set_data hash_cb].
  rewrite (claim_frame_hash_cb _ _ Hf), Hcb. unfold set_custom_bucket.
  cbn [bitmap2 set_table set_data].
  set (bm := wr (bitmap2 d1) (idx / 64)
               (Z.land (rd (bitmap2 d1) (idx / 64)) (not64 (bit_mask idx)))).
  split.
  { rewrite is_marked_bit. cbn [bitmap2 set_bitmap2]. subst bm.
    by rewrite bit_set_land_not, Z.eqb_refl. }
  assert (Hsame : ∀ w, rd bm w = rd (bitmap2 dbs) w).
  { intros w. subst bm. rewrite Hbm.
    destruct (decide (idx / 64 = w)) as [<-|E]; [|by rewrite !rd_wr_ne].
    rewrite !rd_wr_eq, bit_mask_pow2. apply lor_land_not_cancel.
    - by apply words_ok_rd.
    - apply bit_pos_range.
    - exact Hclear. }
  eexists. intros n.
  rewrite (claim_in_region n me _ (idx / 64 - get_my_region d1 me * 8) (idx mod 64)).
  - cbn [bitmap2 set_bitmap2]. f_equal. f_equal.
    change (get_my_region (set_bitmap2 _ bm) me) with (get_my_region d1 me).
    rewrite <- Hq. rewrite wrap64_small by (Z.div_mod_to_equations; lia).
    Z.div_mod_to_equations; lia.
  - exact Hr.
  - cbn [bitmap2 set_bitmap2].
    change (get_my_region (set_bitmap2 _ bm) me) with (get_my_region d1 me).
    rewrite <- Hff. apply find_free_ext. intros; apply Hsame.
Qed.

(** * The default hash in a lookup (C5) *)

Lemma published_table d1 a b custom hash slot c :
  table (published d1 a b custom hash slot c) = wr (table d1) slot (Z.lor hash c).
Proof.
  unfold published, set_custom_bucket.
  by destruct (custom || _), custom.
Qed.

Lemma llmsset_lookup_unfold fuel me dbs a b :
  llmsset_lookup LLMSSET_MASK fuel me dbs a b
  = lookup2_loop LLMSSET_MASK fuel fuel me dbs a b false
      (Z.land (rehash16_mul a b HASH_SEED) MASK_HASH) 0
      (mk_probe (rehash16_mul a b HASH_SEED)
         (start_index LLMSSET_MASK dbs (rehash16_mul a b HASH_SEED))
         (start_index LLMSSET_MASK dbs (rehash16_mul a b HASH_SEED)) 0).
Proof. reflexivity. Qed.

(** C5.  The hash of [llmsset_lookup] is the mixer of the specification,
    started with the seed 14695981039346656037.  The lookup goes first to
    the slot [h mod table_size] (or [h AND (table_size - 1)] in mask mode):
    when that slot is empty the new entry is published there, with the top
    20 bits of [h] as its tag, and when the slot holds an entry with this
    tag and the payload, the lookup returns the index of that entry. *)
Theorem default_hash_tag_and_start (me : lace_worker) (dbs : llmsset)
    (a b : Z) (n : nat) :
  0 <= a < 2 ^ 64 → 0 <= b < 2 ^ 64 →
  mask dbs = table_size dbs - 1 →
  let h := mixer HASH_SEED a b in
  let start := if LLMSSET_MASK then Z.land h (table_size dbs - 1)
               else h mod table_size dbs in
  rehash16_mul a b HASH_SEED = h
  ∧ (∀ d1 c,
       rd (table dbs) start = 0 →
       claim_data_bucket (S n) me dbs = Some (d1, c) → 0 <= c < 2 ^ 44 →
       ∃ d', llmsset_lookup LLMSSET_MASK (S n) me dbs a b = Some (d', c, Some true)
             ∧ slot_tag (rd (table d') start) = slot_tag h
             ∧ slot_index (rd (table d') start) = c)
  ∧ (∀ v,
       rd (table dbs) start = v → 0 < v < 2 ^ 64 →
       slot_tag v = slot_tag h →
       rd (data dbs) (2 * slot_index v) = a →
       rd (data dbs) (2 * slot_index v + 1) = b →
       llmsset_lookup LLMSSET_MASK (S n) me dbs a b
       = Some (dbs, slot_index v, Some false)).
Proof.
  intros Ha Hb Hmask h start.
  assert (Hh : rehash16_mul a b HASH_SEED = h)
    by (apply rehash16_mul_mixer; unfold HASH_SEED; lia).
  assert (Hr : 0 <= h < 2 ^ 64) by (rewrite <- Hh; apply rehash16_mul_range).
  assert (Hs : start_index LLMSSET_MASK dbs h = start)
    by (unfold start_index; by rewrite Hmask).
  split; [exact Hh|]. split.
  - intros d1 c Hv Hc Hcr. eexists.
    rewrite llmsset_lookup_unfold, Hh, Hs. split.
    + eapply (lookup2_loop_run _ _ _ _ _ _ _ 0%nat); [lia | done | intros m Hm; lia|].
      apply end_created; [done | exact Hc|]. unfold MINUS_ONE. lia.
    + cbn [p_idx]. rewrite published_table.
      rewrite rd_wr_eq. by destruct (entry_fields h c Hr Hcr) as (_ & ? & ?).
  - intros v Hv Hvr Htag Hda Hdb.
    rewrite llmsset_lookup_unfold, Hh, Hs.
    rewrite <- land_mask_index.
    eapply (lookup2_loop_run _ _ _ _ _ _ _ 0%nat); [lia | done | intros m Hm; lia|].
    rewrite <- Hv. apply end_found; cbn [p_idx]; rewrite Hv.
    + lia.
    + apply same_tag; [lia | done | done].
    + rewrite land_mask_index, Hda, Hdb. cbn. by rewrite !Z.eqb_refl.
Qed.

(** * The shape of a probe sequence *)

Lemma cl_mask_land x : 0 <= x < 2 ^ 64 → Z.land x CL_MASK = 8 * (x / 8).
Proof.
  intros Hx. rewrite Z.mul_comm. change 8 with (2 ^ 3). apply Z.bits_inj'. intros k Hk.
  rewrite Z.land_spec. change CL_MASK with (not64 (Z.ones 3)).
  destruct (Z.ltb_spec k 3).
  - rewrite Z.mul_pow2_bits_low, not64_bits, Z.ones_spec_low by lia.
    apply andb_false_r.
  - rewrite Z.mul_pow2_bits, Z.div_pow2_bits by lia.
    replace (k - 3 + 3) with k by lia. destruct (Z.ltb_spec k 64).
    + rewrite not64_bits, Z.ones_spec_high by lia. apply andb_true_r.
    + by rewrite (bits_of_range x).
Qed.

Lemma line_disjoint q r : 0 <= r < 8 → Z.land (8 * q) r = 0.
Proof.
  intros Hr. apply Z.bits_inj'. intros k Hk.
  rewrite Z.land_spec, Z.bits_0, (Z.mul_comm 8). change 8 with (2 ^ 3).
  destruct (Z.ltb_spec k 3).
  - by rewrite Z.mul_pow2_bits_low by lia.
  - rewrite (bits_above r 3) by (change (2 ^ 3) with 8; lia). apply andb_false_r.
Qed.

Lemma lor_line q r : 0 <= r < 8 → Z.lor (8 * q) r = 8 * q + r.
Proof.
  intros Hr. rewrite <- Z.lxor_lor, <- Z.add_nocarry_lxor;
    auto using line_disjoint.
Qed.

Lemma next_in_line_spec x :
  0 <= x < 2 ^ 64 → next_in_line x = 8 * (x / 8) + (x + 1) mod 8.
Proof.
  intros Hx. unfold next_in_line. rewrite cl_mask_land by done.
  change CL_MASK_R with (Z.ones 3). rewrite Z.land_ones by lia.
  unfold wrap64. rewrite Z.mod_mod_divide by (exists (2 ^ 61); reflexivity).
  change (2 ^ 3) with 8. apply lor_line, Z.mod_pos_bound. lia.
Qed.

Lemma start_index_range dbs h :
  0 < table_size dbs → 0 <= h < 2 ^ 64 →
  0 <= start_index LLMSSET_MASK dbs h < 2 ^ 64.
Proof.
  intros Ht Hh. unfold start_index. destruct LLMSSET_MASK.
  - by apply land_range.
  - pose proof (Z.mod_pos_bound h (table_size dbs) Ht).
    assert (h mod table_size dbs <= h) by (apply Z.mod_le; lia). lia.
Qed.

Lemma next_hash_range dbs custom a b s h :
  next_hash dbs custom a b s = Some h → 0 <= h < 2 ^ 64.
Proof.
  unfold next_hash. destruct custom; [destruct (hash_cb dbs); [|done]|];
    intros [= <-]; [apply wrap64_range | apply rehash16_mul_range].
Qed.

(** A step of the probe uses up one of the steps that are left, and the
    probe ends exactly when none is left. *)
Lemma probe_next_left dbs custom a b p :
  0 < table_size dbs → probe_ok dbs p →
  match probe_next LLMSSET_MASK dbs custom a b p with
  | Some (Some q) => probe_ok dbs q ∧ probe_left dbs q = probe_left dbs p - 1
  | Some None => probe_left dbs p = 0
  | None => next_hash dbs custom a b (p_hash_rehash p) = None
  end.
Proof.
  intros Ht (Hidx & Hlast & Hline & Hi). unfold probe_next, probe_left.
  rewrite next_in_line_spec by done.
  destruct (Z.eqb_spec (8 * (p_idx p / 8) + (p_idx p + 1) mod 8) (p_last p)) as [E|E].
  - destruct (Z.eqb_spec (p_i p + 1) (threshold dbs)) as [Ei|Ei].
    + Z.div_mod_to_equations; lia.
    + destruct (next_hash dbs custom a b (p_hash_rehash p)) as [h|] eqn:Hh; [|done].
      pose proof (start_index_range dbs h Ht (next_hash_range _ _ _ _ _ _ Hh)).
      unfold probe_ok. cbn [p_idx p_last p_i]. rewrite Z.sub_diag.
      split; [lia|]. Z.div_mod_to_equations; lia.
  - unfold probe_ok. cbn [p_idx p_last p_i].
    split; [|Z.div_mod_to_equations; lia].
    repeat split; try lia; Z.div_mod_to_equations; lia.
Qed.

Lemma probe_left_nonneg dbs p : probe_ok dbs p → 0 <= probe_left dbs p.
Proof.
  intros (_ & _ & _ & Hi). unfold probe_left.
  pose proof (Z.mod_pos_bound (p_idx p - p_last p) 8 ltac:(lia)). lia.
Qed.

Lemma probe_nth_left dbs custom a b n : ∀ p q,
  0 < table_size dbs → probe_ok dbs p →
  probe_nth LLMSSET_MASK dbs custom a b n p = Some q →
  probe_ok dbs q ∧ probe_left dbs q = probe_left dbs p - Z.of_nat n.
Proof.
  induction n as [|n IH]; intros p q Ht Hp; cbn [probe_nth].
  - intros [= <-]. split; [done|lia].
  - pose proof (probe_next_left dbs custom a b p Ht Hp) as Hstep.
    destruct (probe_next LLMSSET_MASK dbs custom a b p) as [[p1|]|]; [|done..].
    destruct Hstep as [Hp1 Hl1]. intros Hq.
    apply IH in Hq as [Hq Hl]; [|done..]. split; [done|lia].
Qed.

Lemma probe_first_ok dbs custom a b p :
  0 < table_size dbs → 0 < threshold dbs →
  probe_first LLMSSET_MASK dbs custom a b = Some p →
  probe_ok dbs p ∧ probe_left dbs p = 8 * threshold dbs - 1.
Proof.
  intros Ht Hth. unfold probe_first.
  destruct (next_hash dbs custom a b HASH_SEED) as [h|] eqn:Hh; [|done].
  intros [= <-].
  pose proof (start_index_range dbs h Ht (next_hash_range _ _ _ _ _ _ Hh)).
  unfold probe_ok, probe_left. cbn [p_idx p_last p_i]. rewrite Z.sub_diag.
  split; [lia|]. rewrite Z.mod_0_l by lia. lia.
Qed.

(** No probe sequence is longer than [8 * threshold]. *)
Lemma probe_nth_bound dbs custom a b p n q :
  0 < table_size dbs → 0 < threshold dbs →
  probe_first LLMSSET_MASK dbs custom a b = Some p →
  probe_nth LLMSSET_MASK dbs custom a b n p = Some q →
  Z.of_nat n < 8 * threshold dbs.
Proof.
  intros Ht Hth Hp Hq.
  apply probe_first_ok in Hp as [Hp Hl]; [|done..].
  apply probe_nth_left in Hq as [Hq Hlq]; [|done..].
  pose proof (probe_left_nonneg dbs q Hq). lia.
Qed.

(** * Re-inserting a bucket *)

Lemma rehash_bucket_loop_step fuel dbs a b custom new_v p :
  rehash_bucket_loop LLMSSET_MASK (S fuel) dbs a b custom new_v p
  = if rd (table dbs) (p_idx p) =? 0
    then Some (set_table dbs (wr (table dbs) (p_idx p) new_v), true)
    else
      match probe_next LLMSSET_MASK dbs custom a b p with
      | None => None
      | Some None => Some (dbs, false)
      | Some (Some q) => rehash_bucket_loop LLMSSET_MASK fuel dbs a b custom new_v q
      end.
Proof.
  cbn [rehash_bucket_loop]. unfold cas.
  by destruct (rd (table dbs) (p_idx p) =? 0).
Qed.

Lemma occupied_cons dbs custom a b p q n :
  rd (table dbs) (p_idx p) ≠ 0 →
  probe_next LLMSSET_MASK dbs custom a b p = Some (Some q) →
  occupied_before LLMSSET_MASK dbs custom a b q n →
  occupied_before LLMSSET_MASK dbs custom a b p (S n).
Proof.
  intros Hs Hn Hp [|m] Hm; [by exists p|].
  destruct (Hp m) as (q' & Hq' & Hs'); [lia|].
  exists q'. cbn [probe_nth]. by rewrite Hn.
Qed.

Lemma rehash_bucket_loop_inv fuel dbs a b custom new_v : ∀ p r,
  rehash_bucket_loop LLMSSET_MASK fuel dbs a b custom new_v p = Some r →
  ∃ n q, probe_nth LLMSSET_MASK dbs custom a b n p = Some q
    ∧ occupied_before LLMSSET_MASK dbs custom a b p n
    ∧ rehash_end LLMSSET_MASK dbs a b custom new_v q r.
Proof.
  induction fuel as [|fuel IH]; intros p r; [done|].
  rewrite rehash_bucket_loop_step.
  destruct (Z.eqb_spec (rd (table dbs) (p_idx p)) 0) as [Hv|Hv].
  - intros [= <-]. exists 0%nat, p. split; [done|].
    split; [intros m Hm; lia|]. by apply end_placed.
  - destruct (probe_next LLMSSET_MASK dbs custom a b p) as [[q|]|] eqn:Hn; [| |done].
    + intros Hrun. apply IH in Hrun as (n & q' & Hnth & Hocc & Hend).
      exists (S n), q'. split; [cbn; by rewrite Hn|].
      split; [by eapply occupied_cons|done].
    + intros [= <-]. exists 0%nat, p. split; [done|].
      split; [intros m Hm; lia|]. by apply end_full.
Qed.

(** The loop of the re-insert ends within the steps that the probe has
    left. *)
Lemma rehash_bucket_loop_total dbs a b new_v fuel : ∀ p,
  0 < table_size dbs → probe_ok dbs p → probe_left dbs p < Z.of_nat fuel →
  ∃ r, rehash_bucket_loop LLMSSET_MASK fuel dbs a b false new_v p = Some r.
Proof.
  induction fuel as [|fuel IH]; intros p Ht Hp Hl.
  - pose proof (probe_left_nonneg dbs p Hp). lia.
  - rewrite rehash_bucket_loop_step.
    destruct (rd (table dbs) (p_idx p) =? 0); [eauto|].
    pose proof (probe_next_left dbs false a b p Ht Hp) as Hstep.
    destruct (probe_next LLMSSET_MASK dbs false a b p) as [[q|]|]; [|eauto|done].
    destruct Hstep as [Hq Hlq]. apply IH; [done..|lia].
Qed.

Lemma default_probing_set_table dbs t :
  default_probing (set_table dbs t) ↔ default_probing dbs.
Proof. done. Qed.

(** With no hash callback, a re-insert ends, and either leaves the table as
    it is or puts the word of the bucket into an empty slot that the probe
    sequence of its payload reaches over occupied slots. *)
Lemma rehash_bucket_spec fuel dbs k :
  default_probing dbs → 8 * threshold dbs <= Z.of_nat fuel →
  ∃ d' ok,
    llmsset_rehash_bucket LLMSSET_MASK fuel dbs k = Some (d', ok)
    ∧ (d' = dbs
       ∨ ∃ slot, rd (table dbs) slot = 0
                 ∧ reached_by LLMSSET_MASK dbs k slot
                 ∧ d' = set_table dbs (wr (table dbs) slot (entry_of dbs k))).
Proof.
  intros (Hcb & Ht & Hth) Hfuel. unfold llmsset_rehash_bucket, has_hash_cb.
  rewrite Hcb. cbn [andb].
  destruct (probe_first LLMSSET_MASK dbs false (rd (data dbs) (2 * k))
              (rd (data dbs) (2 * k + 1))) as [p|] eqn:Hp; [|done].
  pose proof (probe_first_ok _ _ _ _ _ Ht Hth Hp) as [Hok Hleft].
  destruct (rehash_bucket_loop_total dbs (rd (data dbs) (2 * k))
              (rd (data dbs) (2 * k + 1))
              (Z.lor (Z.land (p_hash_rehash p) MASK_HASH) k) fuel p)
    as [[d' ok] Hrun]; [done | done | lia |].
  exists d', ok. split; [exact Hrun|].
  apply rehash_bucket_loop_inv in Hrun as (n & q & Hnth & Hocc & Hend).
  inversion Hend; subst; [right | by left].
  exists (p_idx q). split; [done|]. split; [by exists p, n, q|].
  unfold entry_of, payload. cbn [fst snd].
  unfold probe_first in Hp. cbn [next_hash] in Hp. by injection Hp as <-.
Qed.

(** * The rehash sweep *)

Lemma table_frame_refl d : table_frame d d.
Proof. by destruct d. Qed.

Lemma table_frame_trans d1 d2 d3 :
  table_frame d1 d2 → table_frame d2 d3 → table_frame d1 d3.
Proof.
  unfold table_frame. destruct d1, d2, d3; cbn.
  intros [= -> -> -> -> -> -> -> -> -> -> -> -> ->] [= -> -> -> -> -> -> -> -> -> -> -> -> ->].
  reflexivity.
Qed.

Lemma probe_nth_set_table dbs t custom a b n : ∀ p,
  probe_nth LLMSSET_MASK (set_table dbs t) custom a b n p
  = probe_nth LLMSSET_MASK dbs custom a b n p.
Proof.
  induction n as [|n IH]; intros p; cbn [probe_nth]; [done|].
  change (probe_next LLMSSET_MASK (set_table dbs t) custom a b p)
    with (probe_next LLMSSET_MASK dbs custom a b p).
  by destruct (probe_next LLMSSET_MASK dbs custom a b p) as [[q|]|].
Qed.

(** Entries stay where they are found when the directory only grows. *)
Lemma reached_by_mono dbs t k slot :
  (∀ y, rd (table dbs) y ≠ 0 → rd t y ≠ 0) →
  reached_by LLMSSET_MASK dbs k slot →
  reached_by LLMSSET_MASK (set_table dbs t) k slot.
Proof.
  intros Hmono (p & n & q & Hp & Hn & Hi & Hocc). exists p, n, q.
  change (payload (set_table dbs t) k) with (payload dbs k).
  split; [exact Hp|]. split; [by rewrite probe_nth_set_table|]. split; [done|].
  intros m Hm. destruct (Hocc m Hm) as (q' & Hq' & Hv).
  exists q'. rewrite probe_nth_set_table. split; [done|]. by apply Hmono.
Qed.

Lemma entry_of_set_table dbs t k : entry_of (set_table dbs t) k = entry_of dbs k.
Proof. unfold entry_of, payload. cbn [data set_table]. reflexivity. Qed.

Lemma rehashed_placed dbs k slot :
  rehashed LLMSSET_MASK dbs →
  0 <= k < table_size dbs → bit_set (bitmap2 dbs) k = true →
  rd (table dbs) slot = 0 → reached_by LLMSSET_MASK dbs k slot →
  rehashed LLMSSET_MASK (set_table dbs (wr (table dbs) slot (entry_of dbs k))).
Proof.
  intros Hinv Hk Hb Hz Hr x Hx.
  assert (Hmono : ∀ y, rd (table dbs) y ≠ 0
                       → rd (wr (table dbs) slot (entry_of dbs k)) y ≠ 0).
  { intros y Hy. rewrite rd_wr_ne; [done|]. by intros ->. }
  setoid_rewrite entry_of_set_table.
  cbn [table set_table bitmap2 table_size] in *.
  destruct (decide (slot = x)) as [->|Hne].
  - exists k. rewrite rd_wr_eq.
    split; [exact Hk|]. split; [exact Hb|]. split; [reflexivity|].
    apply reached_by_mono; assumption.
  - rewrite rd_wr_ne in Hx |- * by done.
    destruct (Hinv x Hx) as (k' & Hk' & Hb' & He' & Hr').
    exists k'. split; [exact Hk'|]. split; [exact Hb'|]. split; [exact He'|].
    apply reached_by_mono; assumption.
Qed.

(** A re-insert keeps the directory in the state of a rehash sweep. *)
Lemma rehash_bucket_rehashed fuel dbs k :
  default_probing dbs → 8 * threshold dbs <= Z.of_nat fuel →
  rehashed LLMSSET_MASK dbs →
  0 <= k < table_size dbs → bit_set (bitmap2 dbs) k = true →
  ∃ d' ok, llmsset_rehash_bucket LLMSSET_MASK fuel dbs k = Some (d', ok)
           ∧ table_frame dbs d' ∧ rehashed LLMSSET_MASK d'.
Proof.
  intros Hd Hfuel Hinv Hk Hb.
  destruct (rehash_bucket_spec fuel dbs k Hd Hfuel) as (d' & ok & Hrun & Hcase).
  exists d', ok. split; [done|].
  destruct Hcase as [->|(slot & Hz & Hr & ->)].
  - split; [apply table_frame_refl | done].
  - split; [done | by apply rehashed_placed].
Qed.

Lemma rehash_serial_spec fuel n : ∀ dbs first k,
  default_probing dbs → 8 * threshold dbs <= Z.of_nat fuel →
  rehashed LLMSSET_MASK dbs →
  0 <= first + k → first + k + Z.of_nat n <= table_size dbs →
  ∃ d', rehash_serial LLMSSET_MASK fuel n dbs first k
          ((first + k) / 64) (bit_mask (first + k)) = Some d'
        ∧ table_frame dbs d' ∧ rehashed LLMSSET_MASK d'.
Proof.
  induction n as [|n IH]; intros dbs first k Hd Hfuel Hinv Hlo Hhi.
  - exists dbs. cbn. split; [done|]. split; [apply table_frame_refl | done].
  - cbn [rehash_serial]. rewrite mask_test.
    assert (Hone : ∃ d1,
      (if bit_set (bitmap2 dbs) (first + k)
       then option_map fst (llmsset_rehash_bucket LLMSSET_MASK fuel dbs (first + k))
       else Some dbs) = Some d1
      ∧ table_frame dbs d1 ∧ rehashed LLMSSET_MASK d1).
    { destruct (bit_set (bitmap2 dbs) (first + k)) eqn:Hb.
      - destruct (rehash_bucket_rehashed fuel dbs (first + k))
          as (d1 & ok & -> & Hf & Hi); [done..|lia|done|]. by exists d1.
      - exists dbs. split; [done|]. split; [apply table_frame_refl | done]. }
    destruct Hone as (d1 & -> & Hf1 & Hi1).
    pose proof (mask_advance (first + k)) as Hadv.
    rewrite <- Z.add_assoc in Hadv.
    destruct (IH d1 first (k + 1)) as (d2 & Hrun & Hf2 & Hi2);
      [by rewrite Hf1 | by rewrite Hf1 | done | lia | rewrite Hf1; cbn; lia |].
    exists d2. split; [|split; [by eapply table_frame_trans | done]].
    destruct (Z.shiftr (bit_mask (first + k)) 1 =? 0);
      injection Hadv as Hq Hm; rewrite ?Hq, ?Hm; exact Hrun.
Qed.

Lemma rehash_par_spec fuel dbs first count :
  default_probing dbs → 8 * threshold dbs <= Z.of_nat fuel →
  rehashed LLMSSET_MASK dbs →
  0 <= first → 0 <= count → first + count <= table_size dbs →
  ∃ d', llmsset_rehash_par LLMSSET_MASK fuel dbs first count = Some d'
        ∧ table_frame dbs d' ∧ rehashed LLMSSET_MASK d'.
Proof.
  funelim (llmsset_rehash_par LLMSSET_MASK fuel dbs first count);
    intros Hd Hfuel Hinv Hlo Hc Hhi; clear Heqcall Heq.
  - assert (Hs : 0 <= count / 2 <= count) by (Z.div_mod_to_equations; lia).
    destruct H as (d1 & -> & Hf1 & Hi1); [done..|lia|lia|lia|].
    destruct (H0 d1) as (d2 & Hrun & Hf2 & Hi2);
      [by rewrite Hf1 | by rewrite Hf1 | done | lia | lia | rewrite Hf1; cbn; lia |].
    exists d2. split; [done|]. split; [by eapply table_frame_trans | done].
  - destruct (rehash_serial_spec fuel (Z.to_nat count) dbs first 0)
      as (d' & Hrun & Hf & Hi); [done..|lia|lia|].
    rewrite Z.add_0_r in Hrun. by exists d'.
Qed.

(** * Clearing and marking *)

Lemma reserved_bits y :
  bit_set (wr ∅ 0 0xc000000000000000) y = (y =? 0) || (y =? 1).
Proof.
  unfold bit_set. destruct (decide (0 = y / 64)) as [E|E].
  - rewrite <- E, rd_wr_eq.
    change 0xc000000000000000 with (Z.lor (2 ^ 63) (2 ^ 62)).
    pose proof (bit_pos_range y).
    rewrite Z.lor_spec, !Z.pow2_bits_eqb by lia.
    destruct (Z.eqb_spec 63 (63 - y mod 64)), (Z.eqb_spec 62 (63 - y mod 64)),
      (Z.eqb_spec y 0), (Z.eqb_spec y 1); try reflexivity;
      exfalso; Z.div_mod_to_equations; lia.
  - rewrite rd_wr_ne, rd_empty, Z.bits_0 by done.
    destruct (Z.eqb_spec y 0), (Z.eqb_spec y 1); try reflexivity;
      exfalso; subst; by apply E.
Qed.

Lemma mark_bits d k y :
  bit_set (bitmap2 (llmsset_mark d k).1) y = (y =? k) || bit_set (bitmap2 d) y.
Proof.
  destruct (bit_set (bitmap2 d) k) eqn:Hb.
  - rewrite mark_set by done. cbn [fst].
    destruct (Z.eqb_spec y k) as [->|]; [by rewrite Hb | done].
  - rewrite mark_clear by done. cbn [fst bitmap2 set_bitmap2]. apply bit_set_lor.
Qed.

Lemma mark_frame d k :
  (llmsset_mark d k).1 = set_bitmap2 d (bitmap2 (llmsset_mark d k).1).
Proof.
  unfold llmsset_mark. destruct (negb _); cbn [fst]; by destruct d.
Qed.

Lemma clear_and_mark_spec dbs live :
  clear_and_mark dbs live
  = set_bitmap2 (llmsset_clear dbs) (bitmap2 (clear_and_mark dbs live))
  ∧ ∀ y, bit_set (bitmap2 (clear_and_mark dbs live)) y
         = bool_decide (y ∈ live) || (y =? 0) || (y =? 1).
Proof.
  unfold clear_and_mark.
  assert (H : ∀ d0 d, d = set_bitmap2 d0 (bitmap2 d) →
    foldl (λ d k, (llmsset_mark d k).1) d live
    = set_bitmap2 d0 (bitmap2 (foldl (λ d k, (llmsset_mark d k).1) d live))
    ∧ ∀ y, bit_set (bitmap2 (foldl (λ d k, (llmsset_mark d k).1) d live)) y
           = bool_decide (y ∈ live) || bit_set (bitmap2 d) y).
  { induction live as [|k live IH]; intros d0 d Hd; cbn [foldl].
    - split; [done|]. intros y. rewrite bool_decide_eq_false_2; [done|].
      apply not_elem_of_nil.
    - destruct (IH d0 (llmsset_mark d k).1) as [Hf Hb].
      { rewrite mark_frame at 1. rewrite Hd at 1. by destruct d0. }
      split; [exact Hf|]. intros y. rewrite Hb, mark_bits.
      destruct (Z.eqb_spec y k) as [->|Hne].
      + rewrite (bool_decide_eq_true_2 (k ∈ k :: live)) by apply list_elem_of_here.
        by rewrite orb_true_r.
      + cbn [orb]. f_equal. apply bool_decide_ext. rewrite elem_of_cons. tauto. }
  destruct (H (llmsset_clear dbs) (llmsset_clear dbs)) as [Hf Hb];
    [by destruct dbs|].
  split; [exact Hf|]. intros y. rewrite Hb. cbn [llmsset_clear bitmap2].
  unfold llmsset_clear, llmsset_reset_region. cbn [bitmap2 set_my_region set_bitmap2].
  by rewrite reserved_bits, orb_assoc.
Qed.

(** * Lookups after a rehash *)




Lemma payload_equal_default dbs a b k :
  payload_equal dbs false a b (rd (data dbs) (2 * k)) (rd (data dbs) (2 * k + 1))
  = Some true ↔ payload dbs k = (a, b).
Proof.
  unfold payload_equal, payload. split.
  - intros [= H]. apply andb_true_iff in H as [->%Z.eqb_eq ->%Z.eqb_eq]. done.
  - intros [= -> ->]. by rewrite !Z.eqb_refl.
Qed.

Lemma entry_of_fields dbs k :
  0 <= k < 2 ^ 44 →
  0 <= entry_of dbs k < 2 ^ 64
  ∧ Z.land (entry_of dbs k) MASK_HASH
    = Z.land (rehash16_mul (payload dbs k).1 (payload dbs k).2 HASH_SEED) MASK_HASH
  ∧ Z.land (entry_of dbs k) MASK_INDEX = k.
Proof.
  intros Hk. unfold entry_of.
  pose proof (rehash16_mul_range (payload dbs k).1 (payload dbs k).2 HASH_SEED) as Hh.
  destruct (entry_fields _ k Hh Hk) as (Hr & Ht & Hi).
  split; [done|]. split; [|by rewrite land_mask_index].
  symmetry. by apply same_tag.
Qed.


End Properties.

(** * Tables without custom callbacks: the allocator and the lookup *)

Section DefaultTables.
Variable LLMSSET_MASK : bool.

Lemma get_put_my_region dbs me r w :
  get_my_region (put_my_region dbs me r) w
  = if decide (worker me = worker w) then r else get_my_region dbs w.
Proof.
  unfold get_my_region, put_my_region. cbn [my_region set_my_region].
  case_decide as E; [by rewrite E, lookup_insert_eq | by rewrite lookup_insert_ne].
Qed.

Lemma claim_loop_regions fuel me : ∀ dbs r0 d' c,
  0 < table_size dbs / 512 →
  claim_data_bucket_loop fuel me dbs r0 = Some (d', c) →
  ∀ w, get_my_region d' w = get_my_region dbs w
       ∨ 0 <= get_my_region d' w < Z.max 1 (table_size dbs / 512).
Proof.
  induction fuel as [|fuel IH]; intros dbs r0 d' c Hpos; [done|].
  cbn [claim_data_bucket_loop]. intros Hrun w.
  assert (Hsearch : ∀ r1,
    match claim_region (bitmap1 dbs) (table_size dbs / (64 * 8))
            (Z.to_nat (table_size dbs / (64 * 8))) r1 with
    | (Some bm1, r) =>
        claim_data_bucket_loop fuel me (put_my_region (set_bitmap1 dbs bm1) me r) r
    | (None, r) => Some (put_my_region dbs me r, MINUS_ONE)
    end = Some (d', c) →
    get_my_region d' w = get_my_region dbs w
    ∨ 0 <= get_my_region d' w < Z.max 1 (table_size dbs / 512)).
  { intros r1 H.
    destruct (claim_region _ _ _ r1) as [[bm1|] r] eqn:Hcr.
    - apply claim_region_range in Hcr.
      destruct (IH (put_my_region (set_bitmap1 dbs bm1) me r) _ _ _ Hpos H w)
        as [E|E]; [|by right].
      rewrite E. change (get_my_region (put_my_region (set_bitmap1 dbs bm1) me r) w)
        with (get_my_region (put_my_region dbs me r) w).
      rewrite get_put_my_region. case_decide; [by right | by left].
    - injection H as <- <-. rewrite get_put_my_region.
      case_decide; [right | by left].
      apply claim_region_last in Hcr as [[Hz _]|Hr]; [|done].
      change (64 * 8) with 512 in Hz. lia. }
  destruct (negb (r0 =? MINUS_ONE)).
  - destruct (find_free (bitmap2 dbs) (r0 * 8) 0 8) as [[i j]|].
    + injection Hrun as <- <-. by left.
    + by apply Hsearch in Hrun.
  - by apply Hsearch in Hrun.
Qed.


Lemma claim_regions_ok cfuel me dbs d1 c :
  512 <= table_size dbs → regions_ok dbs →
  claim_data_bucket cfuel me dbs = Some (d1, c) → regions_ok d1.
Proof.
  intros Hts Hreg Hc w.
  pose proof (claim_data_bucket_frame _ _ _ _ _ Hc) as Hf.
  assert (table_size d1 = table_size dbs) as -> by (by rewrite Hf).
  assert (1 <= table_size dbs / 512) by (Z.div_mod_to_equations; lia).
  assert (Hpos : 0 < table_size dbs / 512) by lia.
  destruct (claim_loop_regions _ _ _ _ _ _ Hpos Hc w) as [->|H']; [apply Hreg|].
  right. lia.
Qed.

Lemma words_ok_wr bm w v : words_ok bm → 0 <= v < 2 ^ 64 → words_ok (wr bm w v).
Proof. intros H Hv. by apply map_Forall_insert_2. Qed.

Lemma bit_mask_range x : 0 <= bit_mask x < 2 ^ 64.
Proof.
  rewrite bit_mask_pow2. pose proof (bit_pos_range x).
  split; [apply Z.pow_nonneg; lia|]. apply Z.pow_lt_mono_r; lia.
Qed.

(** ** Tables with the same probe sequences *)

Lemma entry_of_payload d d' k :
  payload d' k = payload d k → entry_of d' k = entry_of d k.
Proof. unfold entry_of. by intros ->. Qed.

Lemma entry_of_eq d k a b :
  payload d k = (a, b) →
  entry_of d k = Z.lor (Z.land (rehash16_mul a b HASH_SEED) MASK_HASH) k.
Proof. unfold entry_of. by intros ->. Qed.

Lemma same_probing_refl d : same_probing d d.
Proof. done. Qed.

Lemma probe_next_same d d' custom a b p :
  same_probing d d' →
  probe_next LLMSSET_MASK d' custom a b p = probe_next LLMSSET_MASK d custom a b p.
Proof.
  intros (Ht & Hs & Hm & Hh). unfold probe_next, next_hash, start_index.
  by rewrite Ht, Hs, Hm, Hh.
Qed.

Lemma probe_first_same d d' custom a b :
  same_probing d d' →
  probe_first LLMSSET_MASK d' custom a b = probe_first LLMSSET_MASK d custom a b.
Proof.
  intros (Ht & Hs & Hm & Hh). unfold probe_first, next_hash, start_index.
  by rewrite Hs, Hm, Hh.
Qed.

Lemma probe_nth_same d d' custom a b n : ∀ p,
  same_probing d d' →
  probe_nth LLMSSET_MASK d' custom a b n p = probe_nth LLMSSET_MASK d custom a b n p.
Proof.
  induction n as [|n IH]; intros p Hs; cbn [probe_nth]; [done|].
  rewrite (probe_next_same d d') by done.
  destruct (probe_next LLMSSET_MASK d custom a b p) as [[q|]|]; auto.
Qed.

Lemma reached_by_same d d' k slot :
  same_probing d d' → payload d' k = payload d k →
  (∀ y, rd (table d) y ≠ 0 → rd (table d') y ≠ 0) →
  reached_by LLMSSET_MASK d k slot → reached_by LLMSSET_MASK d' k slot.
Proof.
  intros Hs Hpay Hmono (p & n & q & Hp & Hn & Hi & Hocc). exists p, n, q.
  rewrite Hpay, (probe_first_same d d'), (probe_nth_same d d') by done.
  split; [exact Hp|]. split; [exact Hn|]. split; [exact Hi|].
  intros m Hm. destruct (Hocc m Hm) as (q' & Hq' & Hv).
  exists q'. rewrite (probe_nth_same d d') by done. split; [done|]. by apply Hmono.
Qed.

Lemma passes_occupied dbs a b custom hash p n :
  passes LLMSSET_MASK dbs a b custom hash p n →
  occupied_before LLMSSET_MASK dbs custom a b p n.
Proof. intros H m Hm. destruct (H m Hm) as (q & Hq & Hv & _). by exists q. Qed.

(** ** The two directions of a lookup *)

Lemma lookup_inv fuel me dbs a b r :
  llmsset_lookup LLMSSET_MASK fuel me dbs a b = Some r →
  ∃ p n q,
    probe_first LLMSSET_MASK dbs false a b = Some p
    ∧ (n < fuel)%nat
    ∧ probe_nth LLMSSET_MASK dbs false a b n p = Some q
    ∧ passes LLMSSET_MASK dbs a b false
        (Z.land (rehash16_mul a b HASH_SEED) MASK_HASH) p n
    ∧ lookup_end LLMSSET_MASK fuel me dbs a b false
        (Z.land (rehash16_mul a b HASH_SEED) MASK_HASH) q r.
Proof.
  rewrite llmsset_lookup_unfold. intros H.
  apply lookup2_loop_inv in H as (n & q & Hlt & Hn & Hp & He).
  eexists _, n, q. split; [reflexivity|]. done.
Qed.

Lemma lookup_run fuel me dbs a b p n q r :
  probe_first LLMSSET_MASK dbs false a b = Some p →
  (n < fuel)%nat →
  probe_nth LLMSSET_MASK dbs false a b n p = Some q →
  passes LLMSSET_MASK dbs a b false
    (Z.land (rehash16_mul a b HASH_SEED) MASK_HASH) p n →
  lookup_end LLMSSET_MASK fuel me dbs a b false
    (Z.land (rehash16_mul a b HASH_SEED) MASK_HASH) q r →
  llmsset_lookup LLMSSET_MASK fuel me dbs a b = Some r.
Proof.
  intros Hp Hlt Hn Hpass Hend. rewrite llmsset_lookup_unfold.
  unfold probe_first in Hp. cbn [next_hash] in Hp. injection Hp as <-.
  by eapply lookup2_loop_run.
Qed.

Lemma published_default d1 a b hash slot c :
  hash_cb d1 = None →
  published d1 a b false hash slot c
  = set_table (set_data d1 (wr (wr (data d1) (2 * c) a) (2 * c + 1) b))
      (wr (table d1) slot (Z.lor hash c)).
Proof.
  intros H. unfold published, has_hash_cb. cbn [orb set_table set_data hash_cb].
  by rewrite H.
Qed.

Lemma payload_published (dt : gmap Z Z) a b c k :
  (rd (wr (wr dt (2 * c) a) (2 * c + 1) b) (2 * k),
   rd (wr (wr dt (2 * c) a) (2 * c + 1) b) (2 * k + 1))
  = if decide (k = c) then (a, b) else (rd dt (2 * k), rd dt (2 * k + 1)).
Proof.
  case_decide as E.
  - subst k. by rewrite rd_wr_eq, rd_wr_ne, rd_wr_eq by lia.
  - by rewrite !rd_wr_ne by lia.
Qed.


(** ** What a lookup does to a table without callbacks *)

Lemma table_ok_region dbs me : table_ok LLMSSET_MASK dbs → region_ok dbs me.
Proof.
  intros (_ & Hts & _ & Hreg & _). destruct (Hreg me) as [H|H]; [by left|].
  right. assert (table_size dbs / 512 <= 2 ^ 35) by (Z.div_mod_to_equations; lia). lia.
Qed.

(** A bucket that the allocator hands out in such a table: it is free, not
    reserved, and lies in the table. *)
Lemma claim_in_table cfuel me dbs d1 c :
  table_ok LLMSSET_MASK dbs →
  claim_data_bucket cfuel me dbs = Some (d1, c) → c ≠ MINUS_ONE →
  claim_frame dbs d1
  ∧ 2 <= c < table_size dbs
  ∧ bit_set (bitmap2 dbs) c = false
  ∧ bitmap2 d1 = wr (bitmap2 dbs) (c / 64)
                   (Z.lor (rd (bitmap2 dbs) (c / 64)) (bit_mask c)).
Proof.
  intros Hok Hc Hne. pose proof (table_ok_region dbs me Hok) as Hreg1.
  destruct Hok as (_ & Hts & Hw & Hreg & Hb0 & Hb1 & _).
  destruct (claim_success _ _ _ _ _ Hw ltac:(lia) Hreg1 Hc Hne)
    as (Hf & Hidx & Hclear & Hbm & Hr & Hrr & Hq & _ & Hor).
  split; [exact Hf|]. split; [|done].
  assert (Hlt : get_my_region d1 me < table_size dbs / 512).
  { destruct Hor as [E|Hor].
    - destruct (Hreg me) as [H|H]; [congruence | lia].
    - assert (1 <= table_size dbs / 512) by (Z.div_mod_to_equations; lia). lia. }
  split.
  - destruct (decide (c = 0)) as [->|]; [congruence|].
    destruct (decide (c = 1)) as [->|]; [congruence|]. lia.
  - rewrite <- Hq in Hlt. Z.div_mod_to_equations; lia.
Qed.


(** An entry of such a table is the word of a bucket in use, whose index it
    carries. *)
Lemma table_ok_entry dbs slot :
  table_ok LLMSSET_MASK dbs → rd (table dbs) slot ≠ 0 →
  ∃ k, 2 <= k < table_size dbs
       ∧ bit_set (bitmap2 dbs) k = true
       ∧ rd (table dbs) slot = entry_of dbs k
       ∧ Z.land (rd (table dbs) slot) MASK_INDEX = k
       ∧ reached_by LLMSSET_MASK dbs k slot.
Proof.
  intros (_ & Hts & _ & _ & _ & _ & Hre & He2) Hv.
  destruct (Hre slot Hv) as (k & Hk & Hb & He & Hr).
  destruct (entry_of_fields dbs k ltac:(lia)) as (_ & _ & Hi).
  specialize (He2 slot Hv). rewrite <- land_mask_index, He, Hi in He2.
  exists k. rewrite He, Hi. repeat split; try done; lia.
Qed.

(** The table after a lookup has created an entry for [(a, b)] in the
    bucket [c] and has published it at [slot]. *)
Lemma created_shape cfuel me dbs a b hash slot d1 c :
  table_ok LLMSSET_MASK dbs →
  claim_data_bucket cfuel me dbs = Some (d1, c) → c ≠ MINUS_ONE →
  2 <= c < table_size dbs
  ∧ bit_set (bitmap2 dbs) c = false
  ∧ same_probing dbs (published d1 a b false hash slot c)
  ∧ table (published d1 a b false hash slot c) = wr (table dbs) slot (Z.lor hash c)
  ∧ bitmap2 (published d1 a b false hash slot c)
    = wr (bitmap2 dbs) (c / 64) (Z.lor (rd (bitmap2 dbs) (c / 64)) (bit_mask c))
  ∧ regions_ok (published d1 a b false hash slot c)
  ∧ ∀ k, payload (published d1 a b false hash slot c) k
         = if decide (k = c) then (a, b) else payload dbs k.
Proof.
  intros Hok Hc Hne.
  destruct (claim_in_table _ _ _ _ _ Hok Hc Hne) as (Hf & Hcr & Hclear & Hbm).
  pose proof (claim_regions_ok _ _ _ _ _ ltac:(apply Hok) ltac:(apply Hok) Hc) as Hreg1.
  rewrite published_default
    by (rewrite (claim_frame_hash_cb _ _ Hf); apply Hok).
  split; [done|]. split; [done|].
  split; [rewrite Hf; done|].
  split; [cbn; by rewrite (claim_frame_table _ _ Hf)|].
  split; [exact Hbm|]. split; [exact Hreg1|].
  intros k. unfold payload. cbn [data set_table set_data].
  rewrite (claim_frame_data _ _ Hf). apply payload_published.
Qed.

Lemma created_table_ok cfuel me dbs a b p n q d1 c :
  table_ok LLMSSET_MASK dbs →
  probe_first LLMSSET_MASK dbs false a b = Some p →
  probe_nth LLMSSET_MASK dbs false a b n p = Some q →
  passes LLMSSET_MASK dbs a b false
    (Z.land (rehash16_mul a b HASH_SEED) MASK_HASH) p n →
  rd (table dbs) (p_idx q) = 0 →
  claim_data_bucket cfuel me dbs = Some (d1, c) → c ≠ MINUS_ONE →
  table_ok LLMSSET_MASK
    (published d1 a b false (Z.land (rehash16_mul a b HASH_SEED) MASK_HASH)
       (p_idx q) c).
Proof.
  intros Hok Hp Hn Hpass Hz Hc Hne.
  set (hash := Z.land (rehash16_mul a b HASH_SEED) MASK_HASH) in *.
  destruct (created_shape _ _ _ a b hash (p_idx q) _ _ Hok Hc Hne)
    as (Hcr & Hclear & Hsame & Htab & Hbm' & Hreg1 & Hpay).
  pose proof Hok as ((Hcb & Htp & Hth) & Hts & Hw & Hreg & Hb0 & Hb1 & Hre & He2).
  set (d' := published _ _ _ _ _ _ _) in *.
  assert (Hmono : ∀ y, rd (table dbs) y ≠ 0 → rd (table d') y = rd (table dbs) y).
  { intros y Hy. rewrite Htab, rd_wr_ne; [done|]. by intros <-. }
  pose proof Hsame as (Hs1 & Hs2 & Hs3 & Hs4).
  split; [unfold default_probing; by rewrite Hs4, Hs2, Hs1|].
  split; [by rewrite Hs2|].
  rewrite Hbm'.
  split.
  { apply words_ok_wr; [done|].
    apply lor_range; [by apply words_ok_rd | apply bit_mask_range]. }
  split; [exact Hreg1|].
  rewrite !bit_set_lor, Hb0, Hb1, !orb_true_r.
  split; [done|]. split; [done|].
  assert (Hh : 0 <= rehash16_mul a b HASH_SEED < 2 ^ 64) by apply rehash16_mul_range.
  destruct (entry_fields _ c Hh ltac:(lia)) as (_ & _ & Hci). fold hash in Hci.
  split.
  - intros x Hx. rewrite Hs2, Hbm'.
    destruct (decide (x = p_idx q)) as [->|Hne'].
    + exists c. split; [lia|]. rewrite bit_set_lor, Z.eqb_refl.
      split; [done|]. rewrite Htab, rd_wr_eq.
      split; [symmetry; apply entry_of_eq; by rewrite Hpay, decide_True|].
      exists p, n, q. rewrite Hpay, decide_True by done. cbn [fst snd].
      rewrite (probe_first_same dbs d'), (probe_nth_same dbs d') by done.
      split; [done|]. split; [done|]. split; [done|].
      intros m Hm. destruct (Hpass m Hm) as (q' & Hq' & Hv & _).
      exists q'. rewrite (probe_nth_same dbs d') by done. split; [done|].
      by rewrite Hmono.
    + rewrite Htab, rd_wr_ne in Hx by done.
      destruct (table_ok_entry dbs x Hok Hx) as (k & Hk & Hb & He & Hi & Hr).
      assert (Hkc : k ≠ c) by congruence.
      assert (Hpk : payload d' k = payload dbs k) by (by rewrite Hpay, decide_False).
      exists k. split; [lia|]. rewrite bit_set_lor, Hb, orb_true_r.
      split; [done|]. rewrite Hmono by done.
      split; [by rewrite (entry_of_payload dbs d' k Hpk)|].
      apply (reached_by_same dbs d'); [done | done | | done].
      intros y Hy. by rewrite Hmono.
  - intros x Hx. destruct (decide (x = p_idx q)) as [->|Hne'].
    + rewrite Htab, rd_wr_eq, Hci. lia.
    + rewrite Htab, rd_wr_ne in Hx |- * by done. by apply He2.
Qed.

(** A claim that fails leaves the bits of the buckets as they are. *)
Lemma claim_failed cfuel me dbs d1 :
  table_ok LLMSSET_MASK dbs →
  claim_data_bucket cfuel me dbs = Some (d1, MINUS_ONE) →
  claim_frame dbs d1 ∧ bitmap2 d1 = bitmap2 dbs.
Proof.
  intros (_ & Hts & Hw & Hreg & _) Hc.
  unfold claim_data_bucket in Hc. apply claim_loop_inv in Hc as [Hf Hres]; [|done].
  split; [exact Hf|].
  destruct Hres as [[_ Hbm]|(r & i & j & Hr & Hor & Hget & Hff & Hc & Hbm)]; [done|].
  exfalso.
  assert (Hrr : 0 <= r < 2 ^ 35).
  { assert (1 <= table_size dbs / 512 <= 2 ^ 35) by (Z.div_mod_to_equations; lia).
    destruct Hor as [->|Hor]; [|lia].
    destruct (Hreg me) as [H'|H']; [done | lia]. }
  pose proof (find_free_spec _ _ _ _ _ _ Hff) as (Hi & _ & Hv & Hj).
  rewrite Z.sub_0_r in *. change (Z.of_nat 8) with 8 in Hi.
  destruct (clzl_not64 (rd (bitmap2 dbs) (r * 8 + i))) as [Hjr _];
    [by apply words_ok_rd | done |]. rewrite <- Hj in Hjr.
  rewrite wrap64_small in Hc by lia. unfold MINUS_ONE in Hc. lia.
Qed.

Lemma rehashed_same d d' :
  same_probing d d' → table d' = table d → data d' = data d →
  bitmap2 d' = bitmap2 d →
  rehashed LLMSSET_MASK d → rehashed LLMSSET_MASK d'.
Proof.
  intros Hs Ht Hd Hb Hre slot Hv. rewrite Ht in Hv.
  destruct (Hre slot Hv) as (k & Hk & Hbk & He & Hr).
  assert (Hp : payload d' k = payload d k) by (unfold payload; by rewrite Hd).
  exists k. destruct Hs as (Hs1 & Hs2 & Hs3 & Hs4). rewrite Hs2, Hb, Ht.
  split; [done|]. split; [done|].
  split; [by rewrite (entry_of_payload d d' k Hp)|].
  apply (reached_by_same d d'); [done | done | by rewrite Ht | done].
Qed.

Lemma no_bucket_table_ok cfuel me dbs d1 :
  table_ok LLMSSET_MASK dbs →
  claim_data_bucket cfuel me dbs = Some (d1, MINUS_ONE) →
  table_ok LLMSSET_MASK d1.
Proof.
  intros Hok Hc. destruct (claim_failed _ _ _ _ Hok Hc) as [Hf Hbm].
  pose proof (claim_regions_ok _ _ _ _ _ ltac:(apply Hok) ltac:(apply Hok) Hc) as Hreg1.
  destruct Hok as (Hd & Hts & Hw & Hreg & Hb0 & Hb1 & Hre & He2).
  unfold claim_frame in Hf. rewrite Hbm in Hf.
  split; [by rewrite Hf|]. split; [by rewrite Hf|].
  split; [by rewrite Hbm|]. split; [exact Hreg1|].
  rewrite Hbm. split; [done|]. split; [done|].
  split; [|by rewrite Hf].
  apply (rehashed_same dbs); [by rewrite Hf..|done|done].
Qed.

(** Lookups keep a table without callbacks well formed. *)
Lemma lookup_table_ok fuel me dbs a b d' idx cr :
  table_ok LLMSSET_MASK dbs →
  llmsset_lookup LLMSSET_MASK fuel me dbs a b = Some (d', idx, cr) →
  table_ok LLMSSET_MASK d'.
Proof.
  intros Hok H. apply lookup_inv in H as (p & n & q & Hp & Hlt & Hn & Hpass & Hend).
  inversion Hend; subst; try done.
  - by eapply created_table_ok.
  - by eapply no_bucket_table_ok.
Qed.


(** ** Finding an entry again *)

(** Without callbacks, an entry matches when its tag is the one of the hash
    and its bucket holds the payload. *)
Lemma lookup2_match_default dbs a b hash v :
  lookup2_match dbs a b false hash 0 v
  = if (hash =? Z.land v MASK_HASH)
       && bool_decide (payload dbs (Z.land v MASK_INDEX) = (a, b))
    then Some (Some (dbs, Z.land v MASK_INDEX, Some false))
    else Some None.
Proof.
  unfold lookup2_match, payload_equal, payload.
  destruct (hash =? Z.land v MASK_HASH); cbn [andb]; [|done].
  case_bool_decide as E.
  - injection E as -> ->. by rewrite !Z.eqb_refl.
  - destruct (Z.eqb_spec (rd (data dbs) (2 * Z.land v MASK_INDEX)) a) as [<-|];
      [|done].
    destruct (Z.eqb_spec (rd (data dbs) (2 * Z.land v MASK_INDEX + 1)) b) as [<-|];
      [|done].
    by destruct E.
Qed.

Lemma passes_kept d d' a b hash p n :
  keeps_entries d d' →
  passes LLMSSET_MASK d a b false hash p n →
  passes LLMSSET_MASK d' a b false hash p n.
Proof.
  intros [Hs Hk] Hp m Hm. destruct (Hp m Hm) as (q & Hq & Hv & Hmatch).
  exists q. rewrite (probe_nth_same d d') by done. split; [done|].
  destruct (Hk _ Hv) as [Ht Hpay]. unfold slot_passed. rewrite Ht.
  split; [done|]. rewrite lookup2_match_default in Hmatch |- *.
  rewrite Hpay. by destruct (_ && _).
Qed.

Lemma finds_intro dbs a b p n q :
  default_probing dbs →
  probe_first LLMSSET_MASK dbs false a b = Some p →
  probe_nth LLMSSET_MASK dbs false a b n p = Some q →
  passes LLMSSET_MASK dbs a b false
    (Z.land (rehash16_mul a b HASH_SEED) MASK_HASH) p n →
  rd (table dbs) (p_idx q) ≠ 0 →
  Z.land (rehash16_mul a b HASH_SEED) MASK_HASH
  = Z.land (rd (table dbs) (p_idx q)) MASK_HASH →
  payload dbs (Z.land (rd (table dbs) (p_idx q)) MASK_INDEX) = (a, b) →
  finds LLMSSET_MASK dbs a b (Z.land (rd (table dbs) (p_idx q)) MASK_INDEX).
Proof.
  intros (_ & Ht & Hth) Hp Hn Hpass Hv Hh Hpay me fuel Hfuel.
  pose proof (probe_nth_bound _ _ _ _ _ _ _ _ Ht Hth Hp Hn) as Hb.
  apply (lookup_run fuel me dbs a b p n q); [exact Hp | lia | exact Hn | exact Hpass |].
  apply end_found; [done | done |]. by apply payload_equal_default.
Qed.

Lemma finds_inv dbs a b idx :
  finds LLMSSET_MASK dbs a b idx →
  ∃ p n q,
    probe_first LLMSSET_MASK dbs false a b = Some p
    ∧ probe_nth LLMSSET_MASK dbs false a b n p = Some q
    ∧ passes LLMSSET_MASK dbs a b false
        (Z.land (rehash16_mul a b HASH_SEED) MASK_HASH) p n
    ∧ rd (table dbs) (p_idx q) ≠ 0
    ∧ Z.land (rehash16_mul a b HASH_SEED) MASK_HASH
      = Z.land (rd (table dbs) (p_idx q)) MASK_HASH
    ∧ payload dbs idx = (a, b)
    ∧ idx = Z.land (rd (table dbs) (p_idx q)) MASK_INDEX.
Proof.
  intros H.
  assert (Hfuel : 8 * threshold dbs <= Z.of_nat (Z.to_nat (8 * threshold dbs))) by lia.
  apply (H (mk_worker 0 1)) in Hfuel as H'. clear H Hfuel. rename H' into H.
  apply lookup_inv in H as (p & n & q & Hp & _ & Hn & Hpass & Hend).
  exists p, n, q. inversion Hend; subst.
  repeat split; try done. by apply payload_equal_default.
Qed.

Lemma finds_kept d d' a b idx :
  default_probing d → keeps_entries d d' →
  finds LLMSSET_MASK d a b idx → finds LLMSSET_MASK d' a b idx.
Proof.
  intros Hd Hk Hf.
  destruct (finds_inv _ _ _ _ Hf) as (p & n & q & Hp & Hn & Hpass & Hv & Hh & Hpay & ->).
  pose proof Hk as [Hs Hke]. destruct (Hke _ Hv) as [Ht Hpay'].
  rewrite <- Ht. apply (finds_intro d' a b p n q).
  - destruct Hs as (Hs1 & Hs2 & Hs3 & Hs4), Hd as (? & ? & ?).
    unfold default_probing. by rewrite Hs4, Hs2, Hs1.
  - by rewrite (probe_first_same d d').
  - by rewrite (probe_nth_same d d').
  - by apply (passes_kept d d').
  - by rewrite Ht.
  - by rewrite Ht.
  - rewrite Ht. congruence.
Qed.


Lemma keeps_entries_refl d : keeps_entries d d.
Proof. split; [done|]. by intros y Hy. Qed.

(** A call of [llmsset_lookup] keeps the entries of the table and the
    payloads of their buckets. *)
Lemma lookup_keeps_entries fuel me dbs a b d' idx cr :
  table_ok LLMSSET_MASK dbs →
  llmsset_lookup LLMSSET_MASK fuel me dbs a b = Some (d', idx, cr) →
  keeps_entries dbs d'.
Proof.
  intros Hok H. apply lookup_inv in H as (p & n & q & Hp & Hlt & Hn & Hpass & Hend).
  inversion Hend as [d1 c Hz Hc Hne|d1 Hz Hc| |]; subst;
    try apply keeps_entries_refl.
  - destruct (created_shape _ _ _ a b
                (Z.land (rehash16_mul a b HASH_SEED) MASK_HASH) (p_idx q) _ _
                Hok Hc Hne)
      as (Hcr & Hclear & Hsame & Htab & Hbm' & Hreg1 & Hpay).
    split; [done|]. intros y Hy.
    destruct (table_ok_entry dbs y Hok Hy) as (k & Hk & Hb & He & Hi & Hr).
    rewrite Htab, rd_wr_ne by (by intros <-). split; [done|].
    rewrite Hi, Hpay, decide_False; [done | congruence].
  - destruct (claim_failed _ _ _ _ Hok Hc) as [Hf Hbm].
    split; [by rewrite Hf|]. intros y Hy. unfold payload.
    by rewrite (claim_frame_table _ _ Hf), (claim_frame_data _ _ Hf).
Qed.

(** The index that a lookup returns: the bucket is not reserved, lies in the
    table, is in use and holds the payload, and from then on the lookup of
    the payload finds it. *)
Lemma lookup_result_ok fuel me dbs a b d' idx created :
  table_ok LLMSSET_MASK dbs →
  llmsset_lookup LLMSSET_MASK fuel me dbs a b = Some (d', idx, Some created) →
  2 <= idx < table_size dbs
  ∧ payload d' idx = (a, b)
  ∧ bit_set (bitmap2 d') idx = true
  ∧ bit_set (bitmap2 dbs) idx = negb created
  ∧ (created = false → d' = dbs)
  ∧ finds LLMSSET_MASK d' a b idx.
Proof.
  intros Hok H. pose proof (lookup_table_ok _ _ _ _ _ _ _ _ Hok H) as Hok'.
  pose proof (lookup_keeps_entries _ _ _ _ _ _ _ _ Hok H) as Hkeep.
  apply lookup_inv in H as (p & n & q & Hp & Hlt & Hn & Hpass & Hend).
  set (hash := Z.land (rehash16_mul a b HASH_SEED) MASK_HASH) in *.
  inversion Hend as [d1 c Hz Hc Hne| |Hv Hh He|]; subst.
  - destruct (created_shape _ _ _ a b hash (p_idx q) _ _ Hok Hc Hne)
      as (Hcr & Hclear & Hsame & Htab & Hbm' & Hreg1 & Hpay).
    set (d' := published _ _ _ _ _ _ _) in *.
    assert (Hpc : payload d' idx = (a, b)) by (by rewrite Hpay, decide_True).
    assert (Hh : 0 <= rehash16_mul a b HASH_SEED < 2 ^ 64) by apply rehash16_mul_range.
    destruct (entry_fields _ idx Hh ltac:(destruct Hok as (_ & ? & _); lia))
      as (Hr & Htag & Hci). fold hash in Hr, Htag, Hci.
    assert (Hv : rd (table d') (p_idx q) = Z.lor hash idx) by (by rewrite Htab, rd_wr_eq).
    split; [done|]. split; [done|].
    split; [by rewrite Hbm', bit_set_lor, Z.eqb_refl|].
    split; [done|]. split; [done|].
    rewrite <- Hci, <- land_mask_index, <- Hv.
    apply (finds_intro d' a b p n q).
    + apply Hok'.
    + by rewrite (probe_first_same dbs d').
    + by rewrite (probe_nth_same dbs d').
    + by apply (passes_kept dbs d').
    + rewrite Hv. apply entry_nonzero; lia.
    + rewrite Hv. symmetry. apply same_tag; [done | done | done].
    + rewrite Hv, land_mask_index, Hci. exact Hpc.
  - destruct (table_ok_entry d' _ Hok Hv) as (k & Hk & Hb & Hek & Hi & Hr).
    apply payload_equal_default in He. rewrite Hi in *.
    split; [done|]. split; [done|]. split; [done|]. split; [done|].
    split; [done|]. rewrite <- Hi.
    apply (finds_intro d' a b p n q); try done; [apply Hok | by rewrite Hi].
Qed.


Lemma lookup_steps_ok d d' a b idx :
  table_ok LLMSSET_MASK d → finds LLMSSET_MASK d a b idx →
  rtc (lookup_step LLMSSET_MASK) d d' →
  table_ok LLMSSET_MASK d' ∧ finds LLMSSET_MASK d' a b idx.
Proof.
  intros Hok Hf Hsteps. induction Hsteps as [d|d d1 d2 Hstep _ IH]; [done|].
  destruct Hstep as (fuel & me & a' & b' & idx' & cr & Hrun).
  apply IH.
  - by eapply lookup_table_ok.
  - eapply finds_kept; [apply Hok | by eapply lookup_keeps_entries | done].
Qed.

(** ** Termination *)

Lemma claim_region_spec bm1 regions count : ∀ r0 bm1' r,
  0 < regions →
  claim_region bm1 regions count r0 = (Some bm1', r) →
  0 <= r < regions
  ∧ bit_set bm1 r = false
  ∧ bm1' = wr bm1 (r / 64) (Z.lor (rd bm1 (r / 64)) (bit_mask r)).
Proof.
  induction count as [|count IH]; intros r0 bm1' r Hreg; cbn [claim_region]; [done|].
  rewrite mask_test.
  destruct (bit_set bm1 (next_region regions r0)) eqn:E; [by apply IH|].
  rewrite cas_same. cbn [fst]. intros [= <- <-].
  pose proof (next_region_range regions r0). split; [lia|]. done.
Qed.

Lemma count_set_ext n bm bm' : ∀ first,
  (∀ y, first <= y < first + Z.of_nat n → bit_set bm' y = bit_set bm y) →
  count_set n bm' first = count_set n bm first.
Proof.
  induction n as [|n IH]; intros first H; cbn [count_set]; [done|].
  rewrite H by lia. f_equal. apply IH. intros y Hy. apply H. lia.
Qed.

(** Setting a clear bit of a range raises the count of the range by one. *)
Lemma count_set_set n bm r : ∀ first,
  first <= r < first + Z.of_nat n → bit_set bm r = false →
  count_set n (wr bm (r / 64) (Z.lor (rd bm (r / 64)) (bit_mask r))) first
  = count_set n bm first + 1.
Proof.
  induction n as [|n IH]; intros first Hr Hb; cbn [count_set]; [lia|].
  rewrite bit_set_lor. destruct (Z.eqb_spec first r) as [->|Hne].
  - rewrite Hb. cbn [orb].
    rewrite (count_set_ext n bm); [lia|].
    intros y Hy. rewrite bit_set_lor.
    by destruct (Z.eqb_spec y r); [lia|].
  - cbn [orb]. rewrite IH by (done || lia). lia.
Qed.

(** Every turn of the loop of [claim_data_bucket] that does not return
    takes a region: the loop ends after one turn more than there are
    regions without an owner. *)
Lemma claim_loop_total fuel me : ∀ dbs r0,
  0 <= table_size dbs →
  free_regions dbs < Z.of_nat fuel →
  ∃ res, claim_data_bucket_loop fuel me dbs r0 = Some res.
Proof.
  induction fuel as [|fuel IH]; intros dbs r0 Hts Hfree.
  - unfold free_regions in Hfree.
    pose proof (count_set_bounds (Z.to_nat (table_size dbs / 512)) (bitmap1 dbs) 0).
    assert (0 <= table_size dbs / 512) by (Z.div_mod_to_equations; lia). lia.
  - cbn [claim_data_bucket_loop].
    assert (Hsearch : ∀ r1, ∃ res,
      match claim_region (bitmap1 dbs) (table_size dbs / (64 * 8))
              (Z.to_nat (table_size dbs / (64 * 8))) r1 with
      | (Some bm1, r) =>
          claim_data_bucket_loop fuel me (put_my_region (set_bitmap1 dbs bm1) me r) r
      | (None, r) => Some (put_my_region dbs me r, MINUS_ONE)
      end = Some res).
    { intros r1. destruct (claim_region _ _ _ r1) as [[bm1|] r] eqn:Hcr; [|eauto].
      change (64 * 8) with 512 in Hcr.
      assert (Hpos : 0 < table_size dbs / 512).
      { destruct (Z.to_nat (table_size dbs / 512)) eqn:E; [done | lia]. }
      apply claim_region_spec in Hcr as (Hr & Hb & ->); [|done].
      apply IH; [done|]. unfold free_regions in *.
      cbn [table_size bitmap1 put_my_region set_my_region set_bitmap1].
      rewrite count_set_set by (done || lia). lia. }
    destruct (negb (r0 =? MINUS_ONE)); [|apply Hsearch].
    destruct (find_free (bitmap2 dbs) (r0 * 8) 0 8) as [[i j]|]; [eauto|].
    apply Hsearch.
Qed.

Lemma free_regions_bound dbs : free_regions dbs <= Z.max 0 (table_size dbs / 512).
Proof.
  unfold free_regions.
  pose proof (count_set_bounds (Z.to_nat (table_size dbs / 512)) (bitmap1 dbs) 0). lia.
Qed.

(** The loop of [llmsset_lookup2] ends within the steps that the probe has
    left. *)
Lemma lookup2_loop_total cfuel me dbs a b hash fuel : ∀ p,
  0 < table_size dbs → table_size dbs / 512 < Z.of_nat cfuel →
  probe_ok dbs p → probe_left dbs p < Z.of_nat fuel →
  ∃ r, lookup2_loop LLMSSET_MASK cfuel fuel me dbs a b false hash 0 p = Some r.
Proof.
  induction fuel as [|fuel IH]; intros p Ht Hc Hp Hl.
  - pose proof (probe_left_nonneg dbs p Hp). lia.
  - rewrite lookup2_loop_step.
    destruct (rd (table dbs) (p_idx p) =? 0).
    + destruct (claim_loop_total cfuel me dbs (get_my_region dbs me)) as [[d1 c] Hcl];
        [lia | pose proof (free_regions_bound dbs);
               assert (0 <= table_size dbs / 512) by (Z.div_mod_to_equations; lia); lia |].
      unfold claim_data_bucket. rewrite Hcl. destruct (c =? MINUS_ONE); eauto.
    + rewrite lookup2_match_default. destruct (_ && _); [eauto|].
      pose proof (probe_next_left LLMSSET_MASK dbs false a b p Ht Hp) as Hstep.
      destruct (probe_next LLMSSET_MASK dbs false a b p) as [[q|]|]; [|eauto|done].
      destruct Hstep as [Hq Hlq]. apply IH; [done..|lia].
Qed.

Lemma lookup_total_default fuel me dbs a b :
  0 < table_size dbs → 0 < threshold dbs →
  8 * threshold dbs <= Z.of_nat fuel → table_size dbs / 512 < Z.of_nat fuel →
  ∃ r, llmsset_lookup LLMSSET_MASK fuel me dbs a b = Some r.
Proof.
  intros Ht Hth Hfuel Hc. rewrite llmsset_lookup_unfold.
  destruct (probe_first_ok LLMSSET_MASK dbs false a b _ Ht Hth eq_refl) as [Hok Hleft].
  apply lookup2_loop_total; [done | done | exact Hok | lia].
Qed.


(** ** The table that [llmsset_create] returns *)

Lemma create_ok initial_size max_size dbs :
  llmsset_create LLMSSET_MASK initial_size max_size = Some dbs →
  initial_size <= 2 ^ 44 →
  table_ok LLMSSET_MASK dbs ∧ table_size dbs = initial_size ∧ table dbs = ∅.
Proof.
  unfold llmsset_create.
  destruct (LLMSSET_MASK && negb (popcountll initial_size =? 1)); [done|].
  destruct (LLMSSET_MASK && negb (popcountll max_size =? 1)); [done|].
  destruct (max_size <? initial_size); [done|].
  destruct (Z.ltb_spec initial_size 512); [done|].
  destruct (max_size / (512 * 8) =? 0); [done|].
  intros [= <-] Hle. split; [|done].
  split.
  { split; [done|]. cbn. split; [lia|].
    pose proof (Z.log2_le_mono 512 initial_size ltac:(lia)) as Hl.
    change (Z.log2 512) with 9 in Hl. lia. }
  split; [cbn; lia|].
  split.
  { apply words_ok_wr; [|lia]. apply map_Forall_empty. }
  split; [intros me; by left|].
  cbn [bitmap2 llmsset_reset_region set_my_region set_bitmap2 llmsset_set_size].
  rewrite !reserved_bits.
  split; [done|]. split; [done|].
  split; intros slot Hs; cbn in Hs; by rewrite rd_empty in Hs.
Qed.


Lemma lookup_steps_table_ok d d' :
  table_ok LLMSSET_MASK d → rtc (lookup_step LLMSSET_MASK) d d' →
  table_ok LLMSSET_MASK d' ∧ threshold d' = threshold d
  ∧ table_size d' = table_size d.
Proof.
  intros Hok Hsteps. induction Hsteps as [d|d d1 d2 Hstep _ IH]; [done|].
  destruct Hstep as (fuel & me & a & b & idx & cr & Hrun).
  destruct (lookup_keeps_entries _ _ _ _ _ _ _ _ Hok Hrun) as [(Ht & Hs & _) _].
  rewrite <- Ht, <- Hs. apply IH. by eapply lookup_table_ok.
Qed.

(** ** What holds of the tables without custom callbacks *)

(** X1.  [llmsset_create] returns only for sizes with
    [512 <= initial_size <= max_size] and [4096 <= max_size]; otherwise it
    exits.  The table that it returns, for an initial size of at most 2^44
    buckets, is well formed: no callback is registered, the directory is
    empty, the buckets 0 and 1 and no others are in use, and no worker owns
    a region. *)
Theorem create_table_ok (initial_size max_size : Z) (dbs : llmsset) :
  llmsset_create LLMSSET_MASK initial_size max_size = Some dbs →
  initial_size <= 2 ^ 44 →
  512 <= initial_size <= max_size ∧ 4096 <= max_size
  ∧ table_ok LLMSSET_MASK dbs
  ∧ table_size dbs = initial_size
  ∧ (∀ slot, rd (table dbs) slot = 0)
  ∧ (∀ y, llmsset_is_marked dbs y = (y =? 0) || (y =? 1))
  ∧ (∀ me, get_my_region dbs me = MINUS_ONE).
Proof.
  intros Hc Hle. destruct (create_ok _ _ _ Hc Hle) as (Hok & Hts & Ht).
  revert Hc. unfold llmsset_create.
  destruct (_ && _); [done|]. destruct (_ && _); [done|].
  destruct (Z.ltb_spec max_size initial_size); [done|].
  destruct (Z.ltb_spec initial_size 512); [done|].
  destruct (Z.eqb_spec (max_size / (512 * 8)) 0) as [|Hmap]; [done|].
  intros [= <-].
  split; [lia|]. split; [Z.div_mod_to_equations; lia|].
  split; [done|]. split; [done|].
  split; [intros slot; by rewrite Ht, rd_empty|].
  split; [|done].
  intros y. rewrite is_marked_bit. apply reserved_bits.
Qed.

(** X2.  A call of [llmsset_lookup] on a well-formed table leaves a
    well-formed table, whatever it returns. *)
Theorem lookup_keeps_table_ok (fuel : nat) (me : lace_worker) (dbs : llmsset)
    (a b : Z) (d' : llmsset) (idx : Z) (cr : option bool) :
  table_ok LLMSSET_MASK dbs →
  llmsset_lookup LLMSSET_MASK fuel me dbs a b = Some (d', idx, cr) →
  table_ok LLMSSET_MASK d'.
Proof. apply lookup_table_ok. Qed.

(** X3.  What [llmsset_lookup] returns on a well-formed table.  When it
    stores nothing in [created] it returns 0.  Otherwise the index is at
    least 2 and below [table_size], the bucket holds the payload and is in
    use afterwards; it was free before exactly when [created] is 1, and a
    call with [created] 0 leaves the table as it was. *)
Theorem lookup_index_in_use (fuel : nat) (me : lace_worker) (dbs : llmsset)
    (a b : Z) (d' : llmsset) (idx : Z) (cr : option bool) :
  table_ok LLMSSET_MASK dbs →
  llmsset_lookup LLMSSET_MASK fuel me dbs a b = Some (d', idx, cr) →
  match cr with
  | None => idx = 0
  | Some created =>
      2 <= idx < table_size dbs
      ∧ payload d' idx = (a, b)
      ∧ llmsset_is_marked d' idx = true
      ∧ llmsset_is_marked dbs idx = negb created
      ∧ (created = false → d' = dbs)
  end.
Proof.
  intros Hok Hrun. destruct cr as [created|].
  - rewrite !is_marked_bit.
    destruct (lookup_result_ok _ _ _ _ _ _ _ _ Hok Hrun) as (? & ? & ? & ? & ? & _).
    done.
  - apply lookup_inv in Hrun as (p & n & q & _ & _ & _ & _ & Hend).
    by inversion Hend.
Qed.

(** X4.  The occupancy invariant without callbacks.  In every table that
    calls of [llmsset_lookup] make of a well-formed table, an entry of the
    directory names a bucket from 2 on that lies in the table and is in
    use, and the entry is the word of the payload of that bucket. *)
Theorem occupied_slots_in_use (d0 d : llmsset) (slot : Z) :
  table_ok LLMSSET_MASK d0 →
  rtc (lookup_step LLMSSET_MASK) d0 d →
  rd (table d) slot ≠ 0 →
  2 <= slot_index (rd (table d) slot) < table_size d0
  ∧ llmsset_is_marked d (slot_index (rd (table d) slot)) = true
  ∧ rd (table d) slot = entry_of d (slot_index (rd (table d) slot)).
Proof.
  intros Hok Hsteps Hv.
  destruct (lookup_steps_table_ok _ _ Hok Hsteps) as (Hok' & _ & Hts').
  destruct (table_ok_entry d slot Hok' Hv) as (k & Hk & Hb & He & Hi & _).
  rewrite <- land_mask_index, Hi, is_marked_bit. split; [lia|]. done.
Qed.

(** X5.  The index of a payload is canonical without callbacks.  Once
    [llmsset_lookup] has returned an index for a payload, found or created,
    every later call for the payload returns the same index with [created]
    0 and changes nothing, whatever other lookups happen in between and
    whichever worker calls. *)
Theorem canonical_index (fuel : nat) (me : lace_worker) (dbs : llmsset)
    (a b : Z) (d1 : llmsset) (idx : Z) (created : bool) (d2 : llmsset)
    (fuel' : nat) (me' : lace_worker) :
  table_ok LLMSSET_MASK dbs →
  llmsset_lookup LLMSSET_MASK fuel me dbs a b = Some (d1, idx, Some created) →
  rtc (lookup_step LLMSSET_MASK) d1 d2 →
  8 * threshold dbs <= Z.of_nat fuel' →
  llmsset_lookup LLMSSET_MASK fuel' me' d2 a b = Some (d2, idx, Some false).
Proof.
  intros Hok Hrun Hsteps Hfuel.
  pose proof (lookup_table_ok _ _ _ _ _ _ _ _ Hok Hrun) as Hok1.
  destruct (lookup_keeps_entries _ _ _ _ _ _ _ _ Hok Hrun) as [(Ht & _) _].
  destruct (lookup_result_ok _ _ _ _ _ _ _ _ Hok Hrun) as (_ & _ & _ & _ & _ & Hf).
  destruct (lookup_steps_ok _ _ _ _ _ Hok1 Hf Hsteps) as [_ Hf2].
  destruct (lookup_steps_table_ok _ _ Hok1 Hsteps) as (_ & Ht2 & _).
  apply Hf2. by rewrite Ht2, Ht.
Qed.

(** X6.  One index, one payload: two payloads that [llmsset_lookup] finds
    at the same index of a table are the same payload. *)
Theorem one_index_one_payload (dbs : llmsset) (idx a b a' b' : Z)
    (fuel fuel' : nat) (me me' : lace_worker) :
  llmsset_lookup LLMSSET_MASK fuel me dbs a b = Some (dbs, idx, Some false) →
  llmsset_lookup LLMSSET_MASK fuel' me' dbs a' b' = Some (dbs, idx, Some false) →
  a = a' ∧ b = b'.
Proof.
  intros H1 H2.
  apply lookup_inv in H1 as (p & n & q & _ & _ & _ & _ & Hend).
  apply lookup_inv in H2 as (p' & n' & q' & _ & _ & _ & _ & Hend').
  inversion Hend as [| |Hv Hh He|]. inversion Hend' as [| |Hv' Hh' He'|].
  apply payload_equal_default in He, He'. split; congruence.
Qed.

(** X7.  Without a hash callback [llmsset_lookup] returns: its probe takes
    at most [8 * threshold] steps, and the claim of a bucket at most one
    turn more than the table has regions. *)
Theorem lookup_terminates (fuel : nat) (me : lace_worker) (dbs : llmsset)
    (a b : Z) :
  0 < table_size dbs → 0 < threshold dbs →
  8 * threshold dbs <= Z.of_nat fuel → table_size dbs / 512 < Z.of_nat fuel →
  ∃ d' idx cr, llmsset_lookup LLMSSET_MASK fuel me dbs a b = Some (d', idx, cr).
Proof.
  intros Ht Hth Hf Hc.
  destruct (lookup_total_default fuel me dbs a b Ht Hth Hf Hc) as [[[d' idx] cr] H].
  by exists d', idx, cr.
Qed.

(** X8.  The rehash sweep of a garbage collection.  Without custom
    callbacks, after the table is cleared and the live buckets are marked,
    [llmsset_rehash] ends.  It changes the directory only: the payloads and
    the marks stay, the marked buckets are the live ones and the buckets 0
    and 1, and every entry of the new directory is the word of a marked
    bucket of the table. *)
Theorem rehash_entries_marked (dbs : llmsset) (live : list Z) (fuel : nat) :
  hash_cb dbs = None → 0 < table_size dbs <= 2 ^ 44 → 0 < threshold dbs →
  8 * threshold dbs <= Z.of_nat fuel →
  ∃ dbs',
    llmsset_rehash LLMSSET_MASK fuel (clear_and_mark dbs live) = Some dbs'
    ∧ data dbs' = data dbs
    ∧ (∀ y, llmsset_is_marked dbs' y = bool_decide (y ∈ live) || (y =? 0) || (y =? 1))
    ∧ ∀ slot, rd (table dbs') slot ≠ 0 →
        0 <= slot_index (rd (table dbs') slot) < table_size dbs
        ∧ llmsset_is_marked dbs' (slot_index (rd (table dbs') slot)) = true
        ∧ rd (table dbs') slot = entry_of dbs (slot_index (rd (table dbs') slot)).
Proof.
  intros Hcb Hts Hth Hfuel.
  destruct (clear_and_mark_spec dbs live) as [Hf2 Hb2].
  remember (clear_and_mark dbs live) as d2 eqn:E. clear E.
  assert (Hd2 : default_probing d2).
  { rewrite Hf2. split; [exact Hcb|]. split; [apply Hts | exact Hth]. }
  assert (Hi2 : rehashed LLMSSET_MASK d2).
  { intros slot Hs. rewrite Hf2 in Hs. cbn in Hs. by rewrite rd_empty in Hs. }
  destruct (rehash_par_spec LLMSSET_MASK fuel d2 0 (table_size d2))
    as (d3 & Hrun & Hf3 & Hi3);
    [done | by rewrite Hf2 | done | lia | rewrite Hf2; cbn; lia | lia |].
  exists d3. split; [exact Hrun|].
  assert (Hdata : data d3 = data dbs) by (rewrite Hf3, Hf2; reflexivity).
  assert (Hsize : table_size d3 = table_size dbs) by (rewrite Hf3, Hf2; reflexivity).
  assert (Hbm : bitmap2 d3 = bitmap2 d2) by (by rewrite Hf3).
  split; [exact Hdata|].
  split; [intros y; by rewrite is_marked_bit, Hbm|].
  intros slot Hv. destruct (Hi3 slot Hv) as (k & Hk & Hbk & He & _).
  destruct (entry_of_fields d3 k ltac:(lia)) as (_ & _ & Hki).
  rewrite <- land_mask_index, He, Hki, is_marked_bit.
  split; [lia|]. split; [done|].
  unfold entry_of, payload. by rewrite Hdata.
Qed.

(** ** The allocator, the clearing and the custom lookup *)

(** X9.  A claim that hands out a bucket touches neither the directory nor
    the payloads; the bucket was free, its bit and no other bit of
    [bitmap2] is set by the claim, and the bucket lies in the region that
    the worker owns afterwards. *)
Theorem claim_data_bucket_spec (cfuel : nat) (me : lace_worker)
    (dbs d1 : llmsset) (c : Z) :
  words_ok (bitmap2 dbs) → 0 <= table_size dbs < 2 ^ 64 → region_ok dbs me →
  claim_data_bucket cfuel me dbs = Some (d1, c) → c ≠ MINUS_ONE →
  table d1 = table dbs ∧ data d1 = data dbs
  ∧ llmsset_is_marked dbs c = false
  ∧ (∀ y, llmsset_is_marked d1 y = (y =? c) || llmsset_is_marked dbs y)
  ∧ c / 512 = get_my_region d1 me.
Proof.
  intros Hw Hts Hreg Hc Hne.
  destruct (claim_success _ _ _ _ _ Hw Hts Hreg Hc Hne)
    as (Hf & _ & Hclear & Hbm & _ & _ & Hq & _).
  split; [by apply claim_frame_table|]. split; [by apply claim_frame_data|].
  rewrite is_marked_bit. split; [done|]. split; [|done].
  intros y. rewrite !is_marked_bit, Hbm. apply bit_set_lor.
Qed.

(** X11.  A call of [llmsset_lookupc] that creates an entry leaves the
    [bitmap2] bit of the index it returns set: the clearing of the bit
    happens in [llmsset_lookup] only. *)
Theorem lookupc_keeps_occupancy (fuel : nat) (me : lace_worker)
    (dbs d' : llmsset) (a b idx : Z) :
  llmsset_lookupc LLMSSET_MASK fuel me dbs a b = Some (d', idx, Some true) →
  llmsset_is_marked d' idx = true.
Proof.
  unfold llmsset_lookupc, llmsset_lookup2.
  destruct (probe_first LLMSSET_MASK dbs true a b) as [p|]; [|done].
  intros H. apply lookup2_loop_inv in H as (n & q & _ & _ & _ & Hend).
  inversion Hend as [d1 c Hz Hc Hne| | |]; subst.
  rewrite is_marked_bit. unfold published, set_custom_bucket. cbn [orb bitmap2 set_bitmap2].
  by rewrite bit_set_lor, Z.eqb_refl.
Qed.

(** ** Counting the buckets in use *)

Lemma count_marked_set dbs :
  0 <= table_size dbs < 2 ^ 64 →
  llmsset_count_marked dbs = count_set (Z.to_nat (table_size dbs)) (bitmap2 dbs) 0.
Proof. apply count_marked_par_spec. Qed.

(** X12.  [llmsset_count_marked] returns a number between 0 and
    [table_size]. *)
Theorem count_marked_bounds (dbs : llmsset) :
  0 <= table_size dbs < 2 ^ 64 →
  0 <= llmsset_count_marked dbs <= table_size dbs.
Proof.
  intros Hts. rewrite count_marked_set by done.
  pose proof (count_set_bounds (Z.to_nat (table_size dbs)) (bitmap2 dbs) 0). lia.
Qed.

(** X13.  A call of [llmsset_mark] that returns true, on a bucket of the
    table, raises the count of [llmsset_count_marked] by one; a call that
    returns false leaves the count as it is. *)
Theorem mark_raises_count (dbs : llmsset) (x : Z) :
  0 <= table_size dbs < 2 ^ 64 → 0 <= x < table_size dbs →
  llmsset_count_marked (llmsset_mark dbs x).1
  = llmsset_count_marked dbs + (if (llmsset_mark dbs x).2 then 1 else 0).
Proof.
  intros Hts Hx. destruct (bit_set (bitmap2 dbs) x) eqn:Hb.
  - rewrite mark_set by done. cbn [fst snd]. lia.
  - rewrite mark_clear by done. cbn [fst snd].
    rewrite !count_marked_set by done. cbn [table_size bitmap2 set_bitmap2].
    apply count_set_set; [lia | done].
Qed.

(** X14.  A lookup that creates an entry in a well-formed table raises the
    count of [llmsset_count_marked] by one. *)
Theorem created_raises_count (fuel : nat) (me : lace_worker) (dbs d' : llmsset)
    (a b idx : Z) :
  table_ok LLMSSET_MASK dbs →
  llmsset_lookup LLMSSET_MASK fuel me dbs a b = Some (d', idx, Some true) →
  llmsset_count_marked d' = llmsset_count_marked dbs + 1.
Proof.
  intros Hok H. pose proof Hok as (_ & Hts & _).
  apply lookup_inv in H as (p & n & q & _ & _ & _ & _ & Hend).
  inversion Hend as [d1 c Hz Hc Hne| | |]; subst.
  destruct (created_shape _ _ _ a b
              (Z.land (rehash16_mul a b HASH_SEED) MASK_HASH) (p_idx q) _ _
              Hok Hc Hne)
    as (Hcr & Hclear & (_ & Hs & _) & _ & Hbm' & _).
  rewrite !count_marked_set by lia. rewrite Hs, Hbm'.
  apply count_set_set; [lia | done].
Qed.

(** ** Requests for notification *)

(** X15.  [llmsset_notify_ondead] sets the [bitmap3] bit of the index and
    nothing else, and a second call for the same index changes nothing. *)
Theorem notify_ondead_spec (dbs : llmsset) (i : Z) :
  llmsset_notify_ondead dbs i
  = set_bitmap3 dbs (bitmap3 (llmsset_notify_ondead dbs i))
  ∧ (∀ y, bit_set (bitmap3 (llmsset_notify_ondead dbs i)) y
          = (y =? i) || bit_set (bitmap3 dbs) y)
  ∧ llmsset_notify_ondead (llmsset_notify_ondead dbs i) i
    = llmsset_notify_ondead dbs i.
Proof.
  assert (Hset : ∀ d, bit_set (bitmap3 d) i = true → llmsset_notify_ondead d i = d).
  { intros d Hb. unfold llmsset_notify_ondead. by rewrite mask_test, Hb. }
  destruct (bit_set (bitmap3 dbs) i) eqn:Hb.
  - rewrite !Hset by done. split; [by destruct dbs|]. split; [|done].
    intros y. destruct (Z.eqb_spec y i) as [->|]; [by rewrite Hb | done].
  - assert (E : llmsset_notify_ondead dbs i
                = set_bitmap3 dbs (wr (bitmap3 dbs) (i / 64)
                                     (Z.lor (rd (bitmap3 dbs) (i / 64)) (bit_mask i)))).
    { unfold llmsset_notify_ondead. by rewrite mask_test, Hb, cas_same. }
    rewrite E. cbn [bitmap3 set_bitmap3]. split; [done|].
    split; [intros y; apply bit_set_lor|].
    apply Hset. cbn [bitmap3 set_bitmap3]. by rewrite bit_set_lor, Z.eqb_refl.
Qed.

Lemma count_set_none n bm : ∀ first,
  (∀ y, first <= y < first + Z.of_nat n → bit_set bm y = false) →
  count_set n bm first = 0.
Proof.
  induction n as [|n IH]; intros first H; cbn [count_set]; [done|].
  rewrite H by lia. rewrite IH; [done|]. intros y Hy. apply H. lia.
Qed.

Lemma count_reserved n :
  (2 <= n)%nat → count_set n (wr ∅ 0 0xc000000000000000) 0 = 2.
Proof.
  intros Hn. replace n with (2 + (n - 2))%nat by lia.
  rewrite count_set_app. cbn [count_set]. rewrite !reserved_bits. cbn.
  rewrite count_set_none; [done|].
  intros y Hy. rewrite reserved_bits.
  by destruct (Z.eqb_spec y 0), (Z.eqb_spec y 1); try lia.
Qed.

(** ** A claim and its release *)

(** X16.  Releasing the bucket that a claim has handed out restores
    [bitmap2], word for word; the directory and the payloads are as before
    the claim. *)
Theorem release_undoes_claim (cfuel : nat) (me : lace_worker)
    (dbs d1 : llmsset) (c : Z) :
  words_ok (bitmap2 dbs) → 0 <= table_size dbs < 2 ^ 64 → region_ok dbs me →
  claim_data_bucket cfuel me dbs = Some (d1, c) → c ≠ MINUS_ONE →
  (∀ w, rd (bitmap2 (release_data_bucket d1 c)) w = rd (bitmap2 dbs) w)
  ∧ table (release_data_bucket d1 c) = table dbs
  ∧ data (release_data_bucket d1 c) = data dbs.
Proof.
  intros Hw Hts Hreg Hc Hne.
  destruct (claim_success _ _ _ _ _ Hw Hts Hreg Hc Hne)
    as (Hf & _ & Hclear & Hbm & _).
  split; [|split; [exact (claim_frame_table _ _ Hf) | exact (claim_frame_data _ _ Hf)]].
  intros w. unfold release_data_bucket. cbn [bitmap2 set_bitmap2]. rewrite Hbm.
  destruct (decide (c / 64 = w)) as [<-|E]; [|by rewrite !rd_wr_ne].
  rewrite !rd_wr_eq, bit_mask_pow2. apply lor_land_not_cancel.
  - by apply words_ok_rd.
  - apply bit_pos_range.
  - exact Hclear.
Qed.


(** ** Re-inserting a bucket *)

(** X17. A re-insert never overwrites an entry, and it touches the
    directory only.  It walks the probe sequence of the payload of the
    bucket over slots that hold entries.  It returns 1 after it has put the
    word [(hash & MASK_HASH) | d_idx] into the first empty slot on its way,
    where [hash] is the hash of the payload from the seed, by [hash_cb] for
    a bucket with the custom flag and by the default hash otherwise.  It
    returns 0 and leaves the table as it is when it has found an entry in
    every slot of the sequence. *)
Theorem rehash_bucket_never_overwrites (fuel : nat) (dbs d' : llmsset)
    (k : Z) (ok : bool) :
  llmsset_rehash_bucket LLMSSET_MASK fuel dbs k = Some (d', ok) →
  let a := (payload dbs k).1 in
  let b := (payload dbs k).2 in
  let custom := has_hash_cb dbs && get_custom_bucket dbs k in
  d' = set_table dbs (table d')
  ∧ (∀ y, rd (table dbs) y ≠ 0 → rd (table d') y = rd (table dbs) y)
  ∧ ∃ hash p n q,
      next_hash dbs custom a b HASH_SEED = Some hash
      ∧ probe_first LLMSSET_MASK dbs custom a b = Some p
      ∧ p_hash_rehash p = hash
      ∧ probe_nth LLMSSET_MASK dbs custom a b n p = Some q
      ∧ occupied_before LLMSSET_MASK dbs custom a b p n
      ∧ if ok
        then rd (table dbs) (p_idx q) = 0
             ∧ table d' = wr (table dbs) (p_idx q) (Z.lor (Z.land hash MASK_HASH) k)
        else rd (table dbs) (p_idx q) ≠ 0
             ∧ probe_next LLMSSET_MASK dbs custom a b q = Some None
             ∧ d' = dbs.
Proof.
  unfold llmsset_rehash_bucket, payload. cbn [fst snd]. cbv zeta.
  destruct (probe_first LLMSSET_MASK dbs _ _ _) as [p|] eqn:Hp; [|done].
  intros H. apply rehash_bucket_loop_inv in H as (n & q & Hn & Hocc & Hend).
  assert (Hh : next_hash dbs (has_hash_cb dbs && get_custom_bucket dbs k)
                 (rd (data dbs) (2 * k)) (rd (data dbs) (2 * k + 1)) HASH_SEED
               = Some (p_hash_rehash p)).
  { unfold probe_first in Hp. destruct (next_hash _ _ _ _ _) as [h|]; [|done].
    by injection Hp as <-. }
  inversion Hend as [Hz|Hv Hnext]; subst.
  - split; [done|]. split.
    + intros y Hy. cbn [table set_table]. rewrite rd_wr_ne; [done|]. by intros <-.
    + by exists (p_hash_rehash p), p, n, q.
  - split; [by destruct d'|]. split; [done|].
    by exists (p_hash_rehash p), p, n, q.
Qed.

(** ** Lookups after a garbage collection *)

(** X18. After a garbage collection, a lookup finds live buckets and the
    buckets 0 and 1 only: the entries of the buckets that were not marked
    are gone. *)
Theorem lookup_after_gc_finds_marked (dbs : llmsset) (live : list Z)
    (fuel fuel' : nat) (me : lace_worker) (a b : Z) (dbs' d'' : llmsset)
    (idx : Z) :
  hash_cb dbs = None → 0 < table_size dbs <= 2 ^ 44 → 0 < threshold dbs →
  8 * threshold dbs <= Z.of_nat fuel →
  llmsset_rehash LLMSSET_MASK fuel (clear_and_mark dbs live) = Some dbs' →
  llmsset_lookup LLMSSET_MASK fuel' me dbs' a b = Some (d'', idx, Some false) →
  (idx ∈ live ∨ idx = 0 ∨ idx = 1)
  ∧ 0 <= idx < table_size dbs
  ∧ payload dbs idx = (a, b)
  ∧ d'' = dbs'.
Proof.
  intros Hcb Hts Hth Hfuel Hgc Hrun.
  destruct (clear_and_mark_spec dbs live) as [Hf2 Hb2].
  remember (clear_and_mark dbs live) as d2 eqn:E. clear E.
  assert (Hd2 : default_probing d2).
  { rewrite Hf2. split; [exact Hcb|]. split; [apply Hts | exact Hth]. }
  assert (Hi2 : rehashed LLMSSET_MASK d2).
  { intros slot Hs. rewrite Hf2 in Hs. cbn in Hs. by rewrite rd_empty in Hs. }
  destruct (rehash_par_spec LLMSSET_MASK fuel d2 0 (table_size d2))
    as (d3 & Hrun3 & Hf3 & Hi3);
    [done | by rewrite Hf2 | done | lia | rewrite Hf2; cbn; lia | lia |].
  unfold llmsset_rehash in Hgc. assert (E3 : dbs' = d3) by congruence. subst dbs'.
  assert (Hdata : data d3 = data dbs) by (rewrite Hf3, Hf2; reflexivity).
  assert (Hsize : table_size d3 = table_size dbs) by (rewrite Hf3, Hf2; reflexivity).
  assert (Hbm : bitmap2 d3 = bitmap2 d2) by (by rewrite Hf3).
  apply lookup_inv in Hrun as (p & n & q & _ & _ & _ & _ & Hend).
  inversion Hend as [| |Hv Hh He|]; subst.
  destruct (Hi3 _ Hv) as (k & Hk & Hbk & Hek & _).
  destruct (entry_of_fields d'' k ltac:(lia)) as (_ & _ & Hki).
  apply payload_equal_default in He. rewrite Hek, Hki in He |- *.
  rewrite Hbm, Hb2 in Hbk.
  split.
  { destruct (bool_decide_reflect (k ∈ live)), (Z.eqb_spec k 0), (Z.eqb_spec k 1);
      cbn in Hbk; auto; discriminate. }
  split; [lia|]. split; [|done].
  rewrite <- He. unfold payload. by rewrite Hdata.
Qed.

(** ** The notify sweep, once more *)

Lemma notify_one_idle cb dbs k :
  dead_candidate dbs k = false → notify_one cb dbs k = (dbs, []).
Proof.
  unfold notify_one, dead_candidate. rewrite !mask_test_zero, negb_involutive.
  by intros ->.
Qed.

Lemma notify_serial_idle cb n dbs : ∀ k,
  (∀ y, k <= y < k + Z.of_nat n → dead_candidate dbs y = false) →
  notify_serial cb n dbs k = (dbs, []).
Proof.
  induction n as [|n IH]; intros k H; cbn [notify_serial]; [done|].
  rewrite notify_one_idle by (apply H; lia).
  rewrite IH; [done|]. intros y Hy. apply H. lia.
Qed.

Lemma notify_par_idle cb dbs count :
  0 <= count → ∀ first,
  (∀ y, first <= y < first + count → dead_candidate dbs y = false) →
  llmsset_notify_par cb dbs first count = (dbs, []).
Proof.
  intros Hc. pattern count. apply Z_lt_induction; [|exact Hc].
  clear count Hc. intros count IH first Hidle.
  simp llmsset_notify_par. destruct (Z_lt_dec 1024 count) as [Hl|Hl]; simpl.
  - assert (Hs : 0 < count / 2 < count) by (Z.div_mod_to_equations; lia).
    rewrite IH by first [lia | intros y Hy; apply Hidle; lia].
    rewrite IH by first [lia | intros y Hy; apply Hidle; lia]. done.
  - apply notify_serial_idle. intros y Hy. apply Hidle. lia.
Qed.

(** X19. After [llmsset_notify_all] no bucket of the table is left that is
    not in use and has a request for notification, and a second call hands
    nothing to the callback and changes nothing. *)
Theorem notify_all_settles (dbs : llmsset) (cb : Z → bool) :
  dead_cb dbs = Some cb → 0 <= table_size dbs →
  (∀ k, 0 <= k < table_size dbs →
        dead_candidate (llmsset_notify_all dbs).1 k = false)
  ∧ llmsset_notify_all (llmsset_notify_all dbs).1
    = ((llmsset_notify_all dbs).1, []).
Proof.
  intros Hcb Hts. unfold llmsset_notify_all at 1 3 4. rewrite Hcb.
  destruct (notify_par_spec cb dbs 0 (table_size dbs) dbs) as (Hf & _ & Hb); [done|].
  destruct (llmsset_notify_par cb dbs 0 (table_size dbs)) as [d1 called].
  cbn [fst snd] in *.
  assert (Hidle : ∀ k, 0 <= k < table_size dbs → dead_candidate d1 k = false).
  { intros k Hk. specialize (Hb k). rewrite Z.add_0_l in Hb.
    destruct (Z.leb_spec 0 k), (Z.ltb_spec k (table_size dbs)); try lia.
    cbn [andb] in Hb. unfold notify_bits, bits23 in Hb. unfold dead_candidate at 1.
    destruct (dead_candidate dbs k) eqn:Hd.
    - destruct (cb k); injection Hb as -> ->; [done | apply andb_false_r].
    - injection Hb as -> ->. exact Hd. }
  split; [exact Hidle|].
  unfold llmsset_notify_all. rewrite Hf. cbn [dead_cb set_bitmap3 set_bitmap2 table_size].
  rewrite Hcb, <- Hf. apply notify_par_idle; [done|].
  intros y Hy. apply Hidle. lia.
Qed.


(** ** When the allocator gives up *)

Lemma next_region_mod regions x :
  0 <= x < regions → regions < 2 ^ 64 →
  next_region regions x = (x + 1) mod regions.
Proof.
  intros Hx Hr. unfold next_region. rewrite wrap64_small by lia.
  destruct (Z.leb_spec regions (x + 1)).
  - replace (x + 1) with regions by lia. by rewrite Z.mod_same by lia.
  - by rewrite Z.mod_small by lia.
Qed.

Lemma next_region_iter regions x j :
  0 <= x < regions → regions < 2 ^ 64 →
  Nat.iter j (next_region regions) x = (x + Z.of_nat j) mod regions.
Proof.
  intros Hx Hr. induction j as [|j IH].
  - cbn. rewrite Z.add_0_r. by rewrite Z.mod_small.
  - rewrite Nat.iter_succ, IH.
    rewrite next_region_mod by (done || apply Z.mod_pos_bound; lia).
    rewrite Z.add_mod_idemp_l by lia. f_equal. lia.
Qed.

(** A search that finds no region has met an owner at every step. *)
Lemma claim_region_none bm1 regions count : ∀ r0 r,
  claim_region bm1 regions count r0 = (None, r) →
  ∀ j, (j < count)%nat →
    bit_set bm1 (Nat.iter j (next_region regions) (next_region regions r0)) = true.
Proof.
  induction count as [|count IH]; intros r0 r H j Hj; [lia|].
  cbn [claim_region] in H. rewrite mask_test in H.
  destruct (bit_set bm1 (next_region regions r0)) eqn:E; [|done].
  destruct j as [|j]; [done|].
  rewrite Nat.iter_succ_r. eapply IH; [done | lia].
Qed.

(** The search goes round all regions. *)
Lemma claim_region_none_all bm1 regions r0 r' r :
  0 < regions < 2 ^ 64 →
  claim_region bm1 regions (Z.to_nat regions) r0 = (None, r') →
  0 <= r < regions → bit_set bm1 r = true.
Proof.
  intros Hreg H Hr.
  pose proof (next_region_range regions r0) as Hx.
  pose proof (Z.mod_pos_bound (r - next_region regions r0) regions ltac:(lia)) as Hj.
  pose proof (claim_region_none _ _ _ _ _ H
                (Z.to_nat ((r - next_region regions r0) mod regions)) ltac:(lia)) as Hb.
  rewrite next_region_iter in Hb by lia.
  rewrite Z2Nat.id, Z.add_mod_idemp_r in Hb by lia.
  replace (next_region regions r0 + (r - next_region regions r0)) with r in Hb by lia.
  by rewrite Z.mod_small in Hb.
Qed.

Lemma find_free_none bm ptr i0 n :
  find_free bm ptr i0 n = None →
  ∀ t, 0 <= t < Z.of_nat n → rd bm (ptr + t) = 0xffffffffffffffff.
Proof.
  revert ptr i0. induction n as [|n IH]; intros ptr i0 H t Ht; [lia|].
  cbn [find_free] in H.
  destruct (Z.eqb_spec (rd bm ptr) 0xffffffffffffffff) as [E|E]; [|done].
  cbn [negb] in H. destruct (decide (t = 0)) as [->|]; [by rewrite Z.add_0_r|].
  replace (ptr + t) with (ptr + 1 + (t - 1)) by lia. eapply IH; [done | lia].
Qed.

Lemma full_region_marked bm r y :
  (∀ t, 0 <= t < 8 → rd bm (r * 8 + t) = 0xffffffffffffffff) →
  y / 512 = r → bit_set bm y = true.
Proof.
  intros H Hy. unfold bit_set.
  replace (y / 64) with (r * 8 + (y / 64 - r * 8)) by lia.
  rewrite H by (Z.div_mod_to_equations; lia).
  change 0xffffffffffffffff with (Z.ones 64).
  apply Z.ones_spec_low. pose proof (bit_pos_range y). lia.
Qed.

Lemma claim_loop_failed fuel me : ∀ dbs r0 d',
  claim_data_bucket_loop fuel me dbs r0 = Some (d', MINUS_ONE) →
  words_ok (bitmap2 dbs) → 0 <= table_size dbs <= 2 ^ 44 →
  r0 = MINUS_ONE ∨ 0 <= r0 < 2 ^ 35 →
  (∀ r, 0 <= r < table_size dbs / 512 → bit_set (bitmap1 d') r = true)
  ∧ (r0 ≠ MINUS_ONE →
     ∀ t, 0 <= t < 8 → rd (bitmap2 dbs) (r0 * 8 + t) = 0xffffffffffffffff)
  ∧ (0 < table_size dbs / 512 → 0 <= get_my_region d' me < table_size dbs / 512).
Proof.
  induction fuel as [|fuel IH]; intros dbs r0 d'; [done|].
  cbn [claim_data_bucket_loop]. intros Hrun Hw Hts Hr0.
  assert (Hregs : 0 <= table_size dbs / 512 <= 2 ^ 35)
    by (Z.div_mod_to_equations; lia).
  assert (Hsearch : ∀ r1,
    match claim_region (bitmap1 dbs) (table_size dbs / (64 * 8))
            (Z.to_nat (table_size dbs / (64 * 8))) r1 with
    | (Some bm1, r) =>
        claim_data_bucket_loop fuel me (put_my_region (set_bitmap1 dbs bm1) me r) r
    | (None, r) => Some (put_my_region dbs me r, MINUS_ONE)
    end = Some (d', MINUS_ONE) →
    (∀ r, 0 <= r < table_size dbs / 512 → bit_set (bitmap1 d') r = true)
    ∧ (0 < table_size dbs / 512 → 0 <= get_my_region d' me < table_size dbs / 512)).
  { intros r1 H. change (64 * 8) with 512 in H.
    destruct (claim_region _ _ _ r1) as [[bm1|] r] eqn:Hcr.
    - pose proof (claim_region_range _ _ _ _ _ _ Hcr) as Hrr.
      apply IH in H as (Hall & _ & Hlast); [| done | done | right; lia].
      split; [exact Hall | exact Hlast].
    - injection H as <-. split.
      + intros r' Hr. eapply claim_region_none_all; [|exact Hcr|done]. lia.
      + intros Hpos. rewrite get_put_my_region, decide_True by done.
        apply claim_region_last in Hcr as [[Hz _]|Hr]; lia. }
  destruct (Z.eqb_spec r0 MINUS_ONE) as [E|E]; cbn [negb] in Hrun.
  - apply Hsearch in Hrun as [Hall Hlast].
    split; [done|]. split; [by intros Hne | done].
  - destruct Hr0 as [|Hr0]; [done|].
    destruct (find_free (bitmap2 dbs) (r0 * 8) 0 8) as [[i j]|] eqn:Hff.
    + exfalso. injection Hrun as _ Hc.
      pose proof (find_free_spec _ _ _ _ _ _ Hff) as (Hi & _ & Hv & Hj).
      rewrite Z.sub_0_r in *. change (Z.of_nat 8) with 8 in Hi.
      destruct (clzl_not64 (rd (bitmap2 dbs) (r0 * 8 + i))) as [Hjr _];
        [by apply words_ok_rd | done |]. rewrite <- Hj in Hjr.
      rewrite wrap64_small in Hc by lia. unfold MINUS_ONE in Hc. lia.
    + apply Hsearch in Hrun as [Hall Hlast].
      split; [done|]. split; [|done]. intros _ t Ht.
      eapply find_free_none; [exact Hff | done].
Qed.

(** The allocator gives up only when every region of the table has an
    owner and every bucket of the region that the worker had, if it had
    one, is in use.  It leaves the thread-local of the worker on a region of
    the table. *)
Lemma claim_failed_full cfuel me dbs d1 :
  table_ok LLMSSET_MASK dbs →
  claim_data_bucket cfuel me dbs = Some (d1, MINUS_ONE) →
  (∀ r, 0 <= r < table_size dbs / 512 → bit_set (bitmap1 d1) r = true)
  ∧ (get_my_region dbs me ≠ MINUS_ONE →
     ∀ y, y / 512 = get_my_region dbs me → llmsset_is_marked dbs y = true)
  ∧ 0 <= get_my_region d1 me < table_size dbs / 512.
Proof.
  intros (_ & Hts & Hw & Hreg & _) Hc.
  assert (Hpos : 0 < table_size dbs / 512) by (Z.div_mod_to_equations; lia).
  assert (Hts0 : 0 <= table_size dbs <= 2 ^ 44) by lia.
  destruct (claim_loop_failed _ _ _ _ _ Hc Hw Hts0) as (Hall & Hfull & Hlast).
  { assert (table_size dbs / 512 <= 2 ^ 35) by (Z.div_mod_to_equations; lia).
    destruct (Hreg me); [by left | right; lia]. }
  split; [exact Hall|]. split; [|by apply Hlast].
  intros Hne y Hy. rewrite is_marked_bit.
  eapply full_region_marked; [by apply Hfull | done].
Qed.

(** ** Lookups that fail *)

(** X20. A lookup that fails returns 0 and leaves the directory, the
    payloads and the bitmaps of the buckets as they are. It fails for one of
    two reasons only.  Either the allocator has given up: every region is
    owned, the region that the worker had, if it had one, is full, and the
    thread-local of the worker is left on a region of the table.  Or all the
    [8 * threshold] slots of the probe sequence hold entries of other
    payloads, and nothing has changed. *)
Theorem lookup_failure (fuel : nat) (me : lace_worker) (dbs d' : llmsset)
    (a b idx : Z) :
  table_ok LLMSSET_MASK dbs →
  llmsset_lookup LLMSSET_MASK fuel me dbs a b = Some (d', idx, None) →
  idx = 0
  ∧ table d' = table dbs ∧ data d' = data dbs
  ∧ bitmap2 d' = bitmap2 dbs ∧ bitmap3 d' = bitmap3 dbs
  ∧ (((∀ r, 0 <= r < table_size dbs / 512 → bit_set (bitmap1 d') r = true)
      ∧ (get_my_region dbs me ≠ MINUS_ONE →
         ∀ y, y / 512 = get_my_region dbs me → llmsset_is_marked dbs y = true)
      ∧ 0 <= get_my_region d' me < table_size dbs / 512)
     ∨ (d' = dbs
        ∧ ∃ p, probe_first LLMSSET_MASK dbs false a b = Some p
           ∧ passes LLMSSET_MASK dbs a b false
               (Z.land (rehash16_mul a b HASH_SEED) MASK_HASH) p
               (Z.to_nat (8 * threshold dbs)))).
Proof.
  intros Hok H. pose proof Hok as ((_ & Htp & Hth) & _).
  apply lookup_inv in H as (p & n & q & Hp & _ & Hn & Hpass & Hend).
  inversion Hend as [|d1 Hz Hc| |Hs Hnext]; subst.
  - destruct (claim_failed _ _ _ _ Hok Hc) as [Hf Hbm].
    split; [done|]. rewrite Hbm.
    split; [by apply claim_frame_table|]. split; [by apply claim_frame_data|].
    split; [done|]. split; [by rewrite Hf|].
    left. by apply (claim_failed_full fuel me dbs d').
  - do 5 (split; [done|]). right. split; [done|]. exists p. split; [done|].
    destruct (probe_first_ok LLMSSET_MASK _ _ _ _ _ Htp Hth Hp) as [Hok0 Hleft0].
    destruct (probe_nth_left LLMSSET_MASK _ _ _ _ _ _ _ Htp Hok0 Hn) as [Hokq Hleftq].
    pose proof (probe_next_left LLMSSET_MASK d' false a b q Htp Hokq) as Hstep.
    rewrite Hnext in Hstep.
    intros m Hm. destruct (decide (m < n)%nat) as [Hlt|Hge]; [by apply Hpass|].
    assert (m = n) as -> by lia. by exists q.
Qed.

(** ** Termination of the custom lookup *)

Lemma lookup2_loop_total_custom cfuel me dbs a b hash h e fuel : ∀ p,
  hash_cb dbs = Some h → equals_cb dbs = Some e →
  0 < table_size dbs → table_size dbs / 512 < Z.of_nat cfuel →
  probe_ok dbs p → probe_left dbs p < Z.of_nat fuel →
  ∃ r, lookup2_loop LLMSSET_MASK cfuel fuel me dbs a b true hash 0 p = Some r.
Proof.
  induction fuel as [|fuel IH]; intros p Hh He Ht Hc Hp Hl.
  - pose proof (probe_left_nonneg dbs p Hp). lia.
  - rewrite lookup2_loop_step.
    destruct (rd (table dbs) (p_idx p) =? 0).
    + destruct (claim_loop_total cfuel me dbs (get_my_region dbs me)) as [[d1 c] Hcl];
        [lia | pose proof (free_regions_bound dbs);
               assert (0 <= table_size dbs / 512) by (Z.div_mod_to_equations; lia); lia |].
      unfold claim_data_bucket. rewrite Hcl. destruct (c =? MINUS_ONE); eauto.
    + unfold lookup2_match, payload_equal. rewrite He.
      destruct (hash =? _); [destruct (e _ _ _ _); [eauto|]|].
      all: pose proof (probe_next_left LLMSSET_MASK dbs true a b p Ht Hp) as Hstep;
        destruct (probe_next LLMSSET_MASK dbs true a b p) as [[q|]|];
        [ destruct Hstep as [Hq Hlq]; apply IH; [done..|lia]
        | eauto
        | unfold next_hash in Hstep; by rewrite Hh in Hstep ].
Qed.

(** X21. With both callbacks registered [llmsset_lookupc] returns, within
    the same bounds as [llmsset_lookup]. *)
Theorem lookupc_terminates (fuel : nat) (me : lace_worker) (dbs : llmsset)
    (a b : Z) (h : Z → Z → Z → Z) (e : Z → Z → Z → Z → bool) :
  hash_cb dbs = Some h → equals_cb dbs = Some e →
  0 < table_size dbs → 0 < threshold dbs →
  8 * threshold dbs <= Z.of_nat fuel → table_size dbs / 512 < Z.of_nat fuel →
  ∃ d' idx cr, llmsset_lookupc LLMSSET_MASK fuel me dbs a b = Some (d', idx, cr).
Proof.
  intros Hh He Ht Hth Hf Hc. unfold llmsset_lookupc, llmsset_lookup2.
  destruct (probe_first LLMSSET_MASK dbs true a b) as [p|] eqn:Hp.
  - destruct (probe_first_ok LLMSSET_MASK dbs true a b _ Ht Hth Hp) as [Hok Hleft].
    destruct (lookup2_loop_total_custom fuel me dbs a b
                (Z.land (p_hash_rehash p) MASK_HASH) h e fuel p)
      as [[[d' idx] cr] H]; [done..|lia|].
    by exists d', idx, cr.
  - unfold probe_first, next_hash in Hp. by rewrite Hh in Hp.
Qed.


(** ** The slots that a probe touches *)

Lemma land_le_r h m : 0 <= m → Z.land h m <= m.
Proof.
  intros Hm.
  assert (Hd : Z.land (Z.ldiff m h) (Z.land h m) = 0).
  { apply Z.bits_inj'. intros k Hk.
    rewrite !Z.land_spec, Z.ldiff_spec, Z.bits_0.
    by destruct (Z.testbit m k), (Z.testbit h k). }
  assert (E : m = Z.ldiff m h + Z.land h m).
  { rewrite Z.add_nocarry_lxor, Z.lxor_lor by done.
    apply Z.bits_inj'. intros k Hk.
    rewrite Z.lor_spec, Z.land_spec, Z.ldiff_spec.
    by destruct (Z.testbit m k), (Z.testbit h k). }
  assert (0 <= Z.ldiff m h) by (apply Z.ldiff_nonneg; lia). lia.
Qed.

Lemma start_index_bound dbs h :
  0 < table_size dbs → 0 <= mask dbs < table_size dbs → 0 <= h →
  0 <= start_index LLMSSET_MASK dbs h < table_size dbs.
Proof.
  intros Ht Hm Hh. unfold start_index. destruct LLMSSET_MASK.
  - split; [apply Z.land_nonneg; lia|].
    assert (Z.land h (mask dbs) <= mask dbs); [|lia].
    apply land_le_r; lia.
  - by apply Z.mod_pos_bound.
Qed.

Lemma probe_next_in_table dbs custom a b p q :
  0 < table_size dbs → 0 <= mask dbs < table_size dbs →
  probe_in_table dbs p →
  probe_next LLMSSET_MASK dbs custom a b p = Some (Some q) →
  probe_in_table dbs q.
Proof.
  intros Ht Hm [Hok Hlast] Hn.
  pose proof (probe_next_left LLMSSET_MASK dbs custom a b p Ht Hok) as Hstep.
  rewrite Hn in Hstep. destruct Hstep as [Hq _]. split; [done|].
  revert Hn. unfold probe_next.
  destruct (_ =? p_last p); [|by intros [= <-]].
  destruct (_ =? threshold dbs); [done|].
  destruct (next_hash dbs custom a b (p_hash_rehash p)) as [h|] eqn:Hh; [|done].
  intros [= <-]. cbn [p_last].
  apply start_index_bound; [done..|]. by apply next_hash_range in Hh as [? _].
Qed.

Lemma probe_nth_in_table dbs custom a b n : ∀ p q,
  0 < table_size dbs → 0 <= mask dbs < table_size dbs →
  probe_in_table dbs p →
  probe_nth LLMSSET_MASK dbs custom a b n p = Some q →
  probe_in_table dbs q.
Proof.
  induction n as [|n IH]; intros p q Ht Hm Hp; cbn [probe_nth].
  - by intros [= <-].
  - destruct (probe_next LLMSSET_MASK dbs custom a b p) as [[p1|]|] eqn:Hn; [|done..].
    apply IH; [done..|]. by eapply probe_next_in_table.
Qed.

(** X22. Every slot that a lookup or a re-insert probes lies in the table,
    when [table_size] is a multiple of the eight slots of a cache line. *)
Theorem probes_stay_in_table (dbs : llmsset) (custom : bool) (a b : Z)
    (p q : probe) (n : nat) :
  0 < table_size dbs → table_size dbs mod 8 = 0 → 0 < threshold dbs →
  0 <= mask dbs < table_size dbs →
  probe_first LLMSSET_MASK dbs custom a b = Some p →
  probe_nth LLMSSET_MASK dbs custom a b n p = Some q →
  0 <= p_idx q < table_size dbs.
Proof.
  intros Ht H8 Hth Hm Hp Hn.
  assert (Hin : probe_in_table dbs p).
  { destruct (probe_first_ok LLMSSET_MASK _ _ _ _ _ Ht Hth Hp) as [Hok _].
    split; [done|]. revert Hp. unfold probe_first.
    destruct (next_hash dbs custom a b HASH_SEED) as [h|] eqn:Hh; [|done].
    intros [= <-]. cbn [p_last].
    apply start_index_bound; [done..|]. by apply next_hash_range in Hh as [? _]. }
  destruct (probe_nth_in_table _ _ _ _ _ _ _ Ht Hm Hin Hn)
    as [(Hi & Hl & Hline & _) Hlast].
  Z.div_mod_to_equations; lia.
Qed.

(** ** Clearing *)

(** X10.  [llmsset_clear] empties the directory and the ownership bitmap,
    leaves the buckets 0 and 1 and no others marked, so that
    [llmsset_count_marked] returns 2 afterwards, takes the region of every
    worker away, and keeps the payloads, the notification requests and the
    callbacks. *)
Theorem clear_spec (dbs : llmsset) :
  2 <= table_size dbs < 2 ^ 64 →
  (∀ slot, rd (table (llmsset_clear dbs)) slot = 0)
  ∧ (∀ w, rd (bitmap1 (llmsset_clear dbs)) w = 0)
  ∧ (∀ y, llmsset_is_marked (llmsset_clear dbs) y = (y =? 0) || (y =? 1))
  ∧ llmsset_count_marked (llmsset_clear dbs) = 2
  ∧ (∀ me, get_my_region (llmsset_clear dbs) me = MINUS_ONE)
  ∧ data (llmsset_clear dbs) = data dbs
  ∧ bitmap3 (llmsset_clear dbs) = bitmap3 dbs
  ∧ table_size (llmsset_clear dbs) = table_size dbs
  ∧ hash_cb (llmsset_clear dbs) = hash_cb dbs
  ∧ dead_cb (llmsset_clear dbs) = dead_cb dbs.
Proof.
  intros Hts.
  split; [intros; apply rd_empty|]. split; [intros; apply rd_empty|].
  split; [intros y; rewrite is_marked_bit; apply reserved_bits|].
  split; [|done].
  rewrite count_marked_set by (cbn; lia). apply count_reserved. cbn. lia.
Qed.

End DefaultTables.

(** * Regions and their owners *)

Section Regions.
Variable LLMSSET_MASK : bool.

Lemma claim_region_taken dbs me bm1 r r1 :
  claim_region (bitmap1 dbs) (table_size dbs / 512)
    (Z.to_nat (table_size dbs / 512)) r1 = (Some bm1, r) →
  regions_exclusive dbs →
  regions_exclusive (put_my_region (set_bitmap1 dbs bm1) me r).
Proof.
  intros Hcr (Hts & Hown & Hex).
  assert (Hpos : 0 < table_size dbs / 512).
  { destruct (Z.to_nat (table_size dbs / 512)) eqn:E; [done | lia]. }
  apply claim_region_spec in Hcr as (Hr & Hclear & ->); [|done].
  assert (Hget : ∀ w, get_my_region (put_my_region (set_bitmap1 dbs
                   (wr (bitmap1 dbs) (r / 64)
                      (Z.lor (rd (bitmap1 dbs) (r / 64)) (bit_mask r)))) me r) w
                 = if decide (worker me = worker w) then r else get_my_region dbs w)
    by (intros w; exact (get_put_my_region (set_bitmap1 dbs _) me r w)).
  split; [exact Hts|]. split.
  - intros w. rewrite Hget. cbn [bitmap1 put_my_region set_my_region set_bitmap1].
    rewrite bit_set_lor. case_decide; [by rewrite Z.eqb_refl|].
    intros Hne. by rewrite Hown, orb_true_r.
  - intros w1 w2 Hw. rewrite !Hget.
    destruct (decide (worker me = worker w1)), (decide (worker me = worker w2));
      try congruence.
    + intros _ E. assert (get_my_region dbs w2 ≠ MINUS_ONE)
        by (rewrite <- E; unfold MINUS_ONE; Z.div_mod_to_equations; lia).
      specialize (Hown w2 ltac:(done)). congruence.
    + intros Hne E. specialize (Hown w1 Hne). congruence.
    + by apply Hex.
Qed.

Lemma claim_loop_exclusive fuel me : ∀ dbs r0 d' c,
  claim_data_bucket_loop fuel me dbs r0 = Some (d', c) → c ≠ MINUS_ONE →
  regions_exclusive dbs → regions_exclusive d'.
Proof.
  induction fuel as [|fuel IH]; intros dbs r0 d' c; [done|].
  cbn [claim_data_bucket_loop]. change (64 * 8) with 512. intros Hrun Hc Hex.
  assert (Hsearch : ∀ r1,
    match claim_region (bitmap1 dbs) (table_size dbs / 512)
            (Z.to_nat (table_size dbs / 512)) r1 with
    | (Some bm1, r) =>
        claim_data_bucket_loop fuel me (put_my_region (set_bitmap1 dbs bm1) me r) r
    | (None, r) => Some (put_my_region dbs me r, MINUS_ONE)
    end = Some (d', c) → regions_exclusive d').
  { intros r1 H. destruct (claim_region _ _ _ r1) as [[bm1|] r] eqn:Hcr.
    - eapply IH; [exact H | done |]. by eapply claim_region_taken.
    - injection H as _ E. by destruct Hc. }
  destruct (negb (r0 =? MINUS_ONE)); [|by eapply Hsearch].
  destruct (find_free (bitmap2 dbs) (r0 * 8) 0 8) as [[i j]|]; [|by eapply Hsearch].
  by injection Hrun as <- <-.
Qed.

Lemma lookup2_exclusive fuel me dbs a b custom d' idx created :
  llmsset_lookup2 LLMSSET_MASK fuel me dbs a b custom = Some (d', idx, Some created) →
  regions_exclusive dbs → regions_exclusive d'.
Proof.
  unfold llmsset_lookup2.
  destruct (probe_first LLMSSET_MASK dbs custom a b) as [p|]; [|done].
  intros H Hex. apply lookup2_loop_inv in H as (n & q & _ & _ & _ & Hend).
  inversion Hend as [d1 c Hz Hc Hne| | |]; subst; try done.
  apply claim_loop_exclusive in Hc; [|done|done].
  unfold published, set_custom_bucket.
  by destruct (custom || _), custom.
Qed.

(** X24.  Regions have one owner as long as no call fails.  From a table in
    which no worker has a region, as [llmsset_create] and [llmsset_clear]
    leave it, calls of [llmsset_lookup] and [llmsset_lookupc] by any workers
    that all store to [created] lead to tables in which no two workers have
    the same region in [my_region], and every region that a worker has there
    is taken in [bitmap1]. *)
Theorem regions_stay_exclusive (d0 d : llmsset) (w1 w2 : lace_worker) :
  table_size d0 < 2 ^ 64 → (∀ w, get_my_region d0 w = MINUS_ONE) →
  rtc (lookup2_done LLMSSET_MASK) d0 d →
  worker w1 ≠ worker w2 → get_my_region d w1 ≠ MINUS_ONE →
  get_my_region d w1 ≠ get_my_region d w2
  ∧ bit_set (bitmap1 d) (get_my_region d w1) = true.
Proof.
  intros Hts H0 Hsteps Hw Hne.
  assert (Hex : regions_exclusive d).
  { assert (Hex0 : regions_exclusive d0)
      by (split; [done|]; split; [intros w | intros w ? ?]; by rewrite H0).
    clear H0 Hts. induction Hsteps as [d|d d1 d2 Hstep _ IH]; [done|].
    destruct Hstep as (fuel & me & a & b & custom & idx & cr & Hrun).
    apply IH; [done|]. by eapply lookup2_exclusive. }
  destruct Hex as (_ & Hown & Hex). split; [by apply Hex | by apply Hown].
Qed.

End Regions.

(** * Tables with custom callbacks *)

Section CustomTables.
Variable LLMSSET_MASK : bool.

Lemma claim_in_table_gen cfuel me dbs d1 c :
  512 <= table_size dbs <= 2 ^ 44 → words_ok (bitmap2 dbs) → regions_ok dbs →
  bit_set (bitmap2 dbs) 0 = true → bit_set (bitmap2 dbs) 1 = true →
  claim_data_bucket cfuel me dbs = Some (d1, c) → c ≠ MINUS_ONE →
  claim_frame dbs d1
  ∧ 2 <= c < table_size dbs
  ∧ bit_set (bitmap2 dbs) c = false
  ∧ bitmap2 d1 = wr (bitmap2 dbs) (c / 64)
                   (Z.lor (rd (bitmap2 dbs) (c / 64)) (bit_mask c)).
Proof.
  intros Hts Hw Hreg Hb0 Hb1 Hc Hne.
  assert (Hreg1 : region_ok dbs me).
  { destruct (Hreg me) as [H|H]; [by left|]. right.
    assert (table_size dbs / 512 <= 2 ^ 35) by (Z.div_mod_to_equations; lia). lia. }
  destruct (claim_success _ _ _ _ _ Hw ltac:(lia) Hreg1 Hc Hne)
    as (Hf & Hidx & Hclear & Hbm & Hr & Hrr & Hq & _ & Hor).
  split; [exact Hf|]. split; [|done].
  assert (Hlt : get_my_region d1 me < table_size dbs / 512).
  { destruct Hor as [E|Hor].
    - destruct (Hreg me) as [H|H]; [congruence | lia].
    - assert (1 <= table_size dbs / 512) by (Z.div_mod_to_equations; lia). lia. }
  split.
  - destruct (decide (c = 0)) as [->|]; [congruence|].
    destruct (decide (c = 1)) as [->|]; [congruence|]. lia.
  - rewrite <- Hq in Hlt. Z.div_mod_to_equations; lia.
Qed.

Lemma claim_failed_gen cfuel me dbs d1 :
  512 <= table_size dbs <= 2 ^ 44 → words_ok (bitmap2 dbs) → regions_ok dbs →
  claim_data_bucket cfuel me dbs = Some (d1, MINUS_ONE) →
  claim_frame dbs d1 ∧ bitmap2 d1 = bitmap2 dbs.
Proof.
  intros Hts Hw Hreg Hc.
  unfold claim_data_bucket in Hc. apply claim_loop_inv in Hc as [Hf Hres]; [|done].
  split; [exact Hf|].
  destruct Hres as [[_ Hbm]|(r & i & j & Hr & Hor & Hget & Hff & Hc & Hbm)]; [done|].
  exfalso.
  assert (Hrr : 0 <= r < 2 ^ 35).
  { assert (1 <= table_size dbs / 512 <= 2 ^ 35) by (Z.div_mod_to_equations; lia).
    destruct Hor as [->|Hor]; [|lia].
    destruct (Hreg me) as [H'|H']; [done | lia]. }
  pose proof (find_free_spec _ _ _ _ _ _ Hff) as (Hi & _ & Hv & Hj).
  rewrite Z.sub_0_r in *. change (Z.of_nat 8) with 8 in Hi.
  destruct (clzl_not64 (rd (bitmap2 dbs) (r * 8 + i))) as [Hjr _];
    [by apply words_ok_rd | done |]. rewrite <- Hj in Hjr.
  rewrite wrap64_small in Hc by lia. unfold MINUS_ONE in Hc. lia.
Qed.

Lemma lookupc_inv fuel me dbs a b r :
  llmsset_lookupc LLMSSET_MASK fuel me dbs a b = Some r →
  ∃ p n q,
    probe_first LLMSSET_MASK dbs true a b = Some p
    ∧ probe_nth LLMSSET_MASK dbs true a b n p = Some q
    ∧ passes LLMSSET_MASK dbs a b true (Z.land (p_hash_rehash p) MASK_HASH) p n
    ∧ lookup_end LLMSSET_MASK fuel me dbs a b true
        (Z.land (p_hash_rehash p) MASK_HASH) q r.
Proof.
  unfold llmsset_lookupc, llmsset_lookup2.
  destruct (probe_first LLMSSET_MASK dbs true a b) as [p|]; [|done].
  intros H. apply lookup2_loop_inv in H as (n & q & _ & Hn & Hp & He).
  by exists p, n, q.
Qed.

Lemma lookupc_run fuel me dbs a b p n q r :
  0 < table_size dbs → 0 < threshold dbs →
  8 * threshold dbs <= Z.of_nat fuel →
  probe_first LLMSSET_MASK dbs true a b = Some p →
  probe_nth LLMSSET_MASK dbs true a b n p = Some q →
  passes LLMSSET_MASK dbs a b true (Z.land (p_hash_rehash p) MASK_HASH) p n →
  lookup_end LLMSSET_MASK fuel me dbs a b true
    (Z.land (p_hash_rehash p) MASK_HASH) q r →
  llmsset_lookupc LLMSSET_MASK fuel me dbs a b = Some r.
Proof.
  intros Ht Hth Hfuel Hp Hn Hpass Hend.
  pose proof (probe_nth_bound LLMSSET_MASK _ _ _ _ _ _ _ Ht Hth Hp Hn) as Hb.
  unfold llmsset_lookupc, llmsset_lookup2. rewrite Hp.
  apply (lookup2_loop_run LLMSSET_MASK _ _ _ _ _ _ _ n _ p q); [lia | done..].
Qed.

Lemma lookup2_match_kept d d' a b custom hash v :
  equals_cb d' = equals_cb d →
  payload d' (Z.land v MASK_INDEX) = payload d (Z.land v MASK_INDEX) →
  lookup2_match d a b custom hash 0 v = Some None →
  lookup2_match d' a b custom hash 0 v = Some None.
Proof.
  intros He Hp H. unfold lookup2_match, payload_equal in *.
  unfold payload in Hp. injection Hp as Hp0 Hp1. rewrite He, Hp0, Hp1.
  destruct (hash =? _); [|done].
  by destruct (if custom then _ else _) as [[|]|].
Qed.

Lemma passes_kept_c d d' a b hash p n :
  keeps_entries_c d d' →
  passes LLMSSET_MASK d a b true hash p n →
  passes LLMSSET_MASK d' a b true hash p n.
Proof.
  intros (Hs & He & Hk) Hp m Hm. destruct (Hp m Hm) as (q & Hq & Hv & Hmatch).
  exists q. rewrite (probe_nth_same LLMSSET_MASK d d') by done. split; [done|].
  destruct (Hk _ Hv) as [Ht Hpay]. unfold slot_passed. rewrite Ht.
  split; [done|]. by eapply lookup2_match_kept.
Qed.


(** The table after [llmsset_lookupc] has created an entry for [(a, b)] in
    the bucket [c] and has published it at [slot]. *)
Lemma created_c_shape cfuel me dbs a b hash slot d1 c :
  custom_ok dbs →
  claim_data_bucket cfuel me dbs = Some (d1, c) → c ≠ MINUS_ONE →
  2 <= c < table_size dbs
  ∧ bit_set (bitmap2 dbs) c = false
  ∧ same_probing dbs (published d1 a b true hash slot c)
  ∧ equals_cb (published d1 a b true hash slot c) = equals_cb dbs
  ∧ table (published d1 a b true hash slot c) = wr (table dbs) slot (Z.lor hash c)
  ∧ (∀ y, bit_set (bitmap2 (published d1 a b true hash slot c)) y
          = (y =? c) || bit_set (bitmap2 dbs) y)
  ∧ words_ok (bitmap2 (published d1 a b true hash slot c))
  ∧ regions_ok (published d1 a b true hash slot c)
  ∧ ∀ k, payload (published d1 a b true hash slot c) k
         = if decide (k = c) then (a, b) else payload dbs k.
Proof.
  intros (Hh & He & Hth & Hts & Hw & Hreg & Hb0 & Hb1 & Hent) Hc Hne.
  destruct (claim_in_table_gen _ _ _ _ _ Hts Hw Hreg Hb0 Hb1 Hc Hne)
    as (Hf & Hcr & Hclear & Hbm).
  pose proof (claim_regions_ok _ _ _ _ _ (proj1 Hts) Hreg Hc) as Hreg1.
  unfold published, set_custom_bucket. cbn [orb].
  cbn [table data bitmap2 set_table set_data set_bitmap2].
  split; [done|]. split; [done|].
  split; [rewrite Hf; done|]. split; [by rewrite Hf|].
  split; [by rewrite (claim_frame_table _ _ Hf)|].
  assert (Hw1 : words_ok (bitmap2 d1)).
  { rewrite Hbm. apply words_ok_wr; [done|].
    apply lor_range; [by apply words_ok_rd | apply bit_mask_range]. }
  split.
  { intros y. rewrite bit_set_lor, Hbm, bit_set_lor. by destruct (y =? c). }
  split.
  { apply words_ok_wr; [done|].
    apply lor_range; [by apply words_ok_rd | apply bit_mask_range]. }
  split; [exact Hreg1|].
  intros k. unfold payload. cbn [data set_table set_data set_bitmap2].
  rewrite (claim_frame_data _ _ Hf). apply payload_published.
Qed.

Lemma lookupc_custom_ok fuel me dbs a b d' idx cr :
  custom_ok dbs →
  llmsset_lookupc LLMSSET_MASK fuel me dbs a b = Some (d', idx, cr) →
  custom_ok d' ∧ keeps_entries_c dbs d'.
Proof.
  intros Hok H. pose proof Hok as (Hh & He & Hth & Hts & Hw & Hreg & Hb0 & Hb1 & Hent).
  apply lookupc_inv in H as (p & n & q & Hp & Hn & Hpass & Hend).
  assert (Hrefl : keeps_entries_c dbs dbs) by (split; [done|]; split; [done|]; by intros).
  inversion Hend as [d1 c Hz Hc Hne|d1 Hz Hc| |]; subst; try done.
  - set (hash := Z.land (p_hash_rehash p) MASK_HASH) in *.
    destruct (created_c_shape _ _ _ a b hash (p_idx q) _ _ Hok Hc Hne)
      as (Hcr & Hclear & Hsame & Heq & Htab & Hbits & Hw' & Hreg' & Hpay).
    set (d' := published _ _ _ _ _ _ _) in *.
    pose proof Hsame as (Hs1 & Hs2 & Hs3 & Hs4).
    assert (Hh0 : 0 <= p_hash_rehash p < 2 ^ 64).
    { revert Hp. unfold probe_first.
      destruct (next_hash dbs true a b HASH_SEED) as [h0|] eqn:E; [|done].
      intros [= <-]. by apply next_hash_range in E. }
    destruct (entry_fields _ idx Hh0 ltac:(lia)) as (_ & _ & Hci). fold hash in Hci.
    split.
    + split; [by rewrite Hs4|]. split; [by rewrite Heq|].
      split; [by rewrite Hs1|]. split; [by rewrite Hs2|].
      split; [done|]. split; [done|].
      rewrite !Hbits, Hb0, Hb1, !orb_true_r. split; [done|]. split; [done|].
      intros x Hx. rewrite Hbits, Htab, Hs2 in *.
      destruct (decide (x = p_idx q)) as [->|Hne'].
      * rewrite rd_wr_eq, land_mask_index, Hci, Z.eqb_refl. split; [lia|done].
      * rewrite rd_wr_ne in Hx |- * by done.
        destruct (Hent x Hx) as [? ->]. by rewrite orb_true_r.
    + split; [done|]. split; [done|]. intros y Hy.
      rewrite Htab, rd_wr_ne by (by intros <-). split; [done|].
      rewrite Hpay, decide_False; [done|].
      intros E. destruct (Hent y Hy) as [_ Hb]. congruence.
  - destruct (claim_failed_gen _ _ _ _ Hts Hw Hreg Hc) as [Hf Hbm].
    pose proof (claim_regions_ok _ _ _ _ _ (proj1 Hts) Hreg Hc) as Hreg1.
    split.
    + split; [by rewrite Hf|]. split; [by rewrite Hf|].
      split; [by rewrite Hf|]. split; [by rewrite Hf|].
      assert (Hsz : table_size d' = table_size dbs) by (by rewrite Hf).
      rewrite Hbm, (claim_frame_table _ _ Hf), Hsz. done.
    + split; [rewrite Hf; done|]. split; [by rewrite Hf|].
      intros y Hy. unfold payload.
      by rewrite (claim_frame_table _ _ Hf), (claim_frame_data _ _ Hf).
Qed.


Lemma finds_c_intro dbs a b p n q :
  0 < table_size dbs → 0 < threshold dbs →
  probe_first LLMSSET_MASK dbs true a b = Some p →
  probe_nth LLMSSET_MASK dbs true a b n p = Some q →
  passes LLMSSET_MASK dbs a b true (Z.land (p_hash_rehash p) MASK_HASH) p n →
  rd (table dbs) (p_idx q) ≠ 0 →
  Z.land (p_hash_rehash p) MASK_HASH = Z.land (rd (table dbs) (p_idx q)) MASK_HASH →
  payload_equal dbs true a b
    (rd (data dbs) (2 * Z.land (rd (table dbs) (p_idx q)) MASK_INDEX))
    (rd (data dbs) (2 * Z.land (rd (table dbs) (p_idx q)) MASK_INDEX + 1))
  = Some true →
  finds_c LLMSSET_MASK dbs a b (Z.land (rd (table dbs) (p_idx q)) MASK_INDEX).
Proof.
  intros Ht Hth Hp Hn Hpass Hv Hh He me fuel Hfuel.
  apply (lookupc_run fuel me dbs a b p n q); try done. by apply end_found.
Qed.

Lemma finds_c_inv dbs a b idx :
  finds_c LLMSSET_MASK dbs a b idx →
  ∃ p n q,
    probe_first LLMSSET_MASK dbs true a b = Some p
    ∧ probe_nth LLMSSET_MASK dbs true a b n p = Some q
    ∧ passes LLMSSET_MASK dbs a b true (Z.land (p_hash_rehash p) MASK_HASH) p n
    ∧ rd (table dbs) (p_idx q) ≠ 0
    ∧ Z.land (p_hash_rehash p) MASK_HASH
      = Z.land (rd (table dbs) (p_idx q)) MASK_HASH
    ∧ payload_equal dbs true a b
        (rd (data dbs) (2 * Z.land (rd (table dbs) (p_idx q)) MASK_INDEX))
        (rd (data dbs) (2 * Z.land (rd (table dbs) (p_idx q)) MASK_INDEX + 1))
      = Some true
    ∧ idx = Z.land (rd (table dbs) (p_idx q)) MASK_INDEX.
Proof.
  intros H.
  assert (Hfuel : 8 * threshold dbs <= Z.of_nat (Z.to_nat (8 * threshold dbs))) by lia.
  apply (H (mk_worker 0 1)) in Hfuel as H'. clear H Hfuel.
  apply lookupc_inv in H' as (p & n & q & Hp & Hn & Hpass & Hend).
  exists p, n, q. by inversion Hend; subst.
Qed.

Lemma finds_c_kept d d' a b idx :
  0 < table_size d → 0 < threshold d →
  keeps_entries_c d d' →
  finds_c LLMSSET_MASK d a b idx → finds_c LLMSSET_MASK d' a b idx.
Proof.
  intros Hts Hth Hk Hf.
  destruct (finds_c_inv _ _ _ _ Hf) as (p & n & q & Hp & Hn & Hpass & Hv & Hh & He & ->).
  pose proof Hk as (Hs & Heq & Hke). destruct (Hke _ Hv) as [Ht Hpay].
  pose proof Hs as (Hs1 & Hs2 & Hs3 & Hs4).
  rewrite <- Ht. apply (finds_c_intro d' a b p n q).
  - by rewrite Hs2.
  - by rewrite Hs1.
  - by rewrite (probe_first_same LLMSSET_MASK d d').
  - by rewrite (probe_nth_same LLMSSET_MASK d d').
  - by apply (passes_kept_c d d').
  - by rewrite Ht.
  - by rewrite Ht.
  - rewrite Ht. unfold payload_equal in *. rewrite Heq.
    unfold payload in Hpay. injection Hpay as Hp0 Hp1. by rewrite Hp0, Hp1.
Qed.

Lemma lookupc_result_finds fuel me dbs a b d' idx created e :
  custom_ok dbs → equals_cb dbs = Some e → e a b a b = true →
  llmsset_lookupc LLMSSET_MASK fuel me dbs a b = Some (d', idx, Some created) →
  2 <= idx < table_size dbs
  ∧ bit_set (bitmap2 d') idx = true
  ∧ finds_c LLMSSET_MASK d' a b idx.
Proof.
  intros Hok Heq Hrefl H.
  destruct (lookupc_custom_ok _ _ _ _ _ _ _ _ Hok H) as [Hok' Hkeep].
  pose proof Hok as (Hh & He & Hth & Hts & Hw & Hreg & Hb0 & Hb1 & Hent).
  pose proof Hok' as (_ & _ & Hth' & Hts' & _).
  apply lookupc_inv in H as (p & n & q & Hp & Hn & Hpass & Hend).
  set (hash := Z.land (p_hash_rehash p) MASK_HASH) in *.
  assert (Hh0 : 0 <= p_hash_rehash p < 2 ^ 64).
  { revert Hp. unfold probe_first.
    destruct (next_hash dbs true a b HASH_SEED) as [h0|] eqn:E; [|done].
    intros [= <-]. by apply next_hash_range in E. }
  inversion Hend as [d1 c Hz Hc Hne| |Hv Hhv Hpe|]; subst.
  - destruct (created_c_shape _ _ _ a b hash (p_idx q) _ _ Hok Hc Hne)
      as (Hcr & Hclear & Hsame & Heq' & Htab & Hbits & Hw' & Hreg' & Hpay).
    set (d' := published _ _ _ _ _ _ _) in *.
    destruct (entry_fields _ idx Hh0 ltac:(lia)) as (Hr & Htag & Hci).
    fold hash in Hr, Htag, Hci.
    assert (Hv : rd (table d') (p_idx q) = Z.lor hash idx) by (by rewrite Htab, rd_wr_eq).
    split; [done|]. split; [by rewrite Hbits, Z.eqb_refl|].
    rewrite <- Hci, <- land_mask_index, <- Hv.
    apply (finds_c_intro d' a b p n q); try lia.
    + by rewrite (probe_first_same LLMSSET_MASK dbs d').
    + by rewrite (probe_nth_same LLMSSET_MASK dbs d').
    + by apply (passes_kept_c dbs d').
    + rewrite Hv. apply entry_nonzero; lia.
    + rewrite Hv. symmetry. apply same_tag; [done | done | done].
    + rewrite Hv, land_mask_index, Hci. unfold payload_equal. rewrite Heq', Heq.
      specialize (Hpay idx). rewrite decide_True in Hpay by done.
      unfold payload in Hpay. apply pair_equal_spec in Hpay as [Hp0 Hp1].
      by rewrite Hp0, Hp1, Hrefl.
  - destruct (Hent _ Hv) as [Hidx Hbit].
    split; [done|]. split; [done|].
    apply (finds_c_intro d' a b p n q); try done; lia.
Qed.


Lemma set_custom_ok dbs h e :
  table_ok LLMSSET_MASK dbs →
  custom_ok (llmsset_set_custom dbs (Some h) (Some e)).
Proof.
  intros Hok. pose proof Hok as ((_ & _ & Hth) & Hts & Hw & Hreg & Hb0 & Hb1 & _).
  split; [done|]. split; [done|]. do 6 (split; [done|]).
  intros slot Hv. cbn [table llmsset_set_custom] in Hv.
  destruct (table_ok_entry LLMSSET_MASK dbs slot Hok Hv) as (k & Hk & Hb & _ & Hi & _).
  cbn [table bitmap2 table_size llmsset_set_custom]. by rewrite Hi.
Qed.

Lemma lookupc_steps_ok d d' a b idx :
  custom_ok d → finds_c LLMSSET_MASK d a b idx →
  rtc (lookupc_step LLMSSET_MASK) d d' →
  custom_ok d' ∧ finds_c LLMSSET_MASK d' a b idx ∧ threshold d' = threshold d
  ∧ table_size d' = table_size d.
Proof.
  intros Hok Hf Hsteps. induction Hsteps as [d|d d1 d2 Hstep _ IH]; [done|].
  destruct Hstep as (fuel & me & a' & b' & idx' & cr & Hrun).
  destruct (lookupc_custom_ok _ _ _ _ _ _ _ _ Hok Hrun) as [Hok1 Hkeep].
  pose proof Hkeep as ((Ht & Hs & _) & _).
  pose proof Hok as (_ & _ & Hth & Hts & _).
  rewrite <- Ht, <- Hs. apply IH; [done|].
  apply (finds_c_kept d d1); [lia | done | done | done].
Qed.

(** X25.  The occupancy invariant with callbacks.  When the callbacks are
    registered on a well-formed table and the lookups are calls of
    [llmsset_lookupc], every entry of the directory names a bucket from 2 on
    that lies in the table and is in use. *)
Theorem custom_slots_in_use (d0 d : llmsset) (h : Z → Z → Z → Z)
    (e : Z → Z → Z → Z → bool) (slot : Z) :
  table_ok LLMSSET_MASK d0 →
  rtc (lookupc_step LLMSSET_MASK) (llmsset_set_custom d0 (Some h) (Some e)) d →
  rd (table d) slot ≠ 0 →
  2 <= slot_index (rd (table d) slot) < table_size d0
  ∧ llmsset_is_marked d (slot_index (rd (table d) slot)) = true.
Proof.
  intros Hok Hsteps Hv.
  assert (Hinv : custom_ok d ∧ table_size d = table_size d0).
  { pose proof (set_custom_ok d0 h e Hok) as Hc.
    change (table_size d0) with (table_size (llmsset_set_custom d0 (Some h) (Some e))).
    clear Hok Hv.
    induction Hsteps as [d|d d1 d2 Hstep _ IH]; [done|].
    destruct Hstep as (fuel & me & a & b & idx & cr & Hrun).
    destruct (lookupc_custom_ok _ _ _ _ _ _ _ _ Hc Hrun) as [Hok1 ((_ & Hs & _) & _)].
    rewrite <- Hs. by apply IH. }
  destruct Hinv as [(_ & _ & _ & _ & _ & _ & _ & _ & Hent) Hsz].
  destruct (Hent slot Hv) as [Hidx Hb].
  rewrite <- land_mask_index, is_marked_bit, <- Hsz. done.
Qed.

(** X26.  The index of a payload is canonical with callbacks.  In a table
    with callbacks whose lookups are calls of [llmsset_lookupc], once a call
    has returned an index for a payload that [equals_cb] holds equal to
    itself, every later call for the payload returns the same index with
    [created] 0 and changes nothing, whatever other calls of
    [llmsset_lookupc] happen in between and whichever worker calls. *)
Theorem canonical_index_custom (fuel : nat) (me : lace_worker) (dbs : llmsset)
    (a b : Z) (e : Z → Z → Z → Z → bool) (d1 : llmsset) (idx : Z)
    (created : bool) (d2 : llmsset) (fuel' : nat) (me' : lace_worker) :
  custom_ok dbs → equals_cb dbs = Some e → e a b a b = true →
  llmsset_lookupc LLMSSET_MASK fuel me dbs a b = Some (d1, idx, Some created) →
  rtc (lookupc_step LLMSSET_MASK) d1 d2 →
  8 * threshold dbs <= Z.of_nat fuel' →
  2 <= idx < table_size dbs
  ∧ llmsset_lookupc LLMSSET_MASK fuel' me' d2 a b = Some (d2, idx, Some false).
Proof.
  intros Hok He Hrefl Hrun Hsteps Hfuel.
  destruct (lookupc_custom_ok _ _ _ _ _ _ _ _ Hok Hrun) as [Hok1 ((Ht & _) & _)].
  destruct (lookupc_result_finds _ _ _ _ _ _ _ _ _ Hok He Hrefl Hrun) as (Hidx & _ & Hf).
  destruct (lookupc_steps_ok _ _ _ _ _ Hok1 Hf Hsteps) as (_ & Hf2 & Ht2 & _).
  split; [done|]. apply Hf2. by rewrite Ht2, Ht.
Qed.

End CustomTables.

(** * The garbage collection *)

Section GarbageCollection.
Variable LLMSSET_MASK : bool.

(** ** What the sweep drops *)






Lemma swept_refl dbs : swept dbs dbs [] (λ _, False).
Proof. split; [apply table_frame_refl|]. split; [done|]. by intros y []. Qed.




(** ** One bucket for a payload *)






(** ** The round trip *)


End GarbageCollection.

(** * The two build modes *)

Lemma start_index_modes dbs h :
  pow2_sized dbs → start_index true dbs h = start_index false dbs h.
Proof.
  intros (k & Hk & Ht & Hm). unfold start_index. rewrite Ht, Hm.
  rewrite Z.sub_1_r, <- Z.ones_equiv. by apply Z.land_ones.
Qed.

Lemma probe_next_modes dbs custom a b p :
  pow2_sized dbs →
  probe_next true dbs custom a b p = probe_next false dbs custom a b p.
Proof.
  intros H. unfold probe_next.
  destruct (_ =? p_last p); [|done]. destruct (_ =? threshold dbs); [done|].
  destruct (next_hash dbs custom a b (p_hash_rehash p)); [|done].
  by rewrite start_index_modes.
Qed.

Lemma probe_first_modes dbs custom a b :
  pow2_sized dbs →
  probe_first true dbs custom a b = probe_first false dbs custom a b.
Proof.
  intros H. unfold probe_first.
  destruct (next_hash dbs custom a b HASH_SEED); [|done].
  by rewrite start_index_modes.
Qed.

Lemma lookup2_empty_sized cfuel me dbs a b custom hash idx cidx d0 c0 v :
  lookup2_empty cfuel me dbs a b custom hash idx cidx = Some (Go (d0, c0, v)) →
  table_size d0 = table_size dbs ∧ mask d0 = mask dbs.
Proof.
  unfold lookup2_empty. destruct (cidx =? 0).
  - destruct (claim_data_bucket cfuel me dbs) as [[d1 c]|] eqn:Hc; [|done].
    apply claim_data_bucket_frame in Hc.
    destruct (c =? MINUS_ONE); [done|].
    destruct (cas _ _ _ _) as [t [|]]; [done|].
    intros [= <- _ _]. by rewrite Hc.
  - destruct (cas _ _ _ _) as [t [|]]; [done|]. by intros [= <- _ _].
Qed.

Lemma lookup2_loop_modes cfuel fuel me a b custom hash : ∀ dbs cidx p,
  pow2_sized dbs →
  lookup2_loop true cfuel fuel me dbs a b custom hash cidx p
  = lookup2_loop false cfuel fuel me dbs a b custom hash cidx p.
Proof.
  induction fuel as [|fuel IH]; intros dbs cidx p H; [done|].
  cbn [lookup2_loop].
  assert (Hgo : ∀ d0 c0 v, pow2_sized d0 →
    match lookup2_match d0 a b custom hash c0 v with
    | Some (Some r) => Some r
    | Some None =>
        match probe_next true d0 custom a b p with
        | Some (Some p1) => lookup2_loop true cfuel fuel me d0 a b custom hash c0 p1
        | Some None => Some (d0, 0, None)
        | None => None
        end
    | None => None
    end
    = match lookup2_match d0 a b custom hash c0 v with
      | Some (Some r) => Some r
      | Some None =>
          match probe_next false d0 custom a b p with
          | Some (Some p1) => lookup2_loop false cfuel fuel me d0 a b custom hash c0 p1
          | Some None => Some (d0, 0, None)
          | None => None
          end
      | None => None
      end).
  { intros d0 c0 v H0. destruct (lookup2_match d0 a b custom hash c0 v) as [[r|]|]; try done.
    rewrite probe_next_modes by done.
    destruct (probe_next false d0 custom a b p) as [[p1|]|]; try done. by apply IH. }
  destruct (rd (table dbs) (p_idx p) =? 0); [|by apply Hgo].
  destruct (lookup2_empty cfuel me dbs a b custom hash (p_idx p) cidx)
    as [[r|[[d0 c0] v]]|] eqn:He; try done.
  apply Hgo. apply lookup2_empty_sized in He as [Ht Hm].
  destruct H as (k & Hk & Ht' & Hm'). exists k. by rewrite Ht, Hm.
Qed.

Lemma rehash_bucket_loop_modes fuel dbs a b custom new_v : ∀ p,
  pow2_sized dbs →
  rehash_bucket_loop true fuel dbs a b custom new_v p
  = rehash_bucket_loop false fuel dbs a b custom new_v p.
Proof.
  induction fuel as [|fuel IH]; intros p H; [done|].
  rewrite !rehash_bucket_loop_step, probe_next_modes by done.
  destruct (_ =? 0); [done|].
  destruct (probe_next false dbs custom a b p) as [[q|]|]; try done. by apply IH.
Qed.

Lemma rehash_bucket_modes fuel dbs k :
  pow2_sized dbs →
  llmsset_rehash_bucket true fuel dbs k = llmsset_rehash_bucket false fuel dbs k.
Proof.
  intros H. unfold llmsset_rehash_bucket. rewrite probe_first_modes by done.
  destruct (probe_first false dbs _ _ _); [|done].
  by apply rehash_bucket_loop_modes.
Qed.

Lemma rehash_bucket_sized mode fuel dbs k d' ok :
  llmsset_rehash_bucket mode fuel dbs k = Some (d', ok) →
  pow2_sized dbs → pow2_sized d'.
Proof.
  unfold llmsset_rehash_bucket.
  destruct (probe_first mode dbs _ _ _) as [p|]; [|done].
  intros H. apply rehash_bucket_loop_inv in H as (n & q & _ & _ & Hend).
  by inversion Hend; subst.
Qed.

Lemma rehash_serial_modes fuel n : ∀ dbs first k ptr m,
  pow2_sized dbs →
  rehash_serial true fuel n dbs first k ptr m
  = rehash_serial false fuel n dbs first k ptr m.
Proof.
  induction n as [|n IH]; intros dbs first k ptr m H; [done|].
  cbn [rehash_serial]. destruct (negb _).
  - rewrite rehash_bucket_modes by done.
    destruct (llmsset_rehash_bucket false fuel dbs (first + k)) as [[d1 ok]|] eqn:E;
      [|done].
    cbn [option_map fst]. apply rehash_bucket_sized in E; [|done].
    destruct (_ =? 0); by apply IH.
  - destruct (_ =? 0); by apply IH.
Qed.

Lemma rehash_serial_sized mode fuel n : ∀ dbs first k ptr m d',
  rehash_serial mode fuel n dbs first k ptr m = Some d' →
  pow2_sized dbs → pow2_sized d'.
Proof.
  induction n as [|n IH]; intros dbs first k ptr m d'; cbn [rehash_serial].
  - by intros [= <-].
  - destruct (negb _).
    + destruct (llmsset_rehash_bucket mode fuel dbs (first + k)) as [[d1 ok]|] eqn:E;
        [|done].
      cbn [option_map fst]. intros H Hs. apply rehash_bucket_sized in E; [|done].
      destruct (_ =? 0); by eapply IH.
    + destruct (_ =? 0); apply IH.
Qed.

Lemma rehash_par_modes fuel count :
  0 <= count → ∀ dbs first,
  pow2_sized dbs →
  llmsset_rehash_par true fuel dbs first count
  = llmsset_rehash_par false fuel dbs first count
  ∧ ∀ d', llmsset_rehash_par false fuel dbs first count = Some d' → pow2_sized d'.
Proof.
  intros Hc. pattern count. apply Z_lt_induction; [|exact Hc].
  clear count Hc. intros count IH dbs first H.
  simp llmsset_rehash_par. destruct (Z_lt_dec 1024 count) as [Hl|Hl]; simpl.
  - assert (Hs : 0 < count / 2 < count) by (Z.div_mod_to_equations; lia).
    destruct (IH (count - count / 2) ltac:(lia) dbs (first + count / 2) H) as [-> Hsz].
    destruct (llmsset_rehash_par false fuel dbs (first + count / 2) (count - count / 2))
      as [d1|]; [|done].
    apply IH; [lia | by apply Hsz].
  - split; [by apply rehash_serial_modes|].
    intros d' Hd. by eapply rehash_serial_sized.
Qed.

(** X23. In a table whose size is a power of two, with the mask that goes
    with it, a build with LLMSSET_MASK and a build without compute the same
    lookups and the same rehash. *)
Theorem mask_mode_agrees (dbs : llmsset) (k : Z) :
  0 <= k → table_size dbs = 2 ^ k → mask dbs = 2 ^ k - 1 →
  (∀ fuel me a b,
     llmsset_lookup true fuel me dbs a b = llmsset_lookup false fuel me dbs a b)
  ∧ (∀ fuel me a b,
       llmsset_lookupc true fuel me dbs a b = llmsset_lookupc false fuel me dbs a b)
  ∧ (∀ fuel, llmsset_rehash true fuel dbs = llmsset_rehash false fuel dbs).
Proof.
  intros Hk Ht Hm. assert (H : pow2_sized dbs) by (by exists k).
  assert (Hl : ∀ fuel me a b custom,
    llmsset_lookup2 true fuel me dbs a b custom
    = llmsset_lookup2 false fuel me dbs a b custom).
  { intros. unfold llmsset_lookup2. rewrite probe_first_modes by done.
    destruct (probe_first false dbs custom a b); [|done].
    by apply lookup2_loop_modes. }
  split; [intros; apply Hl|]. split; [intros; apply Hl|].
  intros fuel. unfold llmsset_rehash.
  apply rehash_par_modes; [|done]. rewrite Ht. apply Z.pow_nonneg. lia.
Qed.

(** * The properties on the example tables *)

(** Closed statements about the example tables are settled by running the
    functions. *)
Ltac by_running :=
  vm_compute; repeat split; first [reflexivity | discriminate | done].

Example create_512 : llmsset_create false 512 4096 = Some table512.
Proof. reflexivity. Qed.

Example create_4096 : llmsset_create false 4096 4096 = Some table4096.
Proof. reflexivity. Qed.

(** Scenario S1: insert, deduplicate, insert another payload. *)
Example scenario_s1 :
  outcome (llmsset_lookup false 144 worker0 table512 7 11) = Some (2, Some true)
  ∧ outcome (llmsset_lookup false 144 worker0 (after_lookup table512 7 11) 7 11)
    = Some (2, Some false)
  ∧ outcome (llmsset_lookup false 144 worker0 (after_lookup table512 7 11) 7 12)
    = Some (3, Some true).
Proof. vm_compute. done. Qed.

(** Scenario S3, with the marks set between the clear and the rehash. *)
Example scenario_s3 :
  match llmsset_rehash false 144 (clear_and_mark table_s3 [2; 4]) with
  | Some d =>
      outcome (llmsset_lookup false 144 worker0 d 1 1) = Some (2, Some false)
      ∧ outcome (llmsset_lookup false 144 worker0 d 3 3) = Some (4, Some false)
      ∧ outcome (llmsset_lookup false 144 worker0 d 2 2) = Some (3, Some true)
  | None => False
  end.
Proof. vm_compute. done. Qed.

Lemma lookup_after_lookup d a b r :
  outcome (llmsset_lookup false 144 worker0 d a b) = Some r →
  llmsset_lookup false 144 worker0 d a b = Some (after_lookup d a b, r.1, r.2).
Proof.
  unfold outcome, after_lookup.
  destruct (llmsset_lookup false 144 worker0 d a b) as [[[d' i'] c']|]; cbn;
    [by intros [= <-] | discriminate].
Qed.

Lemma words_ok_reserved : words_ok (wr ∅ 0 0xc000000000000000).
Proof. apply map_Forall_insert_2; [lia | apply map_Forall_empty]. Qed.

(** C1 on a table with a hash callback: the payload (7,11) is inserted,
    then (7,12), which gets the same bucket, and the next lookup of (7,11)
    reports created = true once more. *)
Theorem second_lookup_creates_again :
  let t1 := after_lookup table512c 7 11 in
  let t2 := after_lookup t1 7 12 in
  outcome (llmsset_lookup false 144 worker0 table512c 7 11) = Some (2, Some true)
  ∧ outcome (llmsset_lookup false 144 worker0 t1 7 12) = Some (2, Some true)
  ∧ outcome (llmsset_lookup false 144 worker0 t2 7 11) = Some (2, Some true).
Proof. vm_compute. done. Qed.

(** C2 on a table with a hash callback: after the lookup of (7,11) the
    directory slot 44 is published with the index 2, the payload is in
    bucket 2, and the [bitmap2] bit of 2 is clear. *)
Theorem published_slot_not_occupied :
  let t1 := after_lookup table512c 7 11 in
  rd (table t1) 44 ≠ 0
  ∧ slot_index (rd (table t1) 44) = 2
  ∧ payload t1 2 = (7, 11)
  ∧ bit_set (bitmap2 t1) 2 = false.
Proof. vm_compute. done. Qed.

(** C3 after a rehash: the sweep re-inserts the reserved buckets 0 and 1,
    and the lookup of their payload (0,0) returns 0 with created = false,
    through the branch that has found an entry. *)
Theorem lookup_returns_reserved_index :
  match llmsset_rehash false 144 (llmsset_clear table512) with
  | Some d =>
      outcome (llmsset_lookup false 144 worker0 d 0 0) = Some (0, Some false)
      ∧ outcome (llmsset_lookup false 144 worker0 d 7 11) = Some (2, Some true)
  | None => False
  end.
Proof. vm_compute. done. Qed.




(** C5, witness: the payload (7,11) in the table of 512 slots. *)
Lemma default_hash_tag_and_start_witness :
  (0 <= 7 < 2 ^ 64 ∧ 0 <= 11 < 2 ^ 64 ∧ mask table512 = table_size table512 - 1)
  ∧ rehash16_mul 7 11 HASH_SEED = mixer HASH_SEED 7 11
  ∧ mixer HASH_SEED 7 11 mod table_size table512 = 44
  ∧ ∃ d', llmsset_lookup false 2 worker0 table512 7 11 = Some (d', 2, Some true)
          ∧ slot_tag (rd (table d') 44) = slot_tag (mixer HASH_SEED 7 11)
          ∧ slot_index (rd (table d') 44) = 2.
Proof.
  split; [repeat split; lia|].
  destruct (default_hash_tag_and_start false worker0 table512 7 11 1)
    as (Hh & Hnew & _); [lia | lia | reflexivity |].
  assert (Hs : mixer HASH_SEED 7 11 mod table_size table512 = 44) by (by vm_compute).
  split; [exact Hh|]. split; [exact Hs|]. rewrite Hs in Hnew.
  eapply Hnew; [by vm_compute | vm_compute; reflexivity | lia].
Defined.

(** C7, witness: bucket 5 is resurrected, bucket 6 loses its request, and
    bucket 2, which is occupied, is not handed to the callback. *)
Lemma notify_all_spec_witness :
  dead_cb table_notify = Some (λ k, k =? 5)
  ∧ ∃ dbs' called,
      llmsset_notify_all table_notify = (dbs', called)
      ∧ called ≡ₚ filter (λ k, dead_candidate table_notify k = true)
                    (seqZ 0 (table_size table_notify))
      ∧ same_but_bitmaps23 table_notify dbs'
      ∧ ∀ k,
          if (0 <=? k) && (k <? table_size table_notify)
             && dead_candidate table_notify k then
            if k =? 5
            then bit_set (bitmap2 dbs') k = true
                 ∧ bit_set (bitmap3 dbs') k = bit_set (bitmap3 table_notify) k
            else bit_set (bitmap3 dbs') k = false
                 ∧ bit_set (bitmap2 dbs') k = bit_set (bitmap2 table_notify) k
          else bits23 dbs' k = bits23 table_notify k.
Proof.
  split; [reflexivity|].
  apply (notify_all_spec table_notify (λ k, k =? 5)). reflexivity.
Defined.

(** C8, witness: scenario S3 has five bits set, the two reserved ones
    and three buckets. *)
Lemma count_marked_serial_witness :
  0 <= table_size table_s3 < 2 ^ 64
  ∧ llmsset_count_marked table_s3
    = count_set (Z.to_nat (table_size table_s3)) (bitmap2 table_s3) 0.
Proof.
  assert (H : 0 <= table_size table_s3 < 2 ^ 64) by by_running.
  split; [exact H|]. apply (count_marked_serial table_s3 H).
Defined.

(** C9 as stated fails: with 4096 slots there are 8 regions, and the second
    of two workers claims region 4, while the region of the formula with
    4096, region 0, is free and stays free. *)
Lemma fresh_worker_does_not_start_at_4096_formula :
  get_my_region table4096 worker1of2 = MINUS_ONE
  ∧ worker worker1of2 * (table_size table4096 / 4096) / lace_workers worker1of2 = 0
  ∧ bit_set (bitmap1 table4096) 0 = false
  ∧ match claim_data_bucket 2 worker1of2 table4096 with
    | Some (d, c) =>
        c = 2048 ∧ get_my_region d worker1of2 = 4
        ∧ bit_set (bitmap1 d) 0 = false ∧ bit_set (bitmap1 d) 4 = true
    | None => False
    end.
Proof. vm_compute. done. Qed.

(** C9, witness: the second of two workers in the table of 4096 slots. *)
Lemma fresh_worker_start_region_witness :
  (get_my_region table4096 worker1of2 = MINUS_ONE
   ∧ 0 <= worker worker1of2 < lace_workers worker1of2
   ∧ 512 <= table_size table4096
   ∧ worker worker1of2 * (table_size table4096 / 512) < 2 ^ 64)
  ∧ 0 <= 4 < 8
  ∧ claim_data_bucket 2 worker1of2 table4096
    = claim_data_bucket_loop 1 worker1of2
        (put_my_region
           (set_bitmap1 table4096
              (wr (bitmap1 table4096) 0
                 (Z.lor (rd (bitmap1 table4096) 0) (bit_mask 4))))
           worker1of2 4) 4.
Proof.
  assert (H : get_my_region table4096 worker1of2 = MINUS_ONE
              ∧ 0 <= worker worker1of2 < lace_workers worker1of2
              ∧ 512 <= table_size table4096
              ∧ worker worker1of2 * (table_size table4096 / 512) < 2 ^ 64)
    by by_running.
  split; [exact H|].
  destruct H as (H1 & H2 & H3 & H4).
  exact (fresh_worker_start_region worker1of2 table4096 1 H1 H2 H3 H4).
Defined.

(** C10, witness: the lookup of (7,11) in the table with callbacks. *)
Lemma default_lookup_clears_occupancy_witness :
  (hash_cb table512c = Some rehash16_mul
   ∧ words_ok (bitmap2 table512c) ∧ 0 <= table_size table512c < 2 ^ 64
   ∧ region_ok table512c worker0
   ∧ llmsset_lookup false 144 worker0 table512c 7 11
     = Some (after_lookup table512c 7 11, 2, Some true))
  ∧ llmsset_is_marked (after_lookup table512c 7 11) 2 = false
  ∧ ∃ d'', ∀ n,
      claim_data_bucket (S n) worker0 (after_lookup table512c 7 11) = Some (d'', 2).
Proof.
  assert (H : hash_cb table512c = Some rehash16_mul
              ∧ words_ok (bitmap2 table512c) ∧ 0 <= table_size table512c < 2 ^ 64
              ∧ region_ok table512c worker0
              ∧ llmsset_lookup false 144 worker0 table512c 7 11
                = Some (after_lookup table512c 7 11, 2, Some true)).
  { split; [reflexivity|]. split; [apply words_ok_reserved|].
    split; [cbn; lia|]. split; [by left|].
    apply (lookup_after_lookup table512c 7 11 (2, Some true)). by vm_compute. }
  split; [exact H|].
  destruct H as (H1 & H2 & H3 & H4 & H5).
  exact (default_lookup_clears_occupancy false worker0 table512c 7 11 144 _ 2
           rehash16_mul H1 H2 H3 H4 H5).
Defined.

(** The table of [llmsset_create(512, 4096)] is well formed. *)
Lemma table512_ok : table_ok false table512.
Proof. by destruct (create_ok false 512 4096 table512 create_512 ltac:(lia)) as [? _]. Qed.

(** Worker 0 looks up (7, 11) in the new table: the entry is created in
    bucket 2. *)
Lemma lookup_7_11 :
  llmsset_lookup false 144 worker0 table512 7 11
  = Some (after_lookup table512 7 11, 2, Some true).
Proof. by vm_compute. Qed.

(** The next lookup of (7, 11) finds the bucket. *)
Lemma lookup_7_11_again :
  llmsset_lookup false 144 worker0 (after_lookup table512 7 11) 7 11
  = Some (after_lookup table512 7 11, 2, Some false).
Proof. by vm_compute. Qed.

(** The two lookups as steps: (7, 11) in the new table, then (7, 12). *)
Lemma step_7_11 : lookup_step false table512 (after_lookup table512 7 11).
Proof. exists 144%nat, worker0, 7, 11, 2, (Some true). exact lookup_7_11. Qed.

Lemma step_7_12 :
  lookup_step false (after_lookup table512 7 11)
    (after_lookup (after_lookup table512 7 11) 7 12).
Proof. exists 144%nat, worker0, 7, 12, 3, (Some true). by vm_compute. Qed.

(** X1, witness: [llmsset_create(512, 4096)]. *)
Lemma create_table_ok_witness :
  512 <= 512 <= 4096 ∧ 4096 <= 4096
  ∧ table_ok false table512
  ∧ table_size table512 = 512
  ∧ (∀ slot, rd (table table512) slot = 0)
  ∧ (∀ y, llmsset_is_marked table512 y = (y =? 0) || (y =? 1))
  ∧ (∀ me, get_my_region table512 me = MINUS_ONE).
Proof. apply (create_table_ok false 512 4096 table512); [exact create_512 | lia]. Defined.

(** X2, witness: the lookup of (7, 11) in the new table. *)
Lemma lookup_keeps_table_ok_witness : table_ok false (after_lookup table512 7 11).
Proof.
  apply (lookup_keeps_table_ok false 144 worker0 table512 7 11 _ 2 (Some true));
    [exact table512_ok | exact lookup_7_11].
Defined.

(** X3, witness: the lookup of (7, 11) creates the entry in bucket 2. *)
Lemma lookup_index_in_use_witness :
  2 <= 2 < table_size table512
  ∧ payload (after_lookup table512 7 11) 2 = (7, 11)
  ∧ llmsset_is_marked (after_lookup table512 7 11) 2 = true
  ∧ llmsset_is_marked table512 2 = negb true
  ∧ (true = false → after_lookup table512 7 11 = table512).
Proof.
  apply (lookup_index_in_use false 144 worker0 table512 7 11 _ 2 (Some true));
    [exact table512_ok | exact lookup_7_11].
Defined.

(** X4, witness: slot 44 of the directory after the lookup of (7, 11). *)
Lemma occupied_slots_in_use_witness :
  2 <= slot_index (rd (table (after_lookup table512 7 11)) 44) < table_size table512
  ∧ llmsset_is_marked (after_lookup table512 7 11)
      (slot_index (rd (table (after_lookup table512 7 11)) 44)) = true
  ∧ rd (table (after_lookup table512 7 11)) 44
    = entry_of (after_lookup table512 7 11)
        (slot_index (rd (table (after_lookup table512 7 11)) 44)).
Proof.
  apply (occupied_slots_in_use false table512);
    [exact table512_ok | apply rtc_once, step_7_11 | by vm_compute].
Defined.

(** X5, witness: (7, 11) is looked up, then (7, 12), then (7, 11) again. *)
Lemma canonical_index_witness :
  llmsset_lookup false 144 worker0
    (after_lookup (after_lookup table512 7 11) 7 12) 7 11
  = Some (after_lookup (after_lookup table512 7 11) 7 12, 2, Some false).
Proof.
  apply (canonical_index false 144 worker0 table512 7 11
           (after_lookup table512 7 11) 2 true);
    [exact table512_ok | exact lookup_7_11 | apply rtc_once, step_7_12 | by vm_compute].
Defined.

(** X6, witness: the payload found at index 2 after the lookup of (7, 11). *)
Lemma one_index_one_payload_witness : 7 = 7 ∧ 11 = 11.
Proof.
  apply (one_index_one_payload false (after_lookup table512 7 11) 2 7 11 7 11
           144 144 worker0 worker0); exact lookup_7_11_again.
Defined.

(** X7, witness: the table of 512 slots has one region and a budget of 144
    probes. *)
Lemma lookup_terminates_witness :
  ∃ d' idx cr, llmsset_lookup false 144 worker0 table512 7 11 = Some (d', idx, cr).
Proof. apply lookup_terminates; by vm_compute. Defined.

(** X8, witness: scenario S3 with the buckets 2 and 4 live. *)
Lemma rehash_entries_marked_witness :
  ∃ dbs',
    llmsset_rehash false 144 (clear_and_mark table_s3 [2; 4]) = Some dbs'
    ∧ data dbs' = data table_s3
    ∧ (∀ y, llmsset_is_marked dbs' y = bool_decide (y ∈ [2; 4]) || (y =? 0) || (y =? 1))
    ∧ ∀ slot, rd (table dbs') slot ≠ 0 →
        0 <= slot_index (rd (table dbs') slot) < table_size table_s3
        ∧ llmsset_is_marked dbs' (slot_index (rd (table dbs') slot)) = true
        ∧ rd (table dbs') slot = entry_of table_s3 (slot_index (rd (table dbs') slot)).
Proof. apply rehash_entries_marked; by vm_compute. Defined.

(** What [llmsset_lookupc] returns determines the whole result. *)
Lemma lookupc_after_lookupc d a b r :
  option_map (λ r, (r.1.2, r.2)) (llmsset_lookupc false 144 worker0 d a b) = Some r →
  llmsset_lookupc false 144 worker0 d a b = Some (after_lookupc d a b, r.1, r.2).
Proof.
  unfold after_lookupc.
  destruct (llmsset_lookupc false 144 worker0 d a b) as [[[d' i'] c']|]; cbn;
    [by intros [= <-] | discriminate].
Qed.

(** X9, witness: after the lookup of (7, 11), worker 0 claims bucket 3 in
    its region 0. *)
Lemma claim_data_bucket_spec_witness :
  let d := after_lookup table512 7 11 in
  let d1 := set_bitmap2 d (wr (bitmap2 d) 0 0xf000000000000000) in
  table d1 = table d ∧ data d1 = data d
  ∧ llmsset_is_marked d 3 = false
  ∧ (∀ y, llmsset_is_marked d1 y = (y =? 3) || llmsset_is_marked d y)
  ∧ 3 / 512 = get_my_region d1 worker0.
Proof.
  intros d d1. apply (claim_data_bucket_spec 1 worker0 d d1 3).
  - assert (bitmap2 d = wr ∅ 0 0xe000000000000000) as -> by (by vm_compute).
    apply map_Forall_insert_2; [lia | apply map_Forall_empty].
  - by vm_compute.
  - right. by vm_compute.
  - by vm_compute.
  - by vm_compute.
Defined.

(** X11, witness: [llmsset_lookupc] of (7, 11) in the table with callbacks. *)
Lemma lookupc_keeps_occupancy_witness :
  llmsset_is_marked (after_lookupc table512c 7 11) 2 = true.
Proof.
  apply (lookupc_keeps_occupancy false 144 worker0 table512c _ 7 11).
  apply (lookupc_after_lookupc table512c 7 11 (2, Some true)). by vm_compute.
Defined.

(** X12, witness: scenario S3. *)
Lemma count_marked_bounds_witness :
  0 <= llmsset_count_marked table_s3 <= table_size table_s3.
Proof. apply count_marked_bounds. by vm_compute. Defined.

(** X13, witness: bucket 7 of scenario S3 is not in use. *)
Lemma mark_raises_count_witness :
  llmsset_count_marked (llmsset_mark table_s3 7).1
  = llmsset_count_marked table_s3 + (if (llmsset_mark table_s3 7).2 then 1 else 0).
Proof. apply mark_raises_count; by vm_compute. Defined.

(** X14, witness: the lookup of (7, 11) in the new table. *)
Lemma created_raises_count_witness :
  llmsset_count_marked (after_lookup table512 7 11)
  = llmsset_count_marked table512 + 1.
Proof.
  apply (created_raises_count false 144 worker0 table512 _ 7 11 2);
    [exact table512_ok | exact lookup_7_11].
Defined.

(** The example tables that lookups make of the new table are well formed. *)
Lemma after_lookup_ok d a b : table_ok false d → table_ok false (after_lookup d a b).
Proof.
  intros Hok. unfold after_lookup.
  destruct (llmsset_lookup false 144 worker0 d a b) as [[[d' i] c]|] eqn:E; [|done].
  by eapply lookup_table_ok.
Qed.

Lemma crowded512_ok : table_ok false crowded512.
Proof.
  unfold crowded512. generalize (seqZ 1 510). intros l.
  generalize table512_ok. generalize table512.
  induction l as [|i l IH]; intros d Hd; cbn [foldl]; [done|].
  apply IH. by apply after_lookup_ok.
Qed.

(** X16, witness: worker 0 claims bucket 3 after the lookup of (7, 11). *)
Lemma release_undoes_claim_witness :
  let d := after_lookup table512 7 11 in
  let d1 := set_bitmap2 d (wr (bitmap2 d) 0 0xf000000000000000) in
  (∀ w, rd (bitmap2 (release_data_bucket d1 3)) w = rd (bitmap2 d) w)
  ∧ table (release_data_bucket d1 3) = table d
  ∧ data (release_data_bucket d1 3) = data d.
Proof.
  intros d d1. apply (release_undoes_claim 1 worker0 d d1 3).
  - assert (bitmap2 d = wr ∅ 0 0xe000000000000000) as -> by (by vm_compute).
    apply map_Forall_insert_2; [lia | apply map_Forall_empty].
  - by vm_compute.
  - right. by vm_compute.
  - by vm_compute.
  - by vm_compute.
Defined.

(** X17, witness: the re-insert of bucket 2 of scenario S3, which holds
    (1, 1), into the cleared directory puts its word into slot 309. *)
Lemma rehash_bucket_never_overwrites_witness :
  let d := clear_and_mark table_s3 [2; 4] in
  let d' := set_table d (wr (table d) 309 (Z.lor (Z.land (rehash16_mul 1 1 HASH_SEED) MASK_HASH) 2)) in
  d' = set_table d (table d')
  ∧ (∀ y, rd (table d) y ≠ 0 → rd (table d') y = rd (table d) y)
  ∧ ∃ hash p n q,
      next_hash d false 1 1 HASH_SEED = Some hash
      ∧ probe_first false d false 1 1 = Some p
      ∧ p_hash_rehash p = hash
      ∧ probe_nth false d false 1 1 n p = Some q
      ∧ occupied_before false d false 1 1 p n
      ∧ rd (table d) (p_idx q) = 0
      ∧ table d' = wr (table d) (p_idx q) (Z.lor (Z.land hash MASK_HASH) 2).
Proof.
  intros d d'.
  apply (rehash_bucket_never_overwrites false 144 d d' 2 true). by vm_compute.
Defined.

(** X18, witness: scenario S3 after the collection that keeps the buckets 2
    and 4; the lookup of (1, 1) finds bucket 2. *)
Lemma lookup_after_gc_finds_marked_witness :
  (2 ∈ [2; 4] ∨ 2 = 0 ∨ 2 = 1)
  ∧ 0 <= 2 < table_size table_s3
  ∧ payload table_s3 2 = (1, 1)
  ∧ table_s3_gc = table_s3_gc.
Proof.
  apply (lookup_after_gc_finds_marked false table_s3 [2; 4] 144 144 worker0 1 1
           table_s3_gc table_s3_gc 2); by vm_compute.
Defined.

(** X19, witness: the table with requests for the buckets 2, 5 and 6. *)
Lemma notify_all_settles_witness :
  (∀ k, 0 <= k < table_size table_notify →
        dead_candidate (llmsset_notify_all table_notify).1 k = false)
  ∧ llmsset_notify_all (llmsset_notify_all table_notify).1
    = ((llmsset_notify_all table_notify).1, []).
Proof.
  apply (notify_all_settles table_notify (λ k, k =? 5)); [reflexivity | by vm_compute].
Defined.

(** In the crowded table the lookup of (600, 0) fails. *)
Lemma lookup_600_0 :
  llmsset_lookup false 144 worker0 crowded512 600 0
  = Some (after_lookup crowded512 600 0, 0, None).
Proof. apply (lookup_after_lookup crowded512 600 0 (0, None)). by vm_compute. Qed.

(** X20, witness: the failing lookup of (600, 0). *)
Lemma lookup_failure_witness :
  let d := crowded512 in
  let d' := after_lookup crowded512 600 0 in
  0 = 0
  ∧ table d' = table d ∧ data d' = data d
  ∧ bitmap2 d' = bitmap2 d ∧ bitmap3 d' = bitmap3 d
  ∧ (((∀ r, 0 <= r < table_size d / 512 → bit_set (bitmap1 d') r = true)
      ∧ (get_my_region d worker0 ≠ MINUS_ONE →
         ∀ y, y / 512 = get_my_region d worker0 → llmsset_is_marked d y = true)
      ∧ 0 <= get_my_region d' worker0 < table_size d / 512)
     ∨ (d' = d
        ∧ ∃ p, probe_first false d false 600 0 = Some p
           ∧ passes false d 600 0 false
               (Z.land (rehash16_mul 600 0 HASH_SEED) MASK_HASH) p
               (Z.to_nat (8 * threshold d)))).
Proof.
  exact (lookup_failure false 144 worker0 crowded512 _ 600 0 0
           crowded512_ok lookup_600_0).
Defined.

(** X21, witness: the table with the default hash as hash callback. *)
Lemma lookupc_terminates_witness :
  ∃ d' idx cr, llmsset_lookupc false 144 worker0 table512c 7 11 = Some (d', idx, cr).
Proof.
  apply (lookupc_terminates false 144 worker0 table512c 7 11 rehash16_mul
           (λ a b c d, (a =? c) && (b =? d))); first [reflexivity | by vm_compute].
Defined.

(** X22, witness: the first probe of (7, 11) in the table of 512 slots. *)
Lemma probes_stay_in_table_witness :
  0 <= p_idx (mk_probe (rehash16_mul 7 11 HASH_SEED) 44 44 0) < table_size table512.
Proof.
  apply (probes_stay_in_table false table512 false 7 11
           (mk_probe (rehash16_mul 7 11 HASH_SEED) 44 44 0) _ 0);
    first [reflexivity | by vm_compute].
Defined.

(** X23, witness: 512 = 2^9. *)
Lemma mask_mode_agrees_witness :
  (∀ fuel me a b,
     llmsset_lookup true fuel me table512 a b
     = llmsset_lookup false fuel me table512 a b)
  ∧ (∀ fuel me a b,
       llmsset_lookupc true fuel me table512 a b
       = llmsset_lookupc false fuel me table512 a b)
  ∧ (∀ fuel, llmsset_rehash true fuel table512 = llmsset_rehash false fuel table512).
Proof. apply (mask_mode_agrees table512 9); by vm_compute. Defined.

(** X10, witness: scenario S3 is cleared. *)
Lemma clear_spec_witness :
  (∀ slot, rd (table (llmsset_clear table_s3)) slot = 0)
  ∧ (∀ w, rd (bitmap1 (llmsset_clear table_s3)) w = 0)
  ∧ (∀ y, llmsset_is_marked (llmsset_clear table_s3) y = (y =? 0) || (y =? 1))
  ∧ llmsset_count_marked (llmsset_clear table_s3) = 2
  ∧ (∀ me, get_my_region (llmsset_clear table_s3) me = MINUS_ONE)
  ∧ data (llmsset_clear table_s3) = data table_s3
  ∧ bitmap3 (llmsset_clear table_s3) = bitmap3 table_s3
  ∧ table_size (llmsset_clear table_s3) = table_size table_s3
  ∧ hash_cb (llmsset_clear table_s3) = hash_cb table_s3
  ∧ dead_cb (llmsset_clear table_s3) = dead_cb table_s3.
Proof. apply clear_spec. by vm_compute. Defined.

(** The lookup of the second worker determines [two_workers4096]. *)
Lemma lookup_two_workers idx cr :
  outcome (llmsset_lookup false 144 worker1of2 (after_lookup table4096 7 11) 7 12)
  = Some (idx, cr) →
  llmsset_lookup2 false 144 worker1of2 (after_lookup table4096 7 11) 7 12 false
  = Some (two_workers4096, idx, cr).
Proof.
  unfold outcome, two_workers4096, llmsset_lookup.
  destruct (llmsset_lookup2 false 144 worker1of2 _ 7 12 false) as [[[d' i'] c']|]; cbn;
    [by intros [= <- <-] | discriminate].
Qed.

(** X24, witness: worker 0 looks up (7, 11) in the new table of 4096 slots,
    then the second of two workers looks up (7, 12). *)
Lemma regions_stay_exclusive_witness :
  get_my_region two_workers4096 worker0 ≠ get_my_region two_workers4096 worker1of2
  ∧ bit_set (bitmap1 two_workers4096) (get_my_region two_workers4096 worker0) = true.
Proof.
  apply (regions_stay_exclusive false table4096 two_workers4096 worker0 worker1of2).
  - by vm_compute.
  - done.
  - eapply rtc_l.
    + exists 144%nat, worker0, 7, 11, false, 2, true.
      apply (lookup_after_lookup table4096 7 11 (2, Some true)). by vm_compute.
    + apply rtc_once. exists 144%nat, worker1of2, 7, 12, false, 2048, true.
      apply lookup_two_workers. by vm_compute.
  - by vm_compute.
  - by vm_compute.
Defined.

(** X25, witness: the entry of slot 44 after [llmsset_lookupc] of (7, 11) in
    the table with callbacks. *)
Lemma custom_slots_in_use_witness :
  let d := after_lookupc table512c 7 11 in
  2 <= slot_index (rd (table d) 44) < table_size table512
  ∧ llmsset_is_marked d (slot_index (rd (table d) 44)) = true.
Proof.
  intros d.
  apply (custom_slots_in_use false table512 d rehash16_mul
           (λ a b c d, (a =? c) && (b =? d)) 44).
  - exact table512_ok.
  - apply rtc_once. exists 144%nat, worker0, 7, 11, 2, (Some true).
    apply (lookupc_after_lookupc table512c 7 11 (2, Some true)). by vm_compute.
  - by vm_compute.
Defined.

(** X26, witness: in the table with callbacks, worker 0 looks up (7, 11) and
    then (7, 12) with [llmsset_lookupc]; the second of two workers then
    finds (7, 11) at index 2. *)
Lemma canonical_index_custom_witness :
  let d2 := after_lookupc (after_lookupc table512c 7 11) 7 12 in
  2 <= 2 < table_size table512c
  ∧ llmsset_lookupc false 144 worker1of2 d2 7 11 = Some (d2, 2, Some false).
Proof.
  intros d2.
  apply (canonical_index_custom false 144 worker0 table512c 7 11
           (λ a b c d, (a =? c) && (b =? d))
           (after_lookupc table512c 7 11) 2 true d2 144 worker1of2).
  - apply (set_custom_ok false). exact table512_ok.
  - reflexivity.
  - reflexivity.
  - apply (lookupc_after_lookupc table512c 7 11 (2, Some true)). by vm_compute.
  - apply rtc_once. exists 144%nat, worker0, 7, 12, 3, (Some true).
    apply (lookupc_after_lookupc (after_lookupc table512c 7 11) 7 12 (3, Some true)).
    by vm_compute.
  - by vm_compute.
Defined.
